(** * Day-calendar layout: a shallow embedding of [calendar.js]

    The script lays out the events of one day in columns: events that
    overlap in time are put side by side, each as wide as the calendar
    divided by the number of columns of its collision cluster.

    Modelling decisions.
    - An [Event] object is a record in a store ([objects]); a reference to
      it is its index there (the position of the raw record in the input).
      [events], [events_calculated] and [collision_clusters] hold such
      references, so the aliasing of the script (one object reachable from
      a column cell and from a cluster, mutated through either) is kept.
    - [start] and [end] are integers; [left] and [width] are IEEE 754
      binary64 numbers ([PrimFloat]), the numbers of JavaScript, so that
      [600/column] rounds as it does in the script.
    - [events_calculated] is a sparse array: a finite map from index to
      cell.  Reading a missing index gives [undefined], and calling a method
      on it throws, which is [Throw] below.
    - The two nested loops of [calculateEventPositions] are a transition
      function [step] on configurations (calendar, [column], program point,
      loop index [i]); [run] iterates it, and the configurations it passes
      are the points of a layout run.
    - [Array.prototype.sort] is taken to be stable in [sortEvents]
      ([layOutDay_sorted] takes the order it gives as a parameter, for what
      two runs have in common whatever the sort), and [$.inArray] and
      [$.grep] of jQuery to be what their documentation says: the first
      index under [===] or -1, and the elements that pass the test.
    - Of the page only the children of the fresh [calendar] element are
      kept, as the list of the markup strings that [paint] appends.  The
      conversion of a number to a string is a parameter of [paint]. *)

From Stdlib Require Import ZArith List Lia Floats Uint63 QArith Lqa Sorted.
From Stdlib Require DecimalString.
From stdpp Require Import base option list gmap sorting strings.

(** ** JavaScript numbers and errors *)

(** An integer counter ([column]) read as a JavaScript number. *)
Definition num_of_nat (n : nat) : float :=
  PrimFloat.of_uint63 (Uint63.of_Z (Z.of_nat n)).

(** The result of a call that may end in an uncaught [TypeError]. *)
Inductive result (A : Type) : Type :=
| Ok (a : A)
| Throw.
Arguments Ok {A} a.
Arguments Throw {A}.

Definition bind {A B : Type} (m : result A) (k : A -> result B) : result B :=
  match m with
  | Ok a => k a
  | Throw => Throw
  end.

Notation "'do' x <- m ; k" := (bind m (fun x => k))
  (at level 10, x name, m at level 100, k at level 200).

(** ** Data *)

Definition ref := nat.

(** A raw input record [{start: s, end: e}]. *)
Record RawEvent := raw { raw_start : Z; raw_end : Z }.

Record Event := mkEvent {
  start : Z;
  end_ : Z;
  left : float;
  width : float;
  collisions : list ref;
  column : nat
}.

Record Calendar := mkCalendar {
  cal_width : float;
  objects : list Event;
  events : list ref;
  events_calculated : gmap nat (list ref);
  collision_clusters : list (list ref)
}.

(** A reference always denotes a live object; the default is never read. *)
Definition no_event : Event := mkEvent 0 0 0 0 [] 0.

Definition deref (cal : Calendar) (r : ref) : Event :=
  default no_event (objects cal !! r).

Definition set_objects (cal : Calendar) (os : list Event) : Calendar :=
  mkCalendar (cal_width cal) os (events cal) (events_calculated cal) (collision_clusters cal).

Definition set_events (cal : Calendar) (evs : list ref) : Calendar :=
  mkCalendar (cal_width cal) (objects cal) evs (events_calculated cal) (collision_clusters cal).

Definition set_events_calculated (cal : Calendar) (ec : gmap nat (list ref)) : Calendar :=
  mkCalendar (cal_width cal) (objects cal) (events cal) ec (collision_clusters cal).

Definition set_collision_clusters (cal : Calendar) (cs : list (list ref)) : Calendar :=
  mkCalendar (cal_width cal) (objects cal) (events cal) (events_calculated cal) cs.

(** In-place update of the object behind a reference. *)
Definition update (cal : Calendar) (r : ref) (f : Event -> Event) : Calendar :=
  set_objects cal (<[r := f (deref cal r)]> (objects cal)).

(** ** Constructors *)

(** [function Event(event, calendar)] *)
Definition newEvent (calendar_width : float) (event : RawEvent) : Event :=
  {| start := raw_start event;
     end_ := raw_end event;
     left := 0;
     width := calendar_width;
     collisions := [];
     column := 1 |}.

(** [function Calendar(events)] *)
Definition newCalendar (raws : list RawEvent) : Calendar :=
  {| cal_width := 600;
     objects := map (newEvent 600) raws;
     events := seq 0 (length raws);
     events_calculated := ∅;
     collision_clusters := [] |}.

(** ** [Calendar.prototype.sortEvents] *)

(** The comparator handed to [Array.prototype.sort]. *)
Definition compareEvents (a b : Event) : Z :=
  if (start a >? start b)%Z then 1%Z
  else if (start b >? start a)%Z then (-1)%Z
  else if (end_ a >? end_ b)%Z then 1%Z
  else if (end_ b >? end_ a)%Z then (-1)%Z
  else 0%Z.

(** [Array.prototype.sort] as a stable insertion sort: records that compare
    equal keep their input order. *)
Fixpoint insert_by (cmp : ref -> ref -> Z) (x : ref) (l : list ref) : list ref :=
  match l with
  | [] => [x]
  | y :: l' => if (cmp x y >? 0)%Z then y :: insert_by cmp x l' else x :: l
  end.

Definition sort_by (cmp : ref -> ref -> Z) (l : list ref) : list ref :=
  foldr (insert_by cmp) [] l.

Definition sortEvents (cal : Calendar) : Calendar :=
  set_events cal
    (sort_by (fun a b => compareEvents (deref cal a) (deref cal b)) (events cal)).

(** ** [Event.prototype.checkCollision] *)

Definition checkCollision (this event : Event) : bool :=
  ((start this <=? start event)%Z && (start event <? end_ this)%Z)
  || ((start this <? end_ event)%Z && (end_ event <=? end_ this)%Z)
  || ((start event <=? start this)%Z && (start this <? end_ event)%Z)
  || ((start event <? end_ this)%Z && (end_ this <=? end_ event)%Z).

(** ** [Calendar.prototype.getCollidingEvents]

    [this.events_calculated[column-1]] is [undefined] for column 0 (index
    -1) and for a column whose cell was never assigned; [.forEach] on it
    throws. *)
Definition getCollidingEvents (cal : Calendar) (event : ref) (column : nat)
  : result (list ref) :=
  match column with
  | O => Throw
  | S c =>
      match events_calculated cal !! c with
      | None => Throw
      | Some cell =>
          Ok (filter (fun event_calculated =>
                        checkCollision (deref cal event) (deref cal event_calculated) = true)
                     cell)
      end
  end.

(** ** [removeDuplicates] *)

(** [$.inArray(x, array)]: the index of the first occurrence, or -1. *)
Fixpoint inArray_from (i : nat) (x : nat) (array : list nat) : Z :=
  match array with
  | [] => (-1)%Z
  | y :: rest => if decide (x = y) then Z.of_nat i else inArray_from (S i) x rest
  end.

Definition inArray (x : nat) (array : list nat) : Z := inArray_from 0 x array.

(** [$.grep(array, f)]: the elements for which [f(element, index)] holds. *)
Fixpoint grep_from (i : nat) (f : nat -> nat -> bool) (array : list nat) : list nat :=
  match array with
  | [] => []
  | x :: rest =>
      if f x i then x :: grep_from (S i) f rest else grep_from (S i) f rest
  end.

Definition grep (array : list nat) (f : nat -> nat -> bool) : list nat :=
  grep_from 0 f array.

Definition removeDuplicates (array : list nat) : list nat :=
  grep array (fun element index => (inArray element array =? Z.of_nat index)%Z).

(** ** [Event.prototype.determineCollidingEvents] *)

(** The loop [for (j = this.column-1; j > 0; j--)], started at [j] with the
    collisions gathered so far. *)
Fixpoint collidingEvents_loop (cal : Calendar) (this : ref) (j : nat) (acc : list ref)
  : result (list ref) :=
  match j with
  | O => Ok acc
  | S j' =>
      do events_colliding <- getCollidingEvents cal this j;
      collidingEvents_loop cal this j' (acc ++ events_colliding)
  end.

Definition determineCollidingEvents (cal : Calendar) (this : ref) : result Calendar :=
  do cs <- collidingEvents_loop cal this (column (deref cal this) - 1)
                                (collisions (deref cal this));
  Ok (update cal this (fun e =>
        mkEvent (start e) (end_ e) (left e) (width e) (removeDuplicates cs) (column e))).

(** ** [Event.prototype.resize] *)

Definition resizeEvent (calendar_width : float) (column_ : nat) (e : Event) : Event :=
  let w := (calendar_width / num_of_nat column_)%float in
  mkEvent (start e) (end_ e)
          (w * (num_of_nat (column e) - 1))%float
          w
          (collisions e) (column e).

Definition resize (cal : Calendar) (this : ref) (column_ : nat) : Calendar :=
  update cal this (resizeEvent (cal_width cal) column_).

(** ** [Calendar.prototype.determineCollisionClusters] *)

(** The inner [forEach] over all clusters for one collision event: the
    indices of the clusters that contain it.  ([return false] does not leave
    a native [forEach], so every cluster is inspected.) *)
Fixpoint clusters_containing_from (index : nat) (collision_event : ref)
         (clusters : list (list ref)) : list nat :=
  match clusters with
  | [] => []
  | collision_cluster :: rest =>
      if (inArray collision_event collision_cluster >? -1)%Z
      then index :: clusters_containing_from (S index) collision_event rest
      else clusters_containing_from (S index) collision_event rest
  end.

Definition clusters_containing (collision_event : ref) (clusters : list (list ref))
  : list nat :=
  clusters_containing_from 0 collision_event clusters.

(** One round of the first [for] loop: the cluster at [k] is appended to the
    cluster at [idx].  Both indices were found by enumerating this array, so
    both cells exist; [undefined.concat] would throw. *)
Definition concat_cluster (idx : nat) (clusters : list (list ref)) (k : nat)
  : result (list (list ref)) :=
  match clusters !! idx, clusters !! k with
  | Some c, Some collision_cluster_to_merge =>
      Ok (<[idx := c ++ collision_cluster_to_merge]> clusters)
  | _, _ => Throw
  end.

Fixpoint concat_clusters (idx : nat) (clusters : list (list ref)) (ks : list nat)
  : result (list (list ref)) :=
  match ks with
  | [] => Ok clusters
  | k :: ks' =>
      do clusters' <- concat_cluster idx clusters k;
      concat_clusters idx clusters' ks'
  end.

(** The second [for] loop, [k] from the last index of the merge list down to
    1: [splice(collision_clusters_to_merge[k], 1)].  [ks] is the merge list
    without its head, already reversed.  [splice] beyond the end removes
    nothing. *)
Definition splice_clusters (clusters : list (list ref)) (ks : list nat)
  : list (list ref) :=
  foldl (fun cs k => delete k cs) clusters ks.

Definition determineCollisionClusters (cal : Calendar) (event : ref)
  : result (Calendar * nat) :=
  let clusters := collision_clusters cal in
  match collisions (deref cal event) with
  | [] =>
      (* push returns the new length *)
      Ok (set_collision_clusters cal (clusters ++ [[event]]), length clusters)
  | _ :: _ =>
      let collision_clusters_to_merge :=
        removeDuplicates
          (flat_map (fun collision_event => clusters_containing collision_event clusters)
                    (collisions (deref cal event))) in
      match collision_clusters_to_merge with
      | [] =>
          (* index [undefined]: [this.collision_clusters[undefined].push] throws *)
          Throw
      | new_collision_cluster_index :: others =>
          do merged <- concat_clusters new_collision_cluster_index clusters others;
          let spliced := splice_clusters merged (rev others) in
          match spliced !! new_collision_cluster_index with
          | None => Throw
          | Some c =>
              Ok (set_collision_clusters cal
                    (<[new_collision_cluster_index := c ++ [event]]> spliced),
                  new_collision_cluster_index)
          end
      end
  end.

(** ** [Calendar.prototype.calculateEventPositions] *)

(** The body of the [if] in the inner loop: the event at index [i] of
    [this.events] is moved to the cell of [column], its direct collisions and
    its cluster are determined and the whole cluster is resized. *)
Definition place (cal : Calendar) (i : nat) (event : ref) (column_ : nat)
  : result Calendar :=
  match events_calculated cal !! (column_ - 1) with
  | None => Throw
  | Some cell =>
      (* this.events_calculated[column-1].push(event) *)
      let cal1 := set_events_calculated cal
                    (<[column_ - 1 := cell ++ [event]]> (events_calculated cal)) in
      (* this.events.splice(i--,1) *)
      let cal2 := set_events cal1 (delete i (events cal1)) in
      (* event.column = column *)
      let cal3 := update cal2 event (fun e =>
                    mkEvent (start e) (end_ e) (left e) (width e) (collisions e) column_) in
      do cal4 <- determineCollidingEvents cal3 event;
      do placed <- determineCollisionClusters cal4 event;
      let cal5 := fst placed in
      let new_collision_cluster_index := snd placed in
      match collision_clusters cal5 !! new_collision_cluster_index with
      | None => Throw
      | Some cluster =>
          Ok (foldl (fun c collision_cluster_event =>
                       resize c collision_cluster_event column_)
                    cal5 cluster)
      end
  end.

(** Program points of [calculateEventPositions]: the test of the [while]
    loop, and the test of the [for] loop with its index [i]. *)
Inductive point : Type :=
| AtWhile
| AtFor (i : nat).

Record config := mkConfig {
  cfg_cal : Calendar;
  cfg_column : nat;
  cfg_point : point
}.

Inductive status : Type :=
| Next (c : config)
| Return (cal : Calendar)
| Raise.

Definition step (c : config) : status :=
  let cal := cfg_cal c in
  let column_ := cfg_column c in
  match cfg_point c with
  | AtWhile =>
      match events cal with
      | [] => Return cal
      | _ :: _ =>
          (* this.events_calculated[column-1] = [] *)
          Next (mkConfig
                  (set_events_calculated cal (<[column_ - 1 := []]> (events_calculated cal)))
                  column_ (AtFor 0))
      end
  | AtFor i =>
      match events cal !! i with
      | None =>
          (* i >= this.events.length: column++ *)
          Next (mkConfig cal (S column_) AtWhile)
      | Some event =>
          match getCollidingEvents cal event column_ with
          | Throw => Raise
          | Ok [] =>
              match place cal i event column_ with
              | Throw => Raise
              | Ok cal' => Next (mkConfig cal' column_ (AtFor i))
              end
          | Ok (_ :: _) => Next (mkConfig cal column_ (AtFor (S i)))
          end
      end
  end.

(** [run fuel c]: the outcome of at most [fuel] transitions from [c];
    [None] when the run has not ended by then. *)
Fixpoint run (fuel : nat) (c : config) : option (result Calendar) :=
  match fuel with
  | O => None
  | S fuel' =>
      match step c with
      | Next c' => run fuel' c'
      | Return cal => Some (Ok cal)
      | Raise => Some Throw
      end
  end.

(** The configuration at the [n]-th point of a run. *)
Fixpoint config_at (n : nat) (c : config) : option config :=
  match n with
  | O => Some c
  | S n' =>
      match step c with
      | Next c' => config_at n' c'
      | _ => None
      end
  end.

(** [var column = 1]: the column starts at 1 and only grows. *)
Definition initial (cal : Calendar) : config := mkConfig cal 1 AtWhile.

(** A pass over [n] events takes at most [n + 2] transitions and leaves at
    most [n - 1] events. *)
Definition steps_bound (n : nat) : nat := n * (n + 2) + 1.

Definition calculateEventPositions (cal : Calendar) : option (result Calendar) :=
  run (steps_bound (length (events cal))) (initial cal).

(** ** [layOutDay] (without the painting) *)

Definition layOutDay (raws : list RawEvent) : option (result Calendar) :=
  calculateEventPositions (sortEvents (newCalendar raws)).

(** The same with the number of transitions left to the caller. *)
Definition layOutDay_within (fuel : nat) (raws : list RawEvent) : option (result Calendar) :=
  run fuel (initial (sortEvents (newCalendar raws))).

(** ** [Event.prototype.paint] and [Calendar.prototype.paintEvents] *)

Section Painting.

(** The string that [+] makes of a number, for the integers [start] and
    [end] and for the doubles [left] and [width]. *)
Variable string_of_Z : Z -> string.
Variable string_of_float : float -> string.

(** The markup that [paint] builds of an event. *)
Definition event_markup (this : Event) : string :=
  "<div class='event' style='" +:+
  "top:" +:+ string_of_Z (start this) +:+ "px;" +:+
  "left:" +:+ string_of_float (left this) +:+ "px;" +:+
  "height:" +:+ string_of_Z (end_ this - start this) +:+ "px;" +:+
  "width:" +:+ string_of_float (width this) +:+ "px;" +:+
  "'><p>Sample Item</p></div>".

(** [$(".calendar").append(...)]: one more child, after those already
    there. *)
Definition paint (cal : Calendar) (this : ref) (calendar_div : list string)
  : list string :=
  calendar_div ++ [event_markup (deref cal this)].

(** The [length] of a sparse array: one more than its greatest index. *)
Definition array_length {A} (array : gmap nat A) : nat :=
  map_fold (fun index _ n => Nat.max (S index) n) 0 array.

(** [Array.prototype.forEach] on a sparse array: the indices below [length]
    in ascending order, the missing ones passed over. *)
Definition forEach {A T} (array : gmap nat A) (f : A -> T -> T) (s : T) : T :=
  foldl (fun s index =>
           match array !! index with
           | Some x => f x s
           | None => s
           end)
        s (seq 0 (array_length array)).

(** [paintEvents] removes the old [calendar] element and appends an empty
    one, which the events are painted into, cell after cell. *)
Definition paintEvents (cal : Calendar) : list string :=
  forEach (events_calculated cal)
          (fun events calendar_div =>
             foldl (fun calendar_div event => paint cal event calendar_div)
                   calendar_div events)
          [].

End Painting.

(** * The vocabulary of the statements *)

(** ** Inputs *)

(** The calendar as [layOutDay] hands it to [calculateEventPositions]. *)
Definition start_of (raws : list RawEvent) : Calendar := sortEvents (newCalendar raws).

(** The input of six events on which the merge of clusters goes wrong, and
    its extension by two events on which the wrong clusters show in the
    layout.  By index: A = 0 ... H = 7. *)
Definition six_events : list RawEvent :=
  [raw 0 1; raw 0 1; raw 0 3; raw 1 2; raw 2 3; raw 2 3].

Definition eight_events : list RawEvent :=
  six_events ++ [raw 2 4; raw 3 4].

(** The geometry [(column, left, width)] of every input record, in input
    order, when the layout returns. *)
Definition geometry (r : option (result Calendar)) : option (list (nat * float * float)) :=
  match r with
  | Some (Ok cal) => Some (map (fun e => (column e, left e, width e)) (objects cal))
  | _ => None
  end.

(** ** What a call leaves unchanged *)

(** What a call may change in an object: only the fields named. *)
Definition same_times (e e' : Event) : Prop :=
  start e' = start e /\ end_ e' = end_ e.

Definition same_geometry (e e' : Event) : Prop :=
  left e' = left e /\ width e' = width e.

(** The calendars [cal] and [cal'] agree on everything but the objects'
    [left], [width] and [collisions] and the cluster list. *)
Record layout_step (cal cal' : Calendar) : Prop := {
  ls_width : cal_width cal' = cal_width cal;
  ls_events : events cal' = events cal;
  ls_cells : events_calculated cal' = events_calculated cal;
  ls_length : length (objects cal') = length (objects cal);
  ls_times : forall r, same_times (deref cal r) (deref cal' r);
  ls_column : forall r, column (deref cal' r) = column (deref cal r)
}.

(** ** Geometry *)

(** An event is sized for [c] columns when its [width] is the calendar's
    width divided by [c] and its [left] is that width times its own column
    less one, as [resize] computes them. *)
Definition sized (calendar_width : float) (c : nat) (e : Event) : Prop :=
  width e = (calendar_width / num_of_nat c)%float
  /\ left e = (width e * (num_of_nat (column e) - 1))%float.

(** [left >= 0] and [left + width <= 600] for an event of column [col] sized
    for [n] columns, computed as the script computes them. *)
Definition fits (n col : nat) : bool :=
  let w := (600 / num_of_nat n)%float in
  let l := (w * (num_of_nat col - 1))%float in
  ((0 <=? l) && (l + w <=? 600))%float.

(** The ranges [[left, left + width)] of two events do not overlap. *)
Definition disjoint_ranges (a b : Event) : bool :=
  ((left a + width a <=? left b) || (left b + width b <=? left a))%float.

(** The same for two events of columns [c1] and [c2] sized for [n] columns. *)
Definition apart (n c1 c2 : nat) : bool :=
  let w := (600 / num_of_nat n)%float in
  let l1 := (w * (num_of_nat c1 - 1))%float in
  let l2 := (w * (num_of_nat c2 - 1))%float in
  ((l1 + w <=? l2) || (l2 + w <=? l1))%float.

(** The same geometry in exact arithmetic: the width of one of [n] columns,
    and the left edge of column [col]. *)
Definition exact_width (n : nat) : Q := (600 / inject_Z (Z.of_nat n))%Q.

Definition exact_left (n col : nat) : Q :=
  (exact_width n * (inject_Z (Z.of_nat col) - 1))%Q.

(** ** Cells and the invariant of the layout loop *)

(** [r] is in the cell of index [k] (column [k + 1]). *)
Definition in_cell (cal : Calendar) (k : nat) (r : ref) : Prop :=
  exists cell, events_calculated cal !! k = Some cell /\ r ∈ cell.

Definition placed (cal : Calendar) (r : ref) : Prop :=
  exists k, in_cell cal k r.

(** No two events of a cell collide. *)
Definition collision_free (cal : Calendar) (cell : list ref) : Prop :=
  NoDup cell
  /\ forall a b, a ∈ cell -> b ∈ cell -> a <> b ->
                 checkCollision (deref cal a) (deref cal b) = false.

(** Cells exist below this index only. *)
Definition cells_limit (c : config) : nat :=
  match cfg_point c with
  | AtWhile => cfg_column c - 1
  | AtFor _ => cfg_column c
  end.

Record invariant (cal0 : Calendar) (c : config) : Prop := {
  inv_column : 1 <= cfg_column c;
  inv_width : cal_width (cfg_cal c) = cal_width cal0;
  inv_length : length (objects (cfg_cal c)) = length (objects cal0);
  inv_times : forall r, same_times (deref cal0 r) (deref (cfg_cal c) r);
  inv_limit : forall k cell,
      events_calculated (cfg_cal c) !! k = Some cell -> k < cells_limit c;
  inv_open : forall i, cfg_point c = AtFor i ->
      is_Some (events_calculated (cfg_cal c) !! (cfg_column c - 1));
  inv_column_field : forall k r,
      in_cell (cfg_cal c) k r -> column (deref (cfg_cal c) r) = S k;
  inv_nodup : NoDup (events (cfg_cal c));
  inv_unplaced : forall r, r ∈ events (cfg_cal c) -> ~ placed (cfg_cal c) r;
  inv_refs : forall r,
      r ∈ events (cfg_cal c) \/ placed (cfg_cal c) r <-> r < length (objects (cfg_cal c));
  inv_cells : forall k cell,
      events_calculated (cfg_cal c) !! k = Some cell -> collision_free (cfg_cal c) cell;
  inv_sized : forall k r,
      in_cell (cfg_cal c) k r ->
      exists n, S k <= n <= cells_limit c
                /\ sized (cal_width (cfg_cal c)) n (deref (cfg_cal c) r);
  inv_dense : forall k,
      k < cells_limit c -> is_Some (events_calculated (cfg_cal c) !! k)
}.

(** ** A measure for termination *)

(** The cell of the current column has just been emptied and the scan is at
    its first event. *)
Definition fresh_column (c : config) : bool :=
  match cfg_point c, events (cfg_cal c),
        events_calculated (cfg_cal c) !! (cfg_column c - 1) with
  | AtFor 0, _ :: _, Some [] => true
  | _, _, _ => false
  end.

(** An upper bound on the transitions left.  From a fresh column the first
    event is placed at once, so the pass ends with one event less. *)
Definition steps_left (c : config) : nat :=
  let n := length (events (cfg_cal c)) in
  match cfg_point c with
  | AtWhile => steps_bound n
  | AtFor i =>
      if fresh_column c then n + 1 + steps_bound (n - 1)
      else (n - i) + 1 + steps_bound n
  end.

(** ** Further vocabulary *)

(** The elements of [l] not in [seen] and not met earlier in [l], in order:
    what [removeDuplicates] keeps of a suffix [l] of its array, [seen] being
    the part of the array before it. *)
Fixpoint keep_first (seen l : list nat) : list nat :=
  match l with
  | [] => []
  | x :: rest =>
      if decide (x ∈ seen) then keep_first (seen ++ [x]) rest
      else x :: keep_first (seen ++ [x]) rest
  end.

(** [a] does not come after [b] in the order of [sortEvents]: by [start],
    then by [end]. *)
Definition earlier_or_same (a b : Event) : Prop :=
  (start a < start b)%Z \/ (start a = start b /\ (end_ a <= end_ b)%Z).

(** The array [collision_clusters_to_merge] of [determineCollisionClusters]:
    the indices of the clusters that hold a collision of the event, in the
    order of discovery, each once. *)
Definition collision_clusters_to_merge (cal : Calendar) (event : ref) : list nat :=
  removeDuplicates
    (flat_map (fun collision_event =>
                 clusters_containing collision_event (collision_clusters cal))
              (collisions (deref cal event))).

(** The calendar in the middle of [place]: the event has been pushed onto the
    cell of [column], taken out of [this.events], and given its [column]. *)
Definition moved (cal : Calendar) (i : nat) (event : ref) (column_ : nat)
           (cell : list ref) : Calendar :=
  update
    (set_events
       (set_events_calculated cal
          (<[column_ - 1 := cell ++ [event]]> (events_calculated cal)))
       (delete i (events cal)))
    event
    (fun e => mkEvent (start e) (end_ e) (left e) (width e) (collisions e) column_).

(** What the layout loop keeps true of the collisions and of the greedy
    choice of columns, beside [invariant]. *)
Record greedy_invariant (c : config) : Prop := {
  gi_waiting : forall r, r ∈ events (cfg_cal c) -> collisions (deref (cfg_cal c) r) = [];
  gi_collisions : forall k r,
      in_cell (cfg_cal c) k r ->
      NoDup (collisions (deref (cfg_cal c) r))
      /\ forall x,
           x ∈ collisions (deref (cfg_cal c) r)
           <-> exists k', k' < k /\ in_cell (cfg_cal c) k' x
                          /\ checkCollision (deref (cfg_cal c) r) (deref (cfg_cal c) x) = true;
  gi_placed : forall k r,
      in_cell (cfg_cal c) k r ->
      forall k', k' < k ->
      exists x, in_cell (cfg_cal c) k' x
                /\ checkCollision (deref (cfg_cal c) r) (deref (cfg_cal c) x) = true;
  gi_rejected : forall r,
      r ∈ events (cfg_cal c) ->
      forall k', k' + 1 < cfg_column c ->
      exists x, in_cell (cfg_cal c) k' x
                /\ checkCollision (deref (cfg_cal c) r) (deref (cfg_cal c) x) = true;
  gi_skipped : forall i j r,
      cfg_point c = AtFor i -> j < i -> events (cfg_cal c) !! j = Some r ->
      exists x, in_cell (cfg_cal c) (cfg_column c - 1) x
                /\ checkCollision (deref (cfg_cal c) r) (deref (cfg_cal c) x) = true;
  gi_nonempty : forall k,
      events_calculated (cfg_cal c) !! k = Some [] ->
      k = cfg_column c - 1 /\ cfg_point c = AtFor 0 /\ events (cfg_cal c) <> []
}.

(** No two records of the input collide, as [checkCollision] tells it of
    their events. *)
Definition separate (raws : list RawEvent) : Prop :=
  forall i j a b,
    raws !! i = Some a -> raws !! j = Some b -> i <> j ->
    checkCollision (newEvent 600 a) (newEvent 600 b) = false.

(** [a] does not come after [b] in the order of [sortEvents], by the times
    the events have in [cal0]. *)
Definition in_order (cal0 : Calendar) (a b : ref) : Prop :=
  earlier_or_same (deref cal0 a) (deref cal0 b).

(** What the layout loop keeps true of the order of the events: the waiting
    events and every cell are in the order of [sortEvents], and what is
    already in the cell of the current column does not come after what the
    scan has still to visit. *)
Record chronological (cal0 : Calendar) (c : config) : Prop := {
  ch_events : StronglySorted (in_order cal0) (events (cfg_cal c));
  ch_cells : forall k cell,
      events_calculated (cfg_cal c) !! k = Some cell ->
      StronglySorted (in_order cal0) cell;
  ch_scan : forall i x j r,
      cfg_point c = AtFor i ->
      in_cell (cfg_cal c) (cfg_column c - 1) x ->
      i <= j -> events (cfg_cal c) !! j = Some r ->
      in_order cal0 x r
}.

(** The events in the order in which [paintEvents] visits them. *)
Definition painting_order (cal : Calendar) : list ref :=
  flat_map (fun k => default [] (events_calculated cal !! k))
           (seq 0 (array_length (events_calculated cal))).

(** ** Merges of clusters in ascending order *)

(** The numbers of [l] ascend. *)
Fixpoint ascending (l : list nat) : bool :=
  match l with
  | a :: (b :: _) as rest => (a <? b) && ascending rest
  | _ => true
  end.

(** The merge list of the placement that [step] makes at [c]: the array
    [collision_clusters_to_merge] that [determineCollisionClusters] builds
    for the event placed there; empty where [step] places nothing. *)
Definition merge_list (c : config) : list nat :=
  let cal := cfg_cal c in
  match cfg_point c with
  | AtWhile => []
  | AtFor i =>
      match events cal !! i with
      | None => []
      | Some event =>
          match getCollidingEvents cal event (cfg_column c),
                events_calculated cal !! (cfg_column c - 1) with
          | Ok [], Some cell =>
              match determineCollidingEvents
                      (moved cal i event (cfg_column c) cell) event with
              | Ok cal4 => collision_clusters_to_merge cal4 event
              | Throw => []
              end
          | _, _ => []
          end
      end
  end.

(** Every merge list of the first [fuel] transitions from [c] ascends: the
    order for which the loop that splices the merged clusters out, last
    index first, is written. *)
Fixpoint merges_ascending (fuel : nat) (c : config) : bool :=
  match fuel with
  | O => true
  | S fuel' =>
      ascending (merge_list c)
      && match step c with
         | Next c' => merges_ascending fuel' c'
         | _ => true
         end
  end.

(** What the layout loop keeps true of the clusters as long as the merge
    lists ascend: the clusters are disjoint and hold the placed events; the
    members of a cluster are all sized for one column, none left of which
    they are; and an event is in the cluster of each of its collisions. *)
Record clustered (c : config) : Prop := {
  cl_disjoint : NoDup (concat (collision_clusters (cfg_cal c)));
  cl_placed : forall r,
      r ∈ concat (collision_clusters (cfg_cal c)) <-> placed (cfg_cal c) r;
  cl_sized : forall k cluster,
      collision_clusters (cfg_cal c) !! k = Some cluster ->
      exists n,
        n <= cells_limit c
        /\ forall r, r ∈ cluster ->
                     column (deref (cfg_cal c) r) <= n
                     /\ sized (cal_width (cfg_cal c)) n (deref (cfg_cal c) r);
  cl_collisions : forall r x,
      placed (cfg_cal c) r ->
      x ∈ collisions (deref (cfg_cal c) r) ->
      exists k cluster,
        collision_clusters (cfg_cal c) !! k = Some cluster
        /\ r ∈ cluster /\ x ∈ cluster
}.

(** ** Two runs *)

(** What [this.events.sort(...)] may leave in [this.events]: the events, in
    an order in which none comes before one that the comparator puts first.
    The order among events with the same [start] and [end] is the sort's
    own; a stable sort leaves them in the order of the input. *)
Definition sort_outcome (cal : Calendar) (sorted : list ref) : Prop :=
  sorted ≡ₚ events cal /\ StronglySorted (in_order cal) sorted.

(** The same [column], [left] and [width]. *)
Definition same_layout (e1 e2 : Event) : Prop :=
  column e2 = column e1 /\ left e2 = left e1 /\ width e2 = width e1.

(** [layOutDay], the sort of the run having given the order [sorted]. *)
Definition layOutDay_sorted (raws : list RawEvent) (sorted : list ref)
  : option (result Calendar) :=
  calculateEventPositions (set_events (newCalendar raws) sorted).

(** The record that [exchange] puts for [r]: the one that the second order
    has where the first has [r]. *)
Definition exchange (sorted1 sorted2 : list ref) (r : ref) : ref :=
  match list_find (eq r) sorted1 with
  | Some (p, _) => default r (sorted2 !! p)
  | None => r
  end.

(** An event with the references it holds renamed. *)
Definition rename_event (pi : ref -> ref) (e : Event) : Event :=
  mkEvent (start e) (end_ e) (left e) (width e) (pi <$> collisions e) (column e).

(** [cal2] is [cal1] with every reference [r] renamed to [pi r]: in the
    arrays, and in the store, where the object behind [pi r] is the renamed
    object behind [r]. *)
Record renamed (pi : ref -> ref) (cal1 cal2 : Calendar) : Prop := {
  rn_width : cal_width cal2 = cal_width cal1;
  rn_bound : forall r, pi r < length (objects cal2) <-> r < length (objects cal1);
  rn_deref : forall r, deref cal2 (pi r) = rename_event pi (deref cal1 r);
  rn_events : events cal2 = pi <$> events cal1;
  rn_cells : events_calculated cal2 = fmap (M:=list) pi <$> events_calculated cal1;
  rn_clusters : collision_clusters cal2 = fmap (M:=list) pi <$> collision_clusters cal1
}.

(** Two results that end alike, with values related by [R]. *)
Definition alike {A B} (R : A -> B -> Prop) (r1 : result A) (r2 : result B) : Prop :=
  match r1, r2 with
  | Ok a, Ok b => R a b
  | Throw, Throw => True
  | _, _ => False
  end.

(** The same point of the two runs. *)
Definition renamed_config (pi : ref -> ref) (c1 c2 : config) : Prop :=
  renamed pi (cfg_cal c1) (cfg_cal c2)
  /\ cfg_column c2 = cfg_column c1 /\ cfg_point c2 = cfg_point c1.

Definition renamed_status (pi : ref -> ref) (s1 s2 : status) : Prop :=
  match s1, s2 with
  | Next c1, Next c2 => renamed_config pi c1 c2
  | Return cal1, Return cal2 => renamed pi cal1 cal2
  | Raise, Raise => True
  | _, _ => False
  end.

(** * Properties *)

(** ** The object store *)

Lemma deref_update_ne cal r r' f :
  r' <> r -> deref (update cal r f) r' = deref cal r'.
Proof.
  intros Hne. unfold deref, update. simpl.
  rewrite list_lookup_insert_ne; [reflexivity | congruence].
Qed.

Lemma deref_update_eq cal r f :
  r < length (objects cal) -> deref (update cal r f) r = f (deref cal r).
Proof.
  intros Hlt. unfold deref, update. simpl.
  rewrite list_lookup_insert_eq; [reflexivity | exact Hlt].
Qed.

Lemma deref_update_ge cal r f r' :
  length (objects cal) <= r -> deref (update cal r f) r' = deref cal r'.
Proof.
  intros Hge. unfold deref, update. simpl.
  rewrite list_insert_ge; [reflexivity | exact Hge].
Qed.

Lemma deref_update cal r f r' :
  deref (update cal r f) r' = deref cal r'
  \/ (r' = r /\ r < length (objects cal) /\ deref (update cal r f) r' = f (deref cal r)).
Proof.
  destruct (decide (r' = r)) as [->|Hne].
  - destruct (decide (r < length (objects cal))) as [Hlt|Hge].
    + right. auto using deref_update_eq.
    + left. apply deref_update_ge. lia.
  - left. apply deref_update_ne, Hne.
Qed.

Lemma length_objects_update cal r f :
  length (objects (update cal r f)) = length (objects cal).
Proof. unfold update. simpl. apply length_insert. Qed.

Lemma layout_step_refl cal : layout_step cal cal.
Proof. split; try reflexivity; intros; split; reflexivity. Qed.

Lemma layout_step_trans cal1 cal2 cal3 :
  layout_step cal1 cal2 -> layout_step cal2 cal3 -> layout_step cal1 cal3.
Proof.
  intros [W1 E1 C1 L1 T1 K1] [W2 E2 C2 L2 T2 K2]. split; try congruence.
  intros r. destruct (T1 r), (T2 r). split; congruence.
Qed.

Lemma layout_step_update cal r f :
  (forall e, same_times e (f e) /\ column (f e) = column e) ->
  layout_step cal (update cal r f).
Proof.
  intros Hf. split; try reflexivity.
  - apply length_objects_update.
  - intros r'. destruct (deref_update cal r f r') as [->|(-> & _ & ->)].
    + split; reflexivity.
    + apply Hf.
  - intros r'. destruct (deref_update cal r f r') as [->|(-> & _ & ->)].
    + reflexivity.
    + apply Hf.
Qed.

(** ** What the calls of [place] change *)

Lemma determineCollidingEvents_spec cal this cal' :
  determineCollidingEvents cal this = Ok cal' ->
  layout_step cal cal'
  /\ collision_clusters cal' = collision_clusters cal
  /\ forall r, same_geometry (deref cal r) (deref cal' r).
Proof.
  unfold determineCollidingEvents.
  destruct (collidingEvents_loop _ _ _ _) as [cs|]; simpl; [|discriminate].
  intros [= <-]. split; [|split].
  - apply layout_step_update. intros e. repeat split.
  - reflexivity.
  - intros r.
    match goal with |- context [update cal this ?f] =>
      destruct (deref_update cal this f r) as [->|(-> & _ & ->)] end;
      split; reflexivity.
Qed.

Lemma determineCollisionClusters_spec cal event cal' idx :
  determineCollisionClusters cal event = Ok (cal', idx) ->
  objects cal' = objects cal
  /\ cal_width cal' = cal_width cal
  /\ events cal' = events cal
  /\ events_calculated cal' = events_calculated cal
  /\ exists cluster, collision_clusters cal' !! idx = Some cluster /\ event ∈ cluster.
Proof.
  unfold determineCollisionClusters.
  destruct (collisions (deref cal event)) as [|c0 cs].
  - intros [= <- <-]. simpl. repeat split.
    exists [event]. split.
    + rewrite lookup_app_r by lia. now rewrite Nat.sub_diag.
    + apply list_elem_of_singleton. reflexivity.
  - destruct (removeDuplicates _) as [|idx0 others]; [discriminate|].
    destruct (concat_clusters idx0 (collision_clusters cal) others) as [merged|];
      simpl; [|discriminate].
    destruct (splice_clusters merged (rev others) !! idx0) as [c|] eqn:Hc; [|discriminate].
    intros [= <- <-]. simpl. repeat split.
    exists (c ++ [event]). split.
    + apply list_lookup_insert_eq. eapply lookup_lt_Some, Hc.
    + apply elem_of_app. right. apply list_elem_of_singleton. reflexivity.
Qed.

Lemma resizeEvent_idem w c e :
  resizeEvent w c (resizeEvent w c e) = resizeEvent w c e.
Proof. reflexivity. Qed.

Lemma layout_step_resize cal r c : layout_step cal (resize cal r c).
Proof. apply layout_step_update. intros e. repeat split. Qed.

Lemma resize_all_spec cluster : forall cal c,
  let cal' := foldl (fun k r => resize k r c) cal cluster in
  layout_step cal cal'
  /\ collision_clusters cal' = collision_clusters cal
  /\ forall r,
       deref cal' r =
         if decide (r ∈ cluster /\ r < length (objects cal))
         then resizeEvent (cal_width cal) c (deref cal r)
         else deref cal r.
Proof.
  induction cluster as [|x cluster IH]; intros cal c; simpl.
  - split; [apply layout_step_refl|]. split; [reflexivity|].
    intros r. reflexivity.
  - destruct (IH (resize cal x c) c) as (Hls & Hcl & Hobj).
    split; [|split].
    + eapply layout_step_trans; [apply layout_step_resize | exact Hls].
    + rewrite Hcl. reflexivity.
    + intros r. rewrite Hobj.
      assert (Hlen : length (objects (resize cal x c)) = length (objects cal))
        by apply length_objects_update.
      assert (Hw : cal_width (resize cal x c) = cal_width cal) by reflexivity.
      rewrite Hlen, Hw. unfold resize.
      destruct (decide (r = x)) as [->|Hne].
      * destruct (decide (x < length (objects cal))) as [Hlt|Hge].
        -- rewrite deref_update_eq by exact Hlt. rewrite resizeEvent_idem.
           destruct (decide (x ∈ x :: cluster /\ x < length (objects cal))) as [_|Hn].
           ++ case_decide; reflexivity.
           ++ exfalso. apply Hn. split; [apply list_elem_of_here | exact Hlt].
        -- rewrite deref_update_ge by lia.
           repeat case_decide; try reflexivity; exfalso; lia.
      * rewrite deref_update_ne by exact Hne.
        destruct (decide (r ∈ cluster /\ r < length (objects cal))) as [[Hin Hlt]|Hn];
          destruct (decide (r ∈ x :: cluster /\ r < length (objects cal)))
            as [[Hin' Hlt']|Hn']; try reflexivity; exfalso.
        -- apply Hn'. split; [apply list_elem_of_further, Hin | exact Hlt].
        -- apply Hn. split; [|exact Hlt'].
           apply elem_of_cons in Hin' as [?|?]; [congruence | assumption].
Qed.

Lemma sized_resizeEvent w c e : sized w c (resizeEvent w c e).
Proof. split; reflexivity. Qed.

Lemma deref_objects cal cal' r :
  objects cal' = objects cal -> deref cal' r = deref cal r.
Proof. unfold deref. intros ->. reflexivity. Qed.

Lemma place_spec cal i event column_ cal' :
  place cal i event column_ = Ok cal' ->
  exists cell,
    events_calculated cal !! (column_ - 1) = Some cell
    /\ events cal' = delete i (events cal)
    /\ events_calculated cal' = <[column_ - 1 := cell ++ [event]]> (events_calculated cal)
    /\ cal_width cal' = cal_width cal
    /\ length (objects cal') = length (objects cal)
    /\ (forall r, same_times (deref cal r) (deref cal' r))
    /\ (forall r, r <> event -> column (deref cal' r) = column (deref cal r))
    /\ (event < length (objects cal) -> column (deref cal' event) = column_)
    /\ (forall r, same_geometry (deref cal r) (deref cal' r)
                  \/ sized (cal_width cal) column_ (deref cal' r))
    /\ (event < length (objects cal) -> sized (cal_width cal) column_ (deref cal' event)).
Proof.
  unfold place.
  destruct (events_calculated cal !! (column_ - 1)) as [cell|] eqn:Hcell; [|discriminate].
  set (cal1 := set_events_calculated cal _).
  set (cal2 := set_events cal1 _).
  set (setcol := fun e : Event => mkEvent _ _ _ _ _ column_).
  set (cal3 := update cal2 event setcol).
  destruct (determineCollidingEvents cal3 event) as [cal4|] eqn:H4; simpl; [|discriminate].
  destruct (determineCollisionClusters cal4 event) as [[cal5 idx]|] eqn:H5; simpl;
    [|discriminate].
  destruct (collision_clusters cal5 !! idx) as [cluster|] eqn:Hcl; [|discriminate].
  intros [= <-].
  apply determineCollidingEvents_spec in H4 as ([W4 E4 C4 L4 T4 K4] & _ & G4).
  apply determineCollisionClusters_spec in H5 as (O5 & W5 & E5 & C5 & cl & Hcl' & Hin).
  rewrite Hcl in Hcl'. injection Hcl' as <-.
  destruct (resize_all_spec cluster cal5 column_) as ([W6 E6 C6 L6 T6 K6] & _ & D6).
  set (cal6 := foldl _ cal5 cluster) in *.
  assert (D3 : forall r, deref cal3 r = deref cal r
                         \/ (r = event /\ event < length (objects cal)
                             /\ deref cal3 r = setcol (deref cal event))).
  { intros r. assert (D2 : forall q, deref cal2 q = deref cal q) by reflexivity.
    assert (L2 : length (objects cal2) = length (objects cal)) by reflexivity.
    rewrite <- !D2, <- L2. apply deref_update. }
  assert (L3 : length (objects cal3) = length (objects cal))
    by (unfold cal3; rewrite length_objects_update; reflexivity).
  assert (D5 : forall r, deref cal5 r = deref cal4 r)
    by (intros r; apply deref_objects, O5).
  assert (L5 : length (objects cal5) = length (objects cal)) by congruence.
  exists cell. split; [reflexivity|].
  split; [rewrite E6, E5, E4; reflexivity|].
  split; [rewrite C6, C5, C4; reflexivity|].
  split; [rewrite W6, W5, W4; reflexivity|].
  split; [congruence|].
  assert (Times : forall r, same_times (deref cal r) (deref cal6 r)).
  { intros r. destruct (T6 r) as [a6 b6]. rewrite D5 in a6, b6.
    destruct (T4 r) as [a4 b4].
    destruct (D3 r) as [e|(-> & _ & e)]; rewrite e in a4, b4; split; simpl in *; congruence. }
  assert (Col : forall r, column (deref cal6 r) = column (deref cal3 r)).
  { intros r. rewrite K6, D5, K4. reflexivity. }
  split; [exact Times|].
  split.
  { intros r Hne. rewrite Col. unfold cal3. rewrite deref_update_ne by exact Hne.
    reflexivity. }
  split.
  { intros Hlt. rewrite Col. unfold cal3. rewrite deref_update_eq by exact Hlt.
    reflexivity. }
  assert (W56 : cal_width cal5 = cal_width cal) by (rewrite W5, W4; reflexivity).
  split.
  - intros r. rewrite D6, W56. case_decide as Hd.
    + right. apply sized_resizeEvent.
    + left. rewrite D5. destruct (G4 r) as [a b].
      destruct (D3 r) as [e|(-> & _ & e)]; rewrite e in a, b; split; simpl in *; congruence.
  - intros Hlt. rewrite D6, W56. case_decide as Hd.
    + apply sized_resizeEvent.
    + exfalso. apply Hd. split; [exact Hin | lia].
Qed.

(** ** Lists: removing the element at an index *)

Lemma delete_middle {A} (l : list A) i x :
  l !! i = Some x ->
  exists l1 l2, l = l1 ++ x :: l2 /\ delete i l = l1 ++ l2.
Proof.
  intros Hi. exists (take i l), (drop (S i) l). split.
  - symmetry. apply take_drop_middle, Hi.
  - apply delete_take_drop.
Qed.

Lemma NoDup_delete_at {A} (l : list A) i x :
  NoDup l -> l !! i = Some x -> NoDup (delete i l) /\ x ∉ delete i l.
Proof.
  intros Hnd Hi. destruct (delete_middle l i x Hi) as (l1 & l2 & -> & ->).
  apply NoDup_app in Hnd as (H1 & H12 & H2).
  apply NoDup_cons in H2 as [Hx H2]. split.
  - apply NoDup_app. split; [exact H1|]. split; [|exact H2].
    intros y Hy Hy'. apply (H12 y Hy). now apply list_elem_of_further.
  - intros Hin. apply elem_of_app in Hin as [Hin|Hin]; [|contradiction].
    apply (H12 x Hin). apply list_elem_of_here.
Qed.

Lemma elem_of_delete_at {A} (l : list A) i x y :
  l !! i = Some x -> y ∈ l -> y <> x -> y ∈ delete i l.
Proof.
  intros Hi Hy Hne. destruct (delete_middle l i x Hi) as (l1 & l2 & -> & ->).
  apply elem_of_app in Hy as [Hy|Hy]; apply elem_of_app; [left; exact Hy|].
  apply elem_of_cons in Hy as [?|Hy]; [contradiction|right; exact Hy].
Qed.

(** ** [checkCollision] reads the times only, and is symmetric *)

Lemma checkCollision_times a b a' b' :
  same_times a a' -> same_times b b' -> checkCollision a' b' = checkCollision a b.
Proof. intros [Ha1 Ha2] [Hb1 Hb2]. unfold checkCollision. rewrite Ha1, Ha2, Hb1, Hb2. reflexivity. Qed.

Lemma checkCollision_sym a b : checkCollision a b = checkCollision b a.
Proof.
  unfold checkCollision.
  destruct (start a <=? start b)%Z, (start b <? end_ a)%Z, (start a <? end_ b)%Z,
    (end_ b <=? end_ a)%Z, (start b <=? start a)%Z, (end_ a <=? end_ b)%Z; reflexivity.
Qed.

(** ** The invariant of the layout loop *)

Lemma getCollidingEvents_nil cal event column_ :
  getCollidingEvents cal event column_ = Ok [] ->
  exists cell,
    1 <= column_
    /\ events_calculated cal !! (column_ - 1) = Some cell
    /\ forall x, x ∈ cell -> checkCollision (deref cal event) (deref cal x) = false.
Proof.
  unfold getCollidingEvents. destruct column_ as [|k]; [discriminate|].
  destruct (events_calculated cal !! k) as [cell|] eqn:Hk; [|discriminate].
  intros [= Hnil]. exists cell. split; [lia|].
  split; [rewrite <- Hk; f_equal; lia|].
  intros x Hx. destruct (checkCollision _ _) eqn:Hc; [|reflexivity].
  exfalso. exact (filter_nil_not_elem_of _ _ _ Hnil Hc Hx).
Qed.

Lemma in_cell_fresh cal cal' K k r :
  events_calculated cal' = <[K := []]> (events_calculated cal) ->
  events_calculated cal !! K = None ->
  in_cell cal' k r <-> in_cell cal k r.
Proof.
  intros Hec Hnone. unfold in_cell. rewrite Hec. split; intros (cell & Hk & Hr).
  - apply lookup_insert_Some in Hk as [[_ <-]|[_ Hk]].
    + now apply not_elem_of_nil in Hr.
    + eauto.
  - exists cell. split; [|exact Hr]. rewrite lookup_insert_ne; [exact Hk|congruence].
Qed.

Lemma in_cell_push cal cal' K cell event k r :
  events_calculated cal' = <[K := cell ++ [event]]> (events_calculated cal) ->
  events_calculated cal !! K = Some cell ->
  in_cell cal' k r <-> in_cell cal k r \/ (k = K /\ r = event).
Proof.
  intros Hec Hcell. unfold in_cell. rewrite Hec. split.
  - intros (cell' & Hk & Hr). apply lookup_insert_Some in Hk as [[<- <-]|[_ Hk]].
    + apply elem_of_app in Hr as [Hr|Hr].
      * left. eauto.
      * right. apply list_elem_of_singleton in Hr. auto.
    + left. eauto.
  - intros [(cell' & Hk & Hr)|[-> ->]].
    + destruct (decide (K = k)) as [<-|Hne].
      * exists (cell ++ [event]). rewrite lookup_insert_eq. split; [reflexivity|].
        apply elem_of_app. left. congruence.
      * exists cell'. rewrite lookup_insert_ne by exact Hne. auto.
    + exists (cell ++ [event]). rewrite lookup_insert_eq. split; [reflexivity|].
      apply elem_of_app. right. apply list_elem_of_here.
Qed.

Lemma sized_same w n e e' :
  same_geometry e e' -> column e' = column e -> sized w n e -> sized w n e'.
Proof. intros [Hl Hw] Hc [H1 H2]. unfold sized. rewrite Hl, Hw, Hc. auto. Qed.

(** *** Every transition preserves the invariant *)

Section Preservation.

Variable cal0 : Calendar.

(** Bounds on cell indices, after unfolding [cells_limit]. *)
Ltac limit_lia := unfold cells_limit in *; simpl in *; lia.

Lemma invariant_open cal column_ :
  invariant cal0 (mkConfig cal column_ AtWhile) ->
  invariant cal0
    (mkConfig (set_events_calculated cal (<[column_ - 1 := []]> (events_calculated cal)))
              column_ (AtFor 0)).
Proof.
  intros [Hcol Hw Hlen Htimes Hlimit _ Hfield Hnd Hunpl Hrefs Hcells Hsized Hdense].
  simpl in *.
  set (cal' := set_events_calculated cal _).
  assert (Hnone : events_calculated cal !! (column_ - 1) = None).
  { destruct (events_calculated cal !! (column_ - 1)) as [cell|] eqn:E; [|reflexivity].
    apply Hlimit in E. limit_lia. }
  assert (Hin : forall k r, in_cell cal' k r <-> in_cell cal k r).
  { intros k r. apply in_cell_fresh with (K := column_ - 1); [reflexivity|exact Hnone]. }
  assert (Hpl : forall r, placed cal' r <-> placed cal r).
  { intros r. unfold placed. split; intros [k Hk]; exists k; apply Hin, Hk. }
  split; simpl; try assumption.
  - intros k cell Hk. unfold cells_limit. simpl.
    apply lookup_insert_Some in Hk as [[<- _]|[_ Hk]]; [lia|].
    apply Hlimit in Hk. limit_lia.
  - intros _ _. rewrite lookup_insert_eq. eauto.
  - intros k r Hk. apply Hin in Hk. apply (Hfield k r Hk).
  - intros r Hr Hp. apply Hpl in Hp. exact (Hunpl r Hr Hp).
  - intros r. rewrite Hpl. apply Hrefs.
  - intros k cell Hk. apply lookup_insert_Some in Hk as [[_ <-]|[_ Hk]].
    + split; [constructor|]. intros a b Ha. now apply not_elem_of_nil in Ha.
    + apply (Hcells k cell Hk).
  - intros k r Hk. apply Hin in Hk. destruct (Hsized k r Hk) as (n & Hn & Hs).
    exists n. split; [|exact Hs]. limit_lia.
  - intros k Hk. unfold cells_limit in *. simpl in *.
    destruct (decide (column_ - 1 = k)) as [<-|Hne].
    + rewrite lookup_insert_eq. eauto.
    + rewrite lookup_insert_ne by exact Hne. apply Hdense. lia.
Qed.

Lemma invariant_close cal column_ i :
  invariant cal0 (mkConfig cal column_ (AtFor i)) ->
  invariant cal0 (mkConfig cal (S column_) AtWhile).
Proof.
  intros [Hcol Hw Hlen Htimes Hlimit _ Hfield Hnd Hunpl Hrefs Hcells Hsized Hdense].
  simpl in *. split; simpl; try assumption.
  - lia.
  - intros k cell Hk. apply Hlimit in Hk. limit_lia.
  - discriminate.
  - intros k r Hk. destruct (Hsized k r Hk) as (n & Hn & Hs). exists n.
    split; [|exact Hs]. limit_lia.
  - intros k Hk. apply Hdense. limit_lia.
Qed.

Lemma invariant_skip cal column_ i j :
  invariant cal0 (mkConfig cal column_ (AtFor i)) ->
  invariant cal0 (mkConfig cal column_ (AtFor j)).
Proof.
  intros [Hcol Hw Hlen Htimes Hlimit Hopen Hfield Hnd Hunpl Hrefs Hcells Hsized Hdense].
  simpl in *. split; simpl; try assumption.
  intros _ _. apply (Hopen i). reflexivity.
Qed.

Lemma invariant_place cal column_ i event cal' :
  invariant cal0 (mkConfig cal column_ (AtFor i)) ->
  events cal !! i = Some event ->
  getCollidingEvents cal event column_ = Ok [] ->
  place cal i event column_ = Ok cal' ->
  invariant cal0 (mkConfig cal' column_ (AtFor i)).
Proof.
  intros [Hcol Hw Hlen Htimes Hlimit Hopen Hfield Hnd Hunpl Hrefs Hcells Hsized Hdense] Hi Hnil Hplace.
  simpl in *.
  apply getCollidingEvents_nil in Hnil as (cell0 & _ & Hcell0 & Hfree).
  apply place_spec in Hplace
    as (cell & Hcell & Hev & Hec & Hw' & Hlen' & Htimes' & Hcol' & Hcolev & Hgeo & Hsz).
  rewrite Hcell in Hcell0. injection Hcell0 as <-.
  assert (Hevin : event ∈ events cal) by (eapply list_elem_of_lookup_2, Hi).
  assert (Hvalid : event < length (objects cal)) by (apply Hrefs; left; exact Hevin).
  assert (Hnotpl : ~ placed cal event) by (apply Hunpl, Hevin).
  assert (Hin : forall k r,
             in_cell cal' k r <-> in_cell cal k r \/ (k = column_ - 1 /\ r = event)).
  { intros k r. eapply in_cell_push; eassumption. }
  assert (Hpl : forall r, placed cal' r <-> placed cal r \/ r = event).
  { intros r. unfold placed. split.
    - intros [k Hk]. apply Hin in Hk as [Hk|[_ ->]]; eauto.
    - intros [[k Hk]| ->].
      + exists k. apply Hin. left. exact Hk.
      + exists (column_ - 1). apply Hin. right. auto. }
  assert (Hcoll : forall a b,
             checkCollision (deref cal' a) (deref cal' b)
             = checkCollision (deref cal a) (deref cal b)).
  { intros a b. apply checkCollision_times; apply Htimes'. }
  destruct (NoDup_delete_at _ _ _ Hnd Hi) as [Hnd' Hgone].
  split; simpl.
  - exact Hcol.
  - congruence.
  - congruence.
  - intros r. destruct (Htimes r), (Htimes' r). split; congruence.
  - intros k cell' Hk. unfold cells_limit. simpl. rewrite Hec in Hk.
    apply lookup_insert_Some in Hk as [[<- _]|[_ Hk]]; [lia|].
    apply Hlimit in Hk. exact Hk.
  - intros _ _. rewrite Hec, lookup_insert_eq. eauto.
  - intros k r Hk. apply Hin in Hk as [Hk|[-> ->]].
    + rewrite Hcol'; [apply (Hfield k r Hk)|].
      intros ->. apply Hnotpl. exists k. exact Hk.
    + rewrite (Hcolev Hvalid). lia.
  - rewrite Hev. exact Hnd'.
  - intros r Hr Hp. rewrite Hev in Hr. apply Hpl in Hp as [Hp| ->].
    + apply (Hunpl r); [|exact Hp]. eapply list_elem_of_delete_inv, Hr.
    + contradiction.
  - intros r. rewrite Hlen', <- Hrefs, Hpl, Hev. split.
    + intros [Hr|[Hp| ->]]; auto. left. eapply list_elem_of_delete_inv, Hr.
    + intros [Hr|Hp]; auto.
      destruct (decide (r = event)) as [->|Hne]; auto.
      left. eapply elem_of_delete_at; eassumption.
  - intros k cell' Hk. rewrite Hec in Hk.
    apply lookup_insert_Some in Hk as [[<- <-]|[_ Hk]].
    + destruct (Hcells _ _ Hcell) as [Hndc Hpair]. split.
      * apply NoDup_app. split; [exact Hndc|]. split; [|apply NoDup_singleton].
        intros x Hx Hx'. apply list_elem_of_singleton in Hx' as ->.
        apply Hnotpl. exists (column_ - 1), cell. auto.
      * intros a b Ha Hb Hab. rewrite Hcoll.
        apply elem_of_app in Ha as [Ha|Ha]; apply elem_of_app in Hb as [Hb|Hb].
        -- apply Hpair; assumption.
        -- apply list_elem_of_singleton in Hb as ->.
           rewrite checkCollision_sym. apply Hfree, Ha.
        -- apply list_elem_of_singleton in Ha as ->. apply Hfree, Hb.
        -- apply list_elem_of_singleton in Ha as ->.
           apply list_elem_of_singleton in Hb as ->. contradiction.
    + destruct (Hcells _ _ Hk) as [Hndc Hpair]. split; [exact Hndc|].
      intros a b Ha Hb Hab. rewrite Hcoll. apply Hpair; assumption.
  - intros k r Hk. rewrite Hw'.
    assert (Hklim : S k <= column_).
    { apply Hin in Hk as [(c & Hc & _)|[-> _]]; [|lia].
      apply Hlimit in Hc. exact Hc. }
    destruct (decide (r = event)) as [->|Hne].
    + exists column_. unfold cells_limit. simpl. split; [lia|]. apply Hsz, Hvalid.
    + destruct (Hgeo r) as [Hsame|Hs].
      * apply Hin in Hk as [Hk|[_ ->]]; [|contradiction].
        destruct (Hsized k r Hk) as (n & Hn & Hs). exists n. split; [exact Hn|].
        eapply sized_same; [exact Hsame | apply Hcol', Hne | exact Hs].
      * exists column_. unfold cells_limit. simpl. split; [lia|exact Hs].
  - intros k Hk. rewrite Hec.
    destruct (decide (column_ - 1 = k)) as [<-|Hne].
    + rewrite lookup_insert_eq. eauto.
    + rewrite lookup_insert_ne by exact Hne. apply Hdense, Hk.
Qed.

Lemma step_invariant c c' :
  invariant cal0 c -> step c = Next c' -> invariant cal0 c'.
Proof.
  destruct c as [cal column_ [|i]]; unfold step; simpl; intros Hinv.
  - destruct (events cal); [discriminate|]. intros [= <-].
    apply invariant_open, Hinv.
  - destruct (events cal !! i) as [event|] eqn:Hi.
    + destruct (getCollidingEvents cal event column_) as [[|x xs]|] eqn:Hg;
        [|intros [= <-]; eapply invariant_skip, Hinv|discriminate].
      destruct (place cal i event column_) as [cal'|] eqn:Hp; [|discriminate].
      intros [= <-]. eapply invariant_place; eassumption.
    + intros [= <-]. eapply invariant_close, Hinv.
Qed.

Lemma config_at_invariant n : forall c c',
  invariant cal0 c -> config_at n c = Some c' -> invariant cal0 c'.
Proof.
  induction n as [|n IH]; intros c c' Hinv; simpl.
  - intros [= <-]. exact Hinv.
  - destruct (step c) as [c1| |] eqn:Hs; try discriminate.
    apply IH. eapply step_invariant; eassumption.
Qed.

End Preservation.

(** ** The start of a run *)

Lemma insert_by_perm cmp x l : insert_by cmp x l ≡ₚ x :: l.
Proof.
  induction l as [|y l IH]; simpl; [reflexivity|].
  destruct (cmp x y >? 0)%Z; [|reflexivity].
  rewrite IH. apply Permutation_swap.
Qed.

Lemma sort_by_perm cmp l : sort_by cmp l ≡ₚ l.
Proof.
  induction l as [|x l IH]; simpl; [reflexivity|].
  rewrite insert_by_perm. now rewrite IH.
Qed.

Lemma start_of_events raws : events (start_of raws) ≡ₚ seq 0 (length raws).
Proof. unfold start_of, sortEvents. simpl. apply sort_by_perm. Qed.

Lemma start_of_objects raws : objects (start_of raws) = map (newEvent 600) raws.
Proof. reflexivity. Qed.

Lemma invariant_initial raws : invariant (start_of raws) (initial (start_of raws)).
Proof.
  pose proof (start_of_events raws) as Hperm.
  assert (Hlen : length (objects (start_of raws)) = length raws).
  { rewrite start_of_objects. apply length_map. }
  assert (Hnopl : forall r, ~ placed (start_of raws) r).
  { intros r (k & cell & Hk & _). simpl in Hk. now rewrite lookup_empty in Hk. }
  split; unfold initial; cbn [cfg_cal cfg_column cfg_point].
  - lia.
  - reflexivity.
  - reflexivity.
  - intros r. split; reflexivity.
  - intros k cell Hk. simpl in Hk. now rewrite lookup_empty in Hk.
  - discriminate.
  - intros k r Hk. exfalso. apply (Hnopl r). exists k. exact Hk.
  - rewrite Hperm. apply NoDup_seq.
  - intros r _. apply Hnopl.
  - intros r. rewrite Hlen, Hperm, elem_of_seq. split.
    + intros [Hr|Hp]; [lia|]. exfalso. exact (Hnopl r Hp).
    + intros Hr. left. lia.
  - intros k cell Hk. simpl in Hk. now rewrite lookup_empty in Hk.
  - intros k r Hk. exfalso. apply (Hnopl r). exists k. exact Hk.
  - unfold cells_limit. simpl. intros k Hk. lia.
Qed.

(** ** Runs and the points they pass *)

Lemma run_returns fuel : forall c cal,
  run fuel c = Some (Ok cal) ->
  exists n c', config_at n c = Some c' /\ step c' = Return cal.
Proof.
  induction fuel as [|fuel IH]; intros c cal; simpl; [discriminate|].
  destruct (step c) as [c1|cal1|] eqn:Hs.
  - intros Hr. destruct (IH _ _ Hr) as (n & c' & Hn & Hc').
    exists (S n), c'. simpl. rewrite Hs. auto.
  - intros [= <-]. exists 0, c. auto.
  - discriminate.
Qed.

Lemma step_return c cal :
  step c = Return cal -> cal = cfg_cal c /\ cfg_point c = AtWhile /\ events cal = [].
Proof.
  destruct c as [cal1 column_ [|i]]; unfold step; simpl.
  - destruct (events cal1) eqn:He; [|discriminate]. intros [= <-]. auto.
  - destruct (events cal1 !! i); [|discriminate].
    destruct (getCollidingEvents _ _ _) as [[|]|]; try discriminate.
    destruct (place _ _ _ _); discriminate.
Qed.

Lemma run_more fuel : forall c r fuel',
  run fuel c = Some r -> fuel <= fuel' -> run fuel' c = Some r.
Proof.
  induction fuel as [|fuel IH]; intros c r fuel'; simpl; [discriminate|].
  intros Hr Hle. destruct fuel' as [|fuel']; [lia|]. simpl.
  destruct (step c); [|exact Hr..]. apply IH; [exact Hr|lia].
Qed.

(** ** Termination: a measure that every transition decreases *)

Lemma steps_bound_mono n m : n <= m -> steps_bound n <= steps_bound m.
Proof. unfold steps_bound. nia. Qed.

Lemma steps_bound_pred n : 1 <= n -> n + 2 + steps_bound (n - 1) <= steps_bound n.
Proof.
  intros Hn. unfold steps_bound. destruct n as [|n]; [lia|].
  replace (S n - 1) with n by lia. nia.
Qed.

Lemma steps_left_pos c : 1 <= steps_left c.
Proof.
  unfold steps_left, steps_bound. destruct (cfg_point c); [lia|].
  destruct (fresh_column c); lia.
Qed.

Lemma length_delete_lookup {A} (l : list A) i x :
  l !! i = Some x -> S (length (delete i l)) = length l.
Proof.
  intros Hi. destruct (delete_middle l i x Hi) as (l1 & l2 & -> & ->).
  rewrite !length_app. simpl. lia.
Qed.

Lemma getCollidingEvents_empty_cell cal event column_ :
  1 <= column_ ->
  events_calculated cal !! (column_ - 1) = Some [] ->
  getCollidingEvents cal event column_ = Ok [].
Proof.
  intros Hc Hcell. unfold getCollidingEvents. destruct column_ as [|k]; [lia|].
  replace (S k - 1) with k in Hcell by lia. rewrite Hcell. reflexivity.
Qed.

Lemma place_not_fresh cal i event column_ cal' j :
  place cal i event column_ = Ok cal' ->
  fresh_column (mkConfig cal' column_ (AtFor j)) = false.
Proof.
  intros Hp. apply place_spec in Hp as (cell & _ & _ & Hec & _).
  unfold fresh_column. simpl. rewrite Hec, lookup_insert_eq.
  destruct j; [|reflexivity]. destruct (events cal'); [reflexivity|].
  destruct cell; reflexivity.
Qed.

Lemma place_length cal i event column_ cal' :
  events cal !! i = Some event ->
  place cal i event column_ = Ok cal' ->
  S (length (events cal')) = length (events cal).
Proof.
  intros Hi Hp. apply place_spec in Hp as (cell & _ & Hev & _).
  rewrite Hev. eapply length_delete_lookup, Hi.
Qed.

Lemma step_decreases c c' : step c = Next c' -> steps_left c' < steps_left c.
Proof.
  destruct c as [cal column_ [|i]]; unfold step; simpl.
  - destruct (events cal) as [|e rest] eqn:He; [discriminate|]. intros [= <-].
    unfold steps_left, fresh_column. simpl. rewrite lookup_insert_eq, He. simpl.
    pose proof (steps_bound_pred (S (length rest)) ltac:(lia)) as Hb.
    replace (S (length rest) - 1) with (length rest) in Hb by lia.
    rewrite Nat.sub_0_r.
    generalize dependent (steps_bound (S (length rest))).
    generalize (steps_bound (length rest)). intros; lia.
  - destruct (events cal !! i) as [event|] eqn:Hi.
    + pose proof (lookup_lt_Some _ _ _ Hi) as Hlt.
      destruct (getCollidingEvents cal event column_) as [[|x xs]|] eqn:Hg;
        [| |discriminate].
      * destruct (place cal i event column_) as [cal'|] eqn:Hp; [|discriminate].
        intros [= <-]. unfold steps_left at 1. cbn [cfg_point cfg_cal].
        rewrite (place_not_fresh _ _ _ _ _ i Hp).
        pose proof (place_length _ _ _ _ _ Hi Hp) as Hlen.
        unfold steps_left. cbn [cfg_point cfg_cal].
        pose proof (steps_bound_mono (length (events cal')) (length (events cal))) as Hm.
        destruct (fresh_column (mkConfig cal column_ (AtFor i))) eqn:Hf.
        -- unfold fresh_column in Hf. simpl in Hf. destruct i; [|discriminate].
           replace (length (events cal) - 1) with (length (events cal')) by lia. lia.
        -- lia.
      * intros [= <-]. unfold steps_left. cbn [cfg_point cfg_cal].
        assert (Hnf : fresh_column (mkConfig cal column_ (AtFor (S i))) = false)
          by reflexivity.
        rewrite Hnf.
        destruct (fresh_column (mkConfig cal column_ (AtFor i))) eqn:Hf; [|lia].
        exfalso. unfold fresh_column in Hf. simpl in Hf. destruct i; [|discriminate].
        destruct (events cal); [discriminate|].
        destruct (events_calculated cal !! (column_ - 1)) as [[|]|] eqn:Hc; try discriminate.
        unfold getCollidingEvents in Hg. destruct column_ as [|k]; [discriminate|].
        replace (S k - 1) with k in Hc by lia. rewrite Hc in Hg. discriminate.
    + intros [= <-]. unfold steps_left. cbn [cfg_point cfg_cal].
      apply lookup_ge_None in Hi.
      destruct (fresh_column (mkConfig cal column_ (AtFor i))) eqn:Hf; [|lia].
      unfold fresh_column in Hf. simpl in Hf. destruct i; [|discriminate].
      destruct (events cal); [discriminate|]. simpl in Hi. lia.
Qed.

Lemma run_terminates fuel : forall c,
  steps_left c <= fuel -> exists r, run fuel c = Some r.
Proof.
  induction fuel as [|fuel IH]; intros c Hle.
  - pose proof (steps_left_pos c). lia.
  - simpl. destruct (step c) as [c'|cal|] eqn:Hs; eauto.
    apply IH. apply step_decreases in Hs. lia.
Qed.

Lemma calculateEventPositions_ends cal : exists r, calculateEventPositions cal = Some r.
Proof. unfold calculateEventPositions. apply run_terminates. reflexivity. Qed.

(** ** One pass of the [while] loop *)

Lemma step_column c c' :
  step c = Next c' ->
  cfg_column c <= cfg_column c'
  /\ (cfg_point c' = AtWhile -> cfg_column c < cfg_column c')
  /\ length (events (cfg_cal c')) <= length (events (cfg_cal c)).
Proof.
  destruct c as [cal column_ [|i]]; unfold step; simpl.
  - destruct (events cal) eqn:He; [discriminate|]. intros [= <-]. simpl.
    split; [lia|]. split; [discriminate|rewrite He; reflexivity].
  - destruct (events cal !! i) as [event|] eqn:Hi.
    + destruct (getCollidingEvents cal event column_) as [[|x xs]|]; [| |discriminate].
      * destruct (place cal i event column_) as [cal'|] eqn:Hp; [|discriminate].
        intros [= <-]. simpl. pose proof (place_length _ _ _ _ _ Hi Hp).
        split; [lia|]. split; [discriminate|lia].
      * intros [= <-]. simpl. split; [lia|]. split; [discriminate|lia].
    + intros [= <-]. simpl. split; [lia|]. split; [intros _|]; lia.
Qed.

Lemma config_at_column n : forall c c',
  config_at n c = Some c' ->
  cfg_column c <= cfg_column c'
  /\ (forall i, cfg_point c = AtFor i -> cfg_point c' = AtWhile ->
                cfg_column c < cfg_column c').
Proof.
  induction n as [|n IH]; intros c c'; simpl.
  - intros [= <-]. split; [lia|]. intros i Hf Hw. congruence.
  - destruct (step c) as [c1| |] eqn:Hs; try discriminate.
    intros Hn. destruct (IH _ _ Hn) as [Hle Hlt].
    destruct (step_column _ _ Hs) as (Hle1 & Hlt1 & _).
    split; [lia|]. intros i Hf Hw.
    destruct (cfg_point c1) as [|j] eqn:Hp1.
    + specialize (Hlt1 eq_refl). lia.
    + specialize (Hlt j eq_refl Hw). lia.
Qed.

(** From inside the scan of a column to the next test of the [while] loop:
    no event comes back to [this.events]. *)
Lemma pass_rest n : forall c cal' i,
  cfg_point c = AtFor i ->
  config_at n c = Some (mkConfig cal' (S (cfg_column c)) AtWhile) ->
  length (events cal') <= length (events (cfg_cal c)).
Proof.
  induction n as [|n IH]; intros c cal' i Hpt; simpl.
  - intros [= Hc]. rewrite Hc in Hpt. discriminate.
  - destruct (step c) as [c1| |] eqn:Hs; try discriminate.
    intros Hn. destruct (step_column _ _ Hs) as (Hle1 & Hlt1 & Hlen1).
    destruct (cfg_point c1) as [|j] eqn:Hp1.
    + (* the scan has ended: [c1] is the target itself *)
      specialize (Hlt1 eq_refl).
      destruct n as [|n]; simpl in Hn.
      * injection Hn as ->. exact Hlen1.
      * exfalso. destruct (step c1) as [c2| |] eqn:Hs2; try discriminate.
        destruct (config_at_column _ _ _ Hn) as [Hle2 Hlt2].
        destruct (step_column _ _ Hs2) as (Hle3 & _ & _). simpl in *.
        assert (Hp2 : exists k, cfg_point c2 = AtFor k).
        { destruct c1 as [cal1 col1 pt1]. simpl in Hp1. subst pt1.
          unfold step in Hs2. simpl in Hs2.
          destruct (events cal1); [discriminate|]. injection Hs2 as <-. simpl. eauto. }
        destruct Hp2 as [k Hk]. specialize (Hlt2 k Hk eq_refl). lia.
    + assert (Hcol : cfg_column c1 = cfg_column c).
      { destruct (config_at_column _ _ _ Hn) as [Hle2 Hlt2].
        specialize (Hlt2 j Hp1 eq_refl). simpl in *. lia. }
      rewrite <- Hcol in Hn. specialize (IH _ _ _ Hp1 Hn). lia.
Qed.

(** A whole pass, from one test of the [while] loop to the next, takes the
    first event out of [this.events], and gives none back. *)
Lemma pass_shrinks n cal column_ cal' :
  1 <= column_ ->
  config_at n (mkConfig cal column_ AtWhile) = Some (mkConfig cal' (S column_) AtWhile) ->
  length (events cal') < length (events cal).
Proof.
  intros Hcol. destruct n as [|n]; simpl.
  - intros [= _ Hc]. lia.
  - unfold step at 1. simpl.
    destruct (events cal) as [|event rest] eqn:He; [discriminate|].
    set (cal1 := set_events_calculated cal _).
    destruct n as [|n]; simpl; [discriminate|].
    unfold step at 1. simpl. rewrite He. simpl.
    rewrite getCollidingEvents_empty_cell;
      [|exact Hcol|unfold cal1; simpl; apply lookup_insert_eq].
    destruct (place cal1 0 event column_) as [cal2|] eqn:Hp; [|discriminate].
    intros Hn.
    assert (H0 : events cal1 !! 0 = Some event) by (unfold cal1; simpl; rewrite He; reflexivity).
    pose proof (place_length _ _ _ _ _ H0 Hp) as Hlen.
    apply (pass_rest n (mkConfig cal2 column_ (AtFor 0)) cal' 0 eq_refl) in Hn.
    simpl in *. rewrite He in Hlen. simpl in Hlen. lia.
Qed.

(** ** Events of one column *)

Lemma same_cells_do_not_collide cal0 c :
  invariant cal0 c ->
  forall a b,
    placed (cfg_cal c) a -> placed (cfg_cal c) b -> a <> b ->
    column (deref (cfg_cal c) a) = column (deref (cfg_cal c) b) ->
    checkCollision (deref (cfg_cal c) a) (deref (cfg_cal c) b) = true -> False.
Proof.
  intros Hinv a b [ka Ha] [kb Hb] Hab Hcol Hcoll.
  rewrite (inv_column_field _ _ Hinv ka a Ha), (inv_column_field _ _ Hinv kb b Hb) in Hcol.
  injection Hcol as <-.
  destruct Ha as (cell & Hcell & Hina). destruct Hb as (cell' & Hcell' & Hinb).
  rewrite Hcell in Hcell'. injection Hcell' as <-.
  destruct (inv_cells _ _ Hinv ka cell Hcell) as [_ Hfree].
  rewrite (Hfree a b Hina Hinb Hab) in Hcoll. discriminate.
Qed.

(** ** The final layout *)

Lemma layOutDay_unfold raws :
  layOutDay raws = run (steps_bound (length (events (start_of raws)))) (initial (start_of raws)).
Proof. reflexivity. Qed.

Lemma run_final fuel raws cal :
  run fuel (initial (start_of raws)) = Some (Ok cal) ->
  exists n c,
    config_at n (initial (start_of raws)) = Some c
    /\ cfg_cal c = cal /\ cfg_point c = AtWhile /\ events cal = []
    /\ invariant (start_of raws) c.
Proof.
  intros Hrun. apply run_returns in Hrun as (n & c & Hn & Hret).
  apply step_return in Hret as (-> & Hpt & Hev).
  exists n, c. split; [exact Hn|]. split; [reflexivity|].
  split; [exact Hpt|]. split; [exact Hev|].
  eapply config_at_invariant; [apply invariant_initial | exact Hn].
Qed.

(** In a finished layout every input record has been placed, in the cell of
    its [column], and was sized for some column [n] of the layout that is
    not left of its own. *)
Lemma final_event fuel raws cal r :
  run fuel (initial (start_of raws)) = Some (Ok cal) ->
  r < length raws ->
  exists k n,
    in_cell cal k r
    /\ column (deref cal r) = S k
    /\ S k <= n
    /\ is_Some (events_calculated cal !! (n - 1))
    /\ sized 600 n (deref cal r)
    /\ start (deref cal r) = raw_start (default (raw 0 0) (raws !! r))
    /\ end_ (deref cal r) = raw_end (default (raw 0 0) (raws !! r)).
Proof.
  intros Hrun Hr.
  apply run_final in Hrun as (m & c & _ & <- & Hpt & Hev & Hinv).
  destruct Hinv as [Hcol Hw Hlen Htimes Hlimit _ Hfield _ _ Hrefs _ Hsized Hdense].
  assert (Hlen0 : length (objects (start_of raws)) = length raws).
  { rewrite start_of_objects. apply length_map. }
  assert (Hp : placed (cfg_cal c) r).
  { destruct (proj2 (Hrefs r)) as [Hin|Hp]; [lia| |exact Hp].
    rewrite Hev in Hin. now apply not_elem_of_nil in Hin. }
  destruct Hp as [k Hk]. destruct (Hsized k r Hk) as (n & Hn & Hs).
  exists k, n. split; [exact Hk|]. split; [apply Hfield, Hk|].
  split; [lia|]. split; [apply Hdense; lia|].
  split; [rewrite Hw in Hs; exact Hs|].
  destruct (Htimes r) as [Hs1 Hs2]. rewrite Hs1, Hs2.
  unfold deref. rewrite start_of_objects, list_lookup_fmap.
  destruct (raws !! r) as [x|] eqn:Hx; [split; reflexivity|].
  apply lookup_ge_None in Hx. lia.
Qed.

(** ** The geometry in exact arithmetic *)

Lemma exact_width_spec n :
  1 <= n -> (0 <= exact_width n)%Q /\ (exact_width n * inject_Z (Z.of_nat n) == 600)%Q.
Proof.
  intros Hn. unfold exact_width.
  assert (Hpos : (0 < inject_Z (Z.of_nat n))%Q).
  { change 0%Q with (inject_Z 0). rewrite <- Zlt_Qlt. lia. }
  split.
  - apply Qle_shift_div_l; [exact Hpos|]. lra.
  - field. lra.
Qed.

Lemma exact_contained n col :
  1 <= col <= n ->
  (0 <= exact_left n col)%Q /\ (exact_left n col + exact_width n <= 600)%Q.
Proof.
  intros Hc. destruct (exact_width_spec n ltac:(lia)) as [Hw Hwn].
  unfold exact_left.
  assert (Hcol : (1 <= inject_Z (Z.of_nat col))%Q).
  { change 1%Q with (inject_Z 1). rewrite <- Zle_Qle. lia. }
  assert (Hcn : (inject_Z (Z.of_nat col) <= inject_Z (Z.of_nat n))%Q).
  { rewrite <- Zle_Qle. lia. }
  set (w := exact_width n) in *. set (c := inject_Z (Z.of_nat col)) in *.
  set (m := inject_Z (Z.of_nat n)) in *.
  split; nra.
Qed.

Lemma exact_apart n c1 c2 :
  1 <= c1 -> c1 < c2 -> c2 <= n ->
  (exact_left n c1 + exact_width n <= exact_left n c2)%Q.
Proof.
  intros H1 H12 H2. destruct (exact_width_spec n ltac:(lia)) as [Hw Hwn].
  unfold exact_left.
  assert (Hc : (inject_Z (Z.of_nat c1) + 1 <= inject_Z (Z.of_nat c2))%Q).
  { change 1%Q with (inject_Z 1). rewrite <- inject_Z_plus, <- Zle_Qle. lia. }
  set (w := exact_width n) in *. set (a := inject_Z (Z.of_nat c1)) in *.
  set (b := inject_Z (Z.of_nat c2)) in *.
  nra.
Qed.

(** ** Double-precision geometry for few columns *)

Lemma fits_upto_17 n col : 1 <= col <= n -> n <= 17 -> fits n col = true.
Proof.
  intros Hcol Hn.
  assert (Htable : forallb (fun n => forallb (fits n) (seq 1 n)) (seq 1 17) = true)
    by (vm_compute; reflexivity).
  rewrite forallb_forall in Htable.
  specialize (Htable n). rewrite forallb_forall in Htable.
  apply Htable; apply in_seq; lia.
Qed.

Lemma apart_upto_8 n c1 c2 :
  1 <= c1 <= n -> 1 <= c2 <= n -> c1 <> c2 -> n <= 8 -> apart n c1 c2 = true.
Proof.
  intros H1 H2 Hne Hn.
  assert (Htable :
            forallb (fun n =>
              forallb (fun c1 =>
                forallb (fun c2 => if decide (c1 = c2) then true else apart n c1 c2)
                        (seq 1 n))
                (seq 1 n))
              (seq 1 8) = true)
    by (vm_compute; reflexivity).
  rewrite forallb_forall in Htable. specialize (Htable n).
  rewrite forallb_forall in Htable. specialize (Htable ltac:(apply in_seq; lia) c1).
  rewrite forallb_forall in Htable. specialize (Htable ltac:(apply in_seq; lia) c2).
  specialize (Htable ltac:(apply in_seq; lia)).
  destruct (decide (c1 = c2)); [contradiction|exact Htable].
Qed.

(** * The documented examples *)

(** The call at the end of the script: the first event is alone at full
    width; the other three form one cluster of two columns. *)
Example layOutDay_of_the_script :
  geometry (layOutDay [raw 30 150; raw 540 600; raw 560 620; raw 610 670])
  = Some [(1%nat, 0, 600); (1%nat, 0, 300); (2%nat, 300, 300); (1%nat, 0, 300)]%float.
Proof. vm_compute. reflexivity. Qed.

(** Three events over the same time: three columns of width 200. *)
Example layOutDay_three_alike :
  geometry (layOutDay [raw 0 100; raw 0 100; raw 0 100])
  = Some [(1%nat, 0, 200); (2%nat, 200, 200); (3%nat, 400, 200)]%float.
Proof. vm_compute. reflexivity. Qed.

(** Two events that touch do not collide: both at full width. *)
Example layOutDay_touching :
  geometry (layOutDay [raw 0 60; raw 60 120])
  = Some [(1%nat, 0, 600); (1%nat, 0, 600)]%float.
Proof. vm_compute. reflexivity. Qed.

(** A chain: the first and the third event do not collide but both collide
    with the second; all three end in one cluster. *)
Example layOutDay_chain :
  exists cal,
    layOutDay [raw 0 50; raw 40 100; raw 90 150] = Some (Ok cal)
    /\ collision_clusters cal = [[0; 2; 1]]
    /\ geometry (Some (Ok cal)) = Some [(1%nat, 0, 300); (2%nat, 300, 300); (1%nat, 0, 300)]%float.
Proof. eexists. split; [vm_compute; reflexivity|]. split; vm_compute; reflexivity. Qed.

(** [removeDuplicates] keeps first occurrences, in order. *)
Example removeDuplicates_keeps_first : removeDuplicates [0; 2; 0; 1; 2] = [0; 2; 1].
Proof. reflexivity. Qed.

(** * The claims *)

(** ** C1: colliding events side by side *)

(** C1, as stated, fails: of nine events that all overlap, the ones in
    columns 6 and 7 collide, and the range of the first, [left + width] =
    400.00000000000006, runs past the [left] 400 of the second: 600/9 and
    its multiples are rounded. *)
Lemma nine_columns_ranges_overlap :
  exists cal,
    layOutDay (repeat (raw 0 1) 9) = Some (Ok cal)
    /\ checkCollision (deref cal 5) (deref cal 6) = true
    /\ column (deref cal 5) = 6 /\ column (deref cal 6) = 7
    /\ (left (deref cal 5%nat) + width (deref cal 5%nat))%float = 0x1.9000000000001p+8%float
    /\ left (deref cal 6) = 400%float
    /\ disjoint_ranges (deref cal 5) (deref cal 6) = false.
Proof.
  eexists. split; [vm_compute; reflexivity|].
  repeat split; vm_compute; reflexivity.
Qed.

(** The amended claim is proved in the last part of the file, from the
    invariant of the clusters. *)

(** ** C2: containment *)

(** C2, as stated, fails: eighteen events that all overlap get eighteen
    columns, and for the last one [left + width] is 600.00000000000011
    (0x1.2c00000000001p+9) in the double-precision arithmetic of the script,
    more than the width 600 of the calendar. *)
Lemma eighteen_columns_exceed_calendar_width :
  exists cal,
    layOutDay (repeat (raw 0 1) 18) = Some (Ok cal)
    /\ column (deref cal 17) = 18
    /\ (left (deref cal 17%nat) + width (deref cal 17%nat))%float
       = 0x1.2c00000000001p+9%float
    /\ (left (deref cal 17%nat) + width (deref cal 17%nat) <=? cal_width cal)%float = false.
Proof.
  eexists. split; [vm_compute; reflexivity|].
  split; [reflexivity|]. split; vm_compute; reflexivity.
Qed.

(** C2, amended.  In a finished layout every input record lies in the cell of
    its [column]; its [width] is 600 divided by [n] and its [left] is that
    width times [column - 1], for a column [n] of the layout with
    [column <= n].  So [0 <= left] and [left + width <= 600] in exact
    arithmetic; in the doubles of the script both hold when [n <= 17]. *)
Theorem final_layout_contained raws cal r :
  layOutDay raws = Some (Ok cal) ->
  r < length raws ->
  exists k n,
    in_cell cal k r
    /\ column (deref cal r) = S k
    /\ column (deref cal r) <= n
    /\ is_Some (events_calculated cal !! (n - 1))
    /\ width (deref cal r) = (600 / num_of_nat n)%float
    /\ left (deref cal r) = (width (deref cal r) * (num_of_nat (column (deref cal r)) - 1))%float
    /\ (0 <= exact_left n (column (deref cal r)))%Q
    /\ (exact_left n (column (deref cal r)) + exact_width n <= 600)%Q
    /\ (n <= 17 ->
        (0 <=? left (deref cal r))%float = true
        /\ (left (deref cal r) + width (deref cal r) <=? 600)%float = true).
Proof.
  intros Hrun Hr.
  destruct (final_event _ _ _ _ Hrun Hr) as (k & n & Hk & Hcol & Hn & Hcell & [Hw Hl] & _).
  exists k, n.
  split; [exact Hk|]. split; [exact Hcol|]. split; [lia|]. split; [exact Hcell|].
  split; [exact Hw|]. split; [exact Hl|].
  destruct (exact_contained n (S k) ltac:(lia)) as [Hx0 Hx1]. rewrite Hcol.
  split; [exact Hx0|]. split; [exact Hx1|].
  intros Hn17. pose proof (fits_upto_17 n (S k) ltac:(lia) Hn17) as Hfit.
  unfold fits in Hfit. rewrite <- Hcol, <- Hw, <- Hl in Hfit.
  apply andb_true_iff in Hfit. exact Hfit.
Qed.

Lemma final_layout_contained_witness :
  let raws := [raw 30 150; raw 540 600; raw 560 620; raw 610 670] in
  let cal := match layOutDay raws with Some (Ok cal) => cal | _ => newCalendar [] end in
  exists k n,
    in_cell cal k 2
    /\ column (deref cal 2) = S k
    /\ column (deref cal 2) <= n
    /\ is_Some (events_calculated cal !! (n - 1))
    /\ width (deref cal 2) = (600 / num_of_nat n)%float
    /\ left (deref cal 2)
       = (width (deref cal 2%nat) * (num_of_nat (column (deref cal 2%nat)) - 1))%float
    /\ (0 <= exact_left n (column (deref cal 2%nat)))%Q
    /\ (exact_left n (column (deref cal 2%nat)) + exact_width n <= 600)%Q
    /\ (n <= 17 ->
        (0 <=? left (deref cal 2%nat))%float = true
        /\ (left (deref cal 2%nat) + width (deref cal 2%nat) <=? 600)%float = true).
Proof.
  intros raws cal.
  apply (final_layout_contained raws cal 2); [vm_compute; reflexivity | simpl; lia].
Defined.

(** ** C3: the collision predicate *)

(** C3.  For two intervals with [start < end], [checkCollision] holds exactly
    when [a.start < b.end] and [b.start < a.end]; it is symmetric; and two
    intervals that touch ([a.end = b.start]) do not collide. *)
Theorem checkCollision_overlap (a b : Event) :
  (start a < end_ a)%Z ->
  (start b < end_ b)%Z ->
  (checkCollision a b = true <-> (start a < end_ b)%Z /\ (start b < end_ a)%Z)
  /\ checkCollision a b = checkCollision b a
  /\ (end_ a = start b -> checkCollision a b = false).
Proof.
  intros Ha Hb.
  assert (Hiff : checkCollision a b = true
                 <-> (start a < end_ b)%Z /\ (start b < end_ a)%Z).
  { unfold checkCollision.
    rewrite !orb_true_iff, !andb_true_iff, !Z.leb_le, !Z.ltb_lt. lia. }
  split; [exact Hiff|]. split; [apply checkCollision_sym|].
  intros Htouch. destruct Hiff as [Hcoll _].
  destruct (checkCollision a b); [|reflexivity].
  specialize (Hcoll eq_refl). lia.
Qed.

Lemma checkCollision_overlap_witness :
  let a := newEvent 600 (raw 0 60) in
  let b := newEvent 600 (raw 60 120) in
  (checkCollision a b = true <-> (start a < end_ b)%Z /\ (start b < end_ a)%Z)
  /\ checkCollision a b = checkCollision b a
  /\ (end_ a = start b -> checkCollision a b = false).
Proof.
  intros a b. apply (checkCollision_overlap a b); reflexivity.
Defined.

(** ** C4: the width of a cluster *)

(** C4, at [eight_events]: the code departs from the claim.  When event 2
    (0-3) is placed, the clusters to merge are found in the order 0, 2, 1;
    after the splice at index 1 the splice at index 2 removes, instead of the
    merged cluster, the cluster of event 7 (3-4).  Event 6
    (2-4) is then placed in column 4 and collides with event 7, which is in
    no cluster any more and is not resized: it keeps [width] 600 and [left]
    0, while the largest column among the events connected to it is 4 and
    600/4 = 150.  Its range covers that of event 6, [450, 600). *)
Theorem width_not_cluster_width_at_eight_events :
  exists cal,
    layOutDay eight_events = Some (Ok cal)
    /\ checkCollision (deref cal 6) (deref cal 7) = true
    /\ column (deref cal 6) = 4
    /\ column (deref cal 7) = 1
    /\ (left (deref cal 6), width (deref cal 6)) = (450%float, 150%float)
    /\ (left (deref cal 7), width (deref cal 7)) = (0%float, 600%float)
    /\ (600 / num_of_nat 4)%float = 150%float
    /\ disjoint_ranges (deref cal 6) (deref cal 7) = false
    /\ collision_clusters cal = [[0; 1; 4; 5; 3; 2; 4; 5; 6]].
Proof.
  eexists. split; [vm_compute; reflexivity|].
  repeat split; vm_compute; reflexivity.
Qed.

(** The same fault can end a layout of valid records in a [TypeError]: here
    the last event collides only with two events whose cluster has been
    spliced away, the merge list is empty, and
    [this.collision_clusters[undefined].push] throws. *)
Example layOutDay_may_throw :
  layOutDay [raw 0 1; raw 0 1; raw 0 5; raw 1 3; raw 3 5; raw 4 5; raw 5 6; raw 5 6; raw 5 6]
  = Some Throw.
Proof. vm_compute. reflexivity. Qed.

(** ** C5: the clusters are a partition *)

(** C5, at [six_events]: the code departs from the claim.  Event 2 (0-3) is
    placed in column 3 and collides with all five others, whose clusters are
    found in the order 0, 2, 1.  The clusters 2 and 1 are appended to cluster
    0, then index 1 is spliced out, which moves cluster 2 to index 1, and the
    splice at index 2 removes nothing.  Events 4 and 5 end in two clusters:
    the clusters are not disjoint. *)
Theorem clusters_not_disjoint_at_six_events :
  exists cal,
    layOutDay six_events = Some (Ok cal)
    /\ collision_clusters cal = [[0; 1; 4; 5; 3; 2]; [4; 5]]
    /\ collisions (deref cal 2) = [1; 5; 0; 3; 4].
Proof. eexists. split; [vm_compute; reflexivity|]. split; reflexivity. Qed.

(** ** C6: termination *)

(** C6.  [calculateEventPositions] ends on every calendar, and so does
    [layOutDay] on every input: within [steps_bound n] transitions for [n]
    events it has returned or thrown.  The reason is the one the claim gives:
    the first remaining event never collides with the column that has just
    been emptied, and every pass of the [while] loop, from one test to the
    next, leaves strictly fewer events in [this.events]. *)
Theorem calculateEventPositions_terminates :
  (forall cal, exists r, calculateEventPositions cal = Some r)
  /\ (forall raws, exists r, layOutDay raws = Some r)
  /\ (forall cal column_ event rest,
         1 <= column_ ->
         events cal = event :: rest ->
         getCollidingEvents
           (set_events_calculated cal (<[column_ - 1 := []]> (events_calculated cal)))
           event column_ = Ok [])
  /\ (forall n cal column_ cal',
         1 <= column_ ->
         config_at n (mkConfig cal column_ AtWhile) = Some (mkConfig cal' (S column_) AtWhile) ->
         length (events cal') < length (events cal)).
Proof.
  split; [exact calculateEventPositions_ends|].
  split; [intros raws; apply calculateEventPositions_ends|].
  split.
  - intros cal column_ event rest Hc _.
    apply getCollidingEvents_empty_cell; [exact Hc|]. simpl. apply lookup_insert_eq.
  - intros n cal column_ cal' Hc Hn. eapply pass_shrinks; eassumption.
Qed.

Lemma calculateEventPositions_terminates_witness :
  let cal := start_of [raw 30 150; raw 540 600; raw 560 620; raw 610 670] in
  let cal' := cfg_cal (default (initial cal) (config_at 6 (initial cal))) in
  length (events cal') < length (events cal).
Proof.
  intros cal cal'.
  apply (proj2 (proj2 (proj2 calculateEventPositions_terminates)) 6 cal 1 cal');
    [lia | vm_compute; reflexivity].
Defined.

(** ** C7: determinism *)

(** Two runs of the layout on the same input that both end, whatever the
    number of transitions each was allowed, end alike, and as [layOutDay]
    does.  That two runs agree whatever the sort of each does with records
    that compare equal is proved in the last part of the file. *)
Lemma layOutDay_within_any_fuel raws fuel1 fuel2 r1 r2 :
  layOutDay_within fuel1 raws = Some r1 ->
  layOutDay_within fuel2 raws = Some r2 ->
  r1 = r2 /\ layOutDay raws = Some r1.
Proof.
  unfold layOutDay_within. fold (start_of raws). intros H1 H2. split.
  - pose proof (run_more _ _ _ (Nat.max fuel1 fuel2) H1 (Nat.le_max_l _ _)) as H1'.
    pose proof (run_more _ _ _ (Nat.max fuel1 fuel2) H2 (Nat.le_max_r _ _)) as H2'.
    congruence.
  - destruct (calculateEventPositions_ends (start_of raws)) as [r Hr].
    unfold layOutDay. fold (start_of raws). rewrite Hr.
    unfold calculateEventPositions in Hr.
    pose proof (run_more _ _ _ (Nat.max fuel1 (steps_bound (length (events (start_of raws)))))
                  H1 (Nat.le_max_l _ _)) as H1'.
    pose proof (run_more _ _ _ (Nat.max fuel1 (steps_bound (length (events (start_of raws)))))
                  Hr (Nat.le_max_r _ _)) as Hr'.
    congruence.
Qed.

(** ** C8: a malformed record *)

(** C8, as stated, fails: the record [{start: 100, end: 50}] is not rejected.
    The run ends normally and has placed it in column 1 at full width. *)
Lemma layOutDay_accepts_reversed_record :
  exists cal,
    layOutDay [raw 100 50] = Some (Ok cal)
    /\ events_calculated cal !! 0 = Some [0]
    /\ deref cal 0 = mkEvent 100 50 0 600 [] 1.
Proof. eexists. split; [vm_compute; reflexivity|]. split; reflexivity. Qed.

(** C8, amended.  Nothing validates a record: the constructor copies [start]
    and [end] as they are, and a lone record with [start >= end] is laid out
    like any other, in column 1, at [left] 0 and the full width. *)
Theorem layOutDay_does_not_validate (s e : Z) :
  (s >= e)%Z ->
  exists cal,
    layOutDay [raw s e] = Some (Ok cal)
    /\ events_calculated cal !! 0 = Some [0]
    /\ events cal = []
    /\ deref cal 0 = mkEvent s e 0 600 [] 1.
Proof.
  intros _. eexists. split; [vm_compute; reflexivity|].
  split; [reflexivity|]. split; reflexivity.
Qed.

Lemma layOutDay_does_not_validate_witness :
  exists cal,
    layOutDay [raw 100 50] = Some (Ok cal)
    /\ events_calculated cal !! 0 = Some [0]
    /\ events cal = []
    /\ deref cal 0 = mkEvent 100 50 0 600 [] 1.
Proof. apply (layOutDay_does_not_validate 100 50). lia. Defined.

(** ** C9: querying a column of the collision index *)

(** C9, as stated, fails: on a calendar that has not begun its layout no
    event has been placed in column 1, yet the query throws, because the cell
    of the column does not exist. *)
Lemma getCollidingEvents_throws_without_cell :
  let cal := start_of [raw 0 60; raw 60 120] in
  (forall r, ~ in_cell cal (1 - 1) r)
  /\ getCollidingEvents cal 0 1 = Throw.
Proof.
  intros cal. split; [|reflexivity].
  intros r (cell & Hcell & _). discriminate Hcell.
Qed.

(** C9, amended.  For a column [>= 1] whose cell exists and is empty, the
    query returns the empty list, for every candidate; for a column whose
    cell does not exist it throws.  During a layout the cell of the column
    being scanned always exists, so the query of the loop never throws. *)
Theorem getCollidingEvents_empty_column :
  (forall cal event column_,
      1 <= column_ ->
      (events_calculated cal !! (column_ - 1) = Some [] ->
       getCollidingEvents cal event column_ = Ok [])
      /\ (events_calculated cal !! (column_ - 1) = None ->
          getCollidingEvents cal event column_ = Throw))
  /\ (forall raws n c i event,
         config_at n (initial (start_of raws)) = Some c ->
         cfg_point c = AtFor i ->
         exists colliding_events,
           getCollidingEvents (cfg_cal c) event (cfg_column c) = Ok colliding_events).
Proof.
  split.
  - intros cal event column_ Hc. split.
    + apply getCollidingEvents_empty_cell, Hc.
    + intros Hnone. unfold getCollidingEvents. destruct column_ as [|k]; [lia|].
      replace (S k - 1) with k in Hnone by lia. rewrite Hnone. reflexivity.
  - intros raws n c i event Hn Hpt.
    pose proof (config_at_invariant _ _ _ _ (invariant_initial raws) Hn) as Hinv.
    destruct (inv_open _ _ Hinv i Hpt) as [cell Hcell].
    pose proof (inv_column _ _ Hinv) as Hcol.
    unfold getCollidingEvents. destruct (cfg_column c) as [|k]; [lia|].
    replace (S k - 1) with k in Hcell by lia. rewrite Hcell. eauto.
Qed.

Lemma getCollidingEvents_empty_column_witness :
  let cal := set_events_calculated (start_of [raw 0 60; raw 60 120]) {[ 0 := [] ]} in
  getCollidingEvents cal 1 1 = Ok [].
Proof.
  intros cal.
  apply (proj1 getCollidingEvents_empty_column cal 1 1); [lia | reflexivity].
Defined.

(** ** C10: the events of one column *)

(** C10.  At every point of a layout run, for every input, no cell of
    [events_calculated] holds an event twice and no two events of a cell
    collide; as an event's [column] is the column of its cell, no two placed
    events with the same [column] collide. *)
Theorem same_column_never_collides raws n c :
  config_at n (initial (start_of raws)) = Some c ->
  (forall k cell,
      events_calculated (cfg_cal c) !! k = Some cell ->
      collision_free (cfg_cal c) cell)
  /\ (forall a b,
         placed (cfg_cal c) a -> placed (cfg_cal c) b -> a <> b ->
         column (deref (cfg_cal c) a) = column (deref (cfg_cal c) b) ->
         checkCollision (deref (cfg_cal c) a) (deref (cfg_cal c) b) = false).
Proof.
  intros Hn.
  pose proof (config_at_invariant _ _ _ _ (invariant_initial raws) Hn) as Hinv.
  split; [exact (inv_cells _ _ Hinv)|].
  intros a b Ha Hb Hab Hcol.
  destruct (checkCollision _ _) eqn:Hcoll; [|reflexivity].
  destruct (same_cells_do_not_collide _ _ Hinv a b Ha Hb Hab Hcol Hcoll).
Qed.

Lemma same_column_never_collides_witness :
  let raws := [raw 30 150; raw 540 600; raw 560 620; raw 610 670] in
  let c := default (initial (start_of raws)) (config_at 6 (initial (start_of raws))) in
  (forall k cell,
      events_calculated (cfg_cal c) !! k = Some cell ->
      collision_free (cfg_cal c) cell)
  /\ (forall a b,
         placed (cfg_cal c) a -> placed (cfg_cal c) b -> a <> b ->
         column (deref (cfg_cal c) a) = column (deref (cfg_cal c) b) ->
         checkCollision (deref (cfg_cal c) a) (deref (cfg_cal c) b) = false).
Proof.
  intros raws c.
  apply (same_column_never_collides raws 6 c). vm_compute. reflexivity.
Defined.

(** * Further properties of the code *)

(** ** [removeDuplicates] *)

Lemma inArray_from_app_new i x pre rest :
  x ∉ pre -> inArray_from i x (pre ++ x :: rest) = Z.of_nat (i + length pre).
Proof.
  revert i. induction pre as [|y pre IH]; intros i Hx; simpl.
  - rewrite decide_True by reflexivity. f_equal. lia.
  - apply not_elem_of_cons in Hx as [Hne Hx].
    rewrite decide_False by exact Hne. rewrite (IH (S i) Hx). f_equal. lia.
Qed.

Lemma inArray_from_app_old i x pre rest :
  x ∈ pre ->
  (Z.of_nat i <= inArray_from i x (pre ++ rest) < Z.of_nat (i + length pre))%Z.
Proof.
  revert i. induction pre as [|y pre IH]; intros i Hx; simpl.
  - now apply not_elem_of_nil in Hx.
  - destruct (decide (x = y)) as [_|Hne]; [lia|].
    apply elem_of_cons in Hx as [?|Hx]; [contradiction|].
    specialize (IH (S i) Hx). lia.
Qed.

Lemma grep_from_keep_first pre rest :
  grep_from (length pre)
            (fun element index => (inArray element (pre ++ rest) =? Z.of_nat index)%Z)
            rest
  = keep_first pre rest.
Proof.
  revert pre. induction rest as [|x rest IH]; intros pre; [reflexivity|].
  simpl. specialize (IH (pre ++ [x])).
  rewrite length_app, <- app_assoc in IH. simpl in IH.
  replace (length pre + 1) with (S (length pre)) in IH by lia.
  unfold inArray. destruct (decide (x ∈ pre)) as [Hin|Hnot].
  - pose proof (inArray_from_app_old 0 x pre (x :: rest) Hin) as Hlt.
    destruct (Z.eqb_spec (inArray_from 0 x (pre ++ x :: rest)) (Z.of_nat (length pre)));
      [simpl in Hlt; lia|].
    exact IH.
  - rewrite (inArray_from_app_new 0 x pre rest Hnot). simpl.
    rewrite Z.eqb_refl. f_equal. exact IH.
Qed.

Lemma removeDuplicates_keep_first l : removeDuplicates l = keep_first [] l.
Proof. exact (grep_from_keep_first [] l). Qed.

Lemma keep_first_elem_of l : forall seen x,
  x ∈ keep_first seen l <-> x ∈ l /\ x ∉ seen.
Proof.
  induction l as [|y l IH]; intros seen x; simpl.
  - split; [intros H; now apply not_elem_of_nil in H|intros [H _]; exact H].
  - destruct (decide (y ∈ seen)) as [Hin|Hnot].
    + rewrite IH, elem_of_cons, not_elem_of_app, list_elem_of_singleton.
      split.
      * intros (Hx & Hs & Hne). auto.
      * intros ([->|Hx] & Hs); [contradiction|].
        split; [exact Hx|]. split; [exact Hs|]. intros ->. contradiction.
    + rewrite !elem_of_cons, IH, not_elem_of_app, list_elem_of_singleton.
      split.
      * intros [->|(Hx & Hs & Hne)]; auto.
      * intros ([->|Hx] & Hs); [auto|].
        destruct (decide (x = y)) as [->|Hne]; auto.
Qed.

Lemma keep_first_NoDup l : forall seen, NoDup (keep_first seen l).
Proof.
  induction l as [|y l IH]; intros seen; simpl; [constructor|].
  destruct (decide (y ∈ seen)); [apply IH|].
  apply NoDup_cons. split; [|apply IH].
  rewrite keep_first_elem_of, not_elem_of_app, list_elem_of_singleton.
  intros (_ & _ & Hne). now apply Hne.
Qed.

Lemma keep_first_sublist l : forall seen, sublist (keep_first seen l) l.
Proof.
  induction l as [|y l IH]; intros seen; simpl; [constructor|].
  destruct (decide (y ∈ seen)).
  - apply sublist_cons, IH.
  - apply sublist_skip, IH.
Qed.

Lemma keep_first_app l1 : forall seen l2,
  keep_first seen (l1 ++ l2) = keep_first seen l1 ++ keep_first (seen ++ l1) l2.
Proof.
  induction l1 as [|y l1 IH]; intros seen l2; simpl.
  - now rewrite app_nil_r.
  - rewrite IH, <- app_assoc. simpl. destruct (decide (y ∈ seen)); reflexivity.
Qed.

Lemma keep_first_id l : forall seen,
  NoDup l -> (forall x, x ∈ l -> x ∉ seen) -> keep_first seen l = l.
Proof.
  induction l as [|y l IH]; intros seen Hnd Hs; simpl; [reflexivity|].
  apply NoDup_cons in Hnd as [Hy Hnd].
  rewrite decide_False by (apply Hs, list_elem_of_here).
  f_equal. apply IH; [exact Hnd|].
  intros x Hx. rewrite not_elem_of_app, list_elem_of_singleton. split.
  - apply Hs. now apply list_elem_of_further.
  - intros ->. contradiction.
Qed.

(** X1.  [removeDuplicates] returns its array without duplicates: the result
    has no element twice, has the elements of the array, in the order of the
    array, and keeps of each element the first occurrence, so that the
    result for an array is a prefix of the result for any extension of it.
    An array without duplicates is returned as it is. *)
Theorem removeDuplicates_keeps_first_occurrences (array : list nat) :
  NoDup (removeDuplicates array)
  /\ (forall x, x ∈ removeDuplicates array <-> x ∈ array)
  /\ sublist (removeDuplicates array) array
  /\ (forall more, removeDuplicates array `prefix_of` removeDuplicates (array ++ more))
  /\ (NoDup array -> removeDuplicates array = array).
Proof.
  rewrite removeDuplicates_keep_first.
  split; [apply keep_first_NoDup|].
  split.
  { intros x. rewrite keep_first_elem_of. split; [intros [H _]; exact H|].
    intros H. split; [exact H|apply not_elem_of_nil]. }
  split; [apply keep_first_sublist|].
  split.
  - intros more. rewrite removeDuplicates_keep_first, keep_first_app.
    apply prefix_app_r. reflexivity.
  - intros Hnd. apply keep_first_id; [exact Hnd|]. intros x _. apply not_elem_of_nil.
Qed.

(** ** [sortEvents] *)

Lemma compareEvents_pos a b :
  (compareEvents a b > 0)%Z <-> ~ earlier_or_same a b.
Proof.
  unfold compareEvents, earlier_or_same.
  destruct (Z.gtb_spec (start a) (start b)); [lia|].
  destruct (Z.gtb_spec (start b) (start a)); [lia|].
  destruct (Z.gtb_spec (end_ a) (end_ b)); [lia|].
  destruct (Z.gtb_spec (end_ b) (end_ a)); lia.
Qed.

Lemma earlier_or_same_total a b : earlier_or_same a b \/ earlier_or_same b a.
Proof. unfold earlier_or_same. lia. Qed.

Lemma earlier_or_same_trans a b c :
  earlier_or_same a b -> earlier_or_same b c -> earlier_or_same a c.
Proof. unfold earlier_or_same. lia. Qed.

Section Sorting.

Variable cal : Calendar.

Let cmp (a b : ref) : Z := compareEvents (deref cal a) (deref cal b).
Let before (a b : ref) : Prop := earlier_or_same (deref cal a) (deref cal b).

Lemma insert_by_sorted x l :
  StronglySorted before l -> StronglySorted before (insert_by cmp x l).
Proof.
  induction 1 as [|y l Hs IH Hy]; simpl.
  - repeat constructor.
  - destruct (Z.gtb_spec (cmp x y) 0) as [Hgt|Hle].
    + apply SSorted_cons; [exact IH|].
      rewrite insert_by_perm. constructor; [|exact Hy].
      destruct (earlier_or_same_total (deref cal y) (deref cal x)) as [H|H]; [exact H|].
      exfalso. apply (proj1 (compareEvents_pos _ _)) in H; [exact H|]. unfold cmp in Hgt. lia.
    + assert (Hxy : before x y).
      { destruct (earlier_or_same_total (deref cal x) (deref cal y)) as [H|H]; [exact H|].
        unfold before. destruct (decide (earlier_or_same (deref cal x) (deref cal y)))
          as [H'|H']; [exact H'|].
        apply compareEvents_pos in H'. unfold cmp in Hle. lia. }
      apply SSorted_cons; [apply SSorted_cons; assumption|].
      constructor; [exact Hxy|].
      eapply Forall_impl; [exact Hy|]. intros z Hz.
      eapply earlier_or_same_trans; eassumption.
Qed.

Lemma sort_by_sorted l : StronglySorted before (sort_by cmp l).
Proof.
  induction l as [|x l IH]; simpl; [constructor|]. apply insert_by_sorted, IH.
Qed.

End Sorting.

Lemma StronglySorted_lookup {A} (R : A -> A -> Prop) l :
  StronglySorted R l ->
  forall i j a b, i < j -> l !! i = Some a -> l !! j = Some b -> R a b.
Proof.
  induction 1 as [|x l Hs IH Hx]; intros i j a b Hij Hi Hj.
  - discriminate.
  - destruct j as [|j]; [lia|]. simpl in Hj.
    destruct i as [|i]; simpl in Hi.
    + injection Hi as <-. rewrite Forall_forall in Hx. apply Hx.
      eapply list_elem_of_lookup_2, Hj.
    + eapply IH; [|eassumption..]. lia.
Qed.

(** X2.  [sortEvents] only reorders [this.events]: the sorted array is a
    permutation of the array before, the objects and everything else in the
    calendar are untouched, and in it no event comes before one with a
    smaller [start], or with the same [start] and a smaller [end]. *)
Theorem sortEvents_sorts (cal : Calendar) :
  events (sortEvents cal) ≡ₚ events cal
  /\ objects (sortEvents cal) = objects cal
  /\ events_calculated (sortEvents cal) = events_calculated cal
  /\ collision_clusters (sortEvents cal) = collision_clusters cal
  /\ forall i j a b,
       i < j ->
       events (sortEvents cal) !! i = Some a ->
       events (sortEvents cal) !! j = Some b ->
       earlier_or_same (deref cal a) (deref cal b).
Proof.
  split; [apply sort_by_perm|]. repeat (split; [reflexivity|]).
  apply (StronglySorted_lookup (fun a b => earlier_or_same (deref cal a) (deref cal b))).
  apply sort_by_sorted.
Qed.

(** ** [resize] *)

Lemma lookup_objects cal (r : ref) :
  objects cal !! r = if decide (r < length (objects cal)) then Some (deref cal r) else None.
Proof.
  unfold deref. destruct (objects cal !! r) as [e|] eqn:He; simpl.
  - rewrite decide_True; [reflexivity|]. eapply lookup_lt_Some, He.
  - rewrite decide_False; [reflexivity|]. apply lookup_ge_None in He. lia.
Qed.

Lemma calendar_eq cal cal' :
  cal_width cal' = cal_width cal ->
  events cal' = events cal ->
  events_calculated cal' = events_calculated cal ->
  collision_clusters cal' = collision_clusters cal ->
  length (objects cal') = length (objects cal) ->
  (forall r, deref cal' r = deref cal r) ->
  cal' = cal.
Proof.
  intros Hw He Hc Hcl Hlen Hd.
  assert (Ho : objects cal' = objects cal).
  { apply list_eq. intros r. rewrite !lookup_objects, Hlen, Hd. reflexivity. }
  destruct cal, cal'. simpl in *. congruence.
Qed.

(** X3.  Resizing is idempotent: resizing the events of a cluster for a
    column a second time changes nothing.  And it changes [left] and [width]
    only: the times, the column and the collisions of every event, the
    unplaced events, the cells and the clusters stay as they are. *)
Theorem resize_cluster_idempotent (cal : Calendar) (cluster : list ref) (column_ : nat) :
  let resize_all := fun cal => foldl (fun c r => resize c r column_) cal cluster in
  resize_all (resize_all cal) = resize_all cal
  /\ events (resize_all cal) = events cal
  /\ events_calculated (resize_all cal) = events_calculated cal
  /\ collision_clusters (resize_all cal) = collision_clusters cal
  /\ forall r,
       start (deref (resize_all cal) r) = start (deref cal r)
       /\ end_ (deref (resize_all cal) r) = end_ (deref cal r)
       /\ column (deref (resize_all cal) r) = column (deref cal r)
       /\ collisions (deref (resize_all cal) r) = collisions (deref cal r).
Proof.
  intros resize_all. unfold resize_all.
  destruct (resize_all_spec cluster cal column_) as ([W1 E1 C1 L1 T1 K1] & Cl1 & D1).
  set (once := foldl _ cal cluster) in *.
  destruct (resize_all_spec cluster once column_) as ([W2 E2 C2 L2 T2 K2] & Cl2 & D2).
  split.
  - apply calendar_eq; try assumption.
    intros r. rewrite D2, L1, W1, D1.
    case_decide; [|reflexivity]. apply resizeEvent_idem.
  - repeat (split; [assumption|]).
    intros r. destruct (T1 r) as [Hs He].
    repeat (split; [solve [auto]|]).
    rewrite D1. case_decide; reflexivity.
Qed.

(** ** [determineCollisionClusters] *)

Lemma concat_delete {A} (l : list (list A)) : forall i c,
  l !! i = Some c -> concat l ≡ₚ c ++ concat (delete i l).
Proof.
  induction l as [|x l IH]; intros i c Hi; [discriminate|].
  destruct i as [|i]; simpl in *.
  - injection Hi as ->. reflexivity.
  - rewrite (IH i c Hi). apply Permutation_app_swap_app.
Qed.

Lemma concat_insert {A} (l : list (list A)) : forall i c,
  i < length l -> concat (<[i := c]> l) ≡ₚ c ++ concat (delete i l).
Proof.
  induction l as [|x l IH]; intros i c Hi; simpl in *; [lia|].
  destruct i as [|i]; simpl.
  - reflexivity.
  - rewrite (IH i c) by lia. apply Permutation_app_swap_app.
Qed.

Lemma flat_map_ext_elem {A B} (f g : A -> list B) l :
  (forall x, x ∈ l -> f x = g x) -> flat_map f l = flat_map g l.
Proof.
  induction l as [|x l IH]; intros Hfg; simpl; [reflexivity|].
  rewrite (Hfg x (list_elem_of_here _ _)), IH; [reflexivity|].
  intros y Hy. apply Hfg. now apply list_elem_of_further.
Qed.

Lemma clusters_containing_from_bound clusters : forall index collision_event k,
  k ∈ clusters_containing_from index collision_event clusters ->
  index <= k < index + length clusters.
Proof.
  induction clusters as [|c clusters IH]; intros index x k; simpl.
  - intros H. now apply not_elem_of_nil in H.
  - destruct (inArray x c >? -1)%Z.
    + rewrite elem_of_cons. intros [->|H]; [lia|]. apply IH in H. lia.
    + intros H. apply IH in H. lia.
Qed.

Lemma collision_clusters_to_merge_bound cal event k :
  k ∈ collision_clusters_to_merge cal event -> k < length (collision_clusters cal).
Proof.
  unfold collision_clusters_to_merge. rewrite removeDuplicates_keep_first.
  rewrite keep_first_elem_of. intros [Hk _].
  apply list_elem_of_In, in_flat_map in Hk as (x & _ & Hk).
  apply list_elem_of_In, clusters_containing_from_bound in Hk. lia.
Qed.

Lemma concat_clusters_spec idx ks : forall clusters c,
  clusters !! idx = Some c ->
  (forall k, k ∈ ks -> k <> idx /\ k < length clusters) ->
  concat_clusters idx clusters ks
  = Ok (<[idx := c ++ flat_map (fun k => default [] (clusters !! k)) ks]> clusters).
Proof.
  induction ks as [|k ks IH]; intros clusters c Hc Hks; simpl.
  - rewrite app_nil_r, list_insert_id by exact Hc. reflexivity.
  - destruct (Hks k (list_elem_of_here _ _)) as [Hne Hlt].
    unfold concat_cluster. rewrite Hc.
    destruct (lookup_lt_is_Some_2 _ _ Hlt) as [ck Hck]. rewrite Hck. simpl.
    rewrite (IH _ (c ++ ck)).
    + rewrite list_insert_insert_eq, <- app_assoc. do 4 f_equal.
      apply flat_map_ext_elem. intros k' Hk'.
      destruct (Hks k' (list_elem_of_further _ _ _ Hk')) as [Hne' _].
      rewrite list_lookup_insert_ne by congruence. reflexivity.
    + apply list_lookup_insert_eq. eapply lookup_lt_Some, Hc.
    + intros k' Hk'. rewrite length_insert. apply Hks. now apply list_elem_of_further.
Qed.

Lemma splice_clusters_descending ks :
  StronglySorted lt ks ->
  forall clusters,
    (forall k, k ∈ ks -> k < length clusters) ->
    concat clusters
      ≡ₚ concat (splice_clusters clusters (rev ks))
         ++ flat_map (fun k => default [] (clusters !! k)) ks
    /\ length (splice_clusters clusters (rev ks)) + length ks = length clusters
    /\ forall i, (forall k, k ∈ ks -> i < k) ->
                 splice_clusters clusters (rev ks) !! i = clusters !! i.
Proof.
  induction ks as [|k ks IH] using rev_ind; intros Hsorted clusters Hks.
  - simpl. rewrite app_nil_r. split; [reflexivity|]. split; [lia|reflexivity].
  - apply StronglySorted_app in Hsorted as (Hlast & Hs & _).
    assert (Hk : k < length clusters).
    { apply Hks, elem_of_app. right. apply list_elem_of_here. }
    destruct (lookup_lt_is_Some_2 _ _ Hk) as [ck Hck].
    assert (Hlt : forall k0, k0 ∈ ks -> k0 < k).
    { intros k0 Hk0. apply Hlast; [exact Hk0|apply list_elem_of_here]. }
    rewrite rev_app_distr. simpl. unfold splice_clusters in *. simpl.
    assert (Hlen : S (length (delete k clusters)) = length clusters)
      by (eapply length_delete_lookup, Hck).
    destruct (IH Hs (delete k clusters)) as (Hperm & Hlen' & Hlook).
    { intros k0 Hk0. specialize (Hlt k0 Hk0). lia. }
    split; [|split].
    + rewrite flat_map_app. simpl. rewrite Hck. simpl. rewrite app_nil_r.
      rewrite (flat_map_ext_elem _ (fun k0 => default [] (clusters !! k0))) in Hperm.
      * rewrite (concat_delete clusters k ck Hck), Hperm.
        rewrite (Permutation_app_comm ck), <- app_assoc. reflexivity.
      * intros k0 Hk0.
        rewrite list_lookup_delete_lt by (apply Hlt, Hk0). reflexivity.
    + rewrite length_app. simpl. lia.
    + intros i Hi. rewrite Hlook.
      * apply list_lookup_delete_lt. apply Hi, elem_of_app. right. apply list_elem_of_here.
      * intros k0 Hk0. apply Hi, elem_of_app. left. exact Hk0.
Qed.

Lemma determineCollisionClusters_unfold cal event :
  determineCollisionClusters cal event =
  match collisions (deref cal event) with
  | [] =>
      Ok (set_collision_clusters cal (collision_clusters cal ++ [[event]]),
          length (collision_clusters cal))
  | _ :: _ =>
      match collision_clusters_to_merge cal event with
      | [] => Throw
      | idx :: others =>
          do merged <- concat_clusters idx (collision_clusters cal) others;
          match splice_clusters merged (rev others) !! idx with
          | None => Throw
          | Some c =>
              Ok (set_collision_clusters cal
                    (<[idx := c ++ [event]]> (splice_clusters merged (rev others))),
                  idx)
          end
      end
  end.
Proof. reflexivity. Qed.

(** X4.  When the clusters that hold the collisions of an event are found in
    ascending order of their indices, [determineCollisionClusters] merges
    them as intended: it returns the first index; the cluster there is the
    found clusters one after the other, then the event; the other found
    clusters are gone and the clusters before the first are untouched; and
    over all clusters no member is lost or doubled, the event being the one
    new member. *)
Theorem determineCollisionClusters_ascending cal event idx others :
  collisions (deref cal event) <> [] ->
  collision_clusters_to_merge cal event = idx :: others ->
  StronglySorted lt (idx :: others) ->
  exists cal',
    determineCollisionClusters cal event = Ok (cal', idx)
    /\ objects cal' = objects cal
    /\ events cal' = events cal
    /\ events_calculated cal' = events_calculated cal
    /\ concat (collision_clusters cal') ≡ₚ concat (collision_clusters cal) ++ [event]
    /\ length (collision_clusters cal') + length others = length (collision_clusters cal)
    /\ collision_clusters cal' !! idx
       = Some (flat_map (fun k => default [] (collision_clusters cal !! k)) (idx :: others)
               ++ [event])
    /\ forall i, i < idx -> collision_clusters cal' !! i = collision_clusters cal !! i.
Proof.
  intros Hcoll Htm Hsorted.
  rewrite determineCollisionClusters_unfold, Htm.
  destruct (collisions (deref cal event)) as [|c0 cs]; [contradiction|].
  set (clusters := collision_clusters cal) in *.
  apply StronglySorted_inv in Hsorted as [Hs Hidx]. rewrite Forall_forall in Hidx.
  assert (Hbound : forall k, k ∈ idx :: others -> k < length clusters).
  { intros k Hk. apply (collision_clusters_to_merge_bound cal event). rewrite Htm. exact Hk. }
  destruct (lookup_lt_is_Some_2 _ _ (Hbound idx (list_elem_of_here _ _))) as [c Hc].
  assert (Hothers : forall k, k ∈ others -> idx < k /\ k < length clusters).
  { intros k Hk. split; [apply Hidx, Hk|]. apply Hbound. now apply list_elem_of_further. }
  set (gathered := flat_map (fun k => default [] (clusters !! k)) others).
  rewrite (concat_clusters_spec idx others clusters c Hc).
  2:{ intros k Hk. destruct (Hothers k Hk). split; lia. }
  simpl. fold gathered.
  set (merged := <[idx := c ++ gathered]> clusters).
  assert (Hlen_m : length merged = length clusters) by apply length_insert.
  destruct (splice_clusters_descending others Hs merged) as (Hperm & Hlen & Hlook).
  { intros k Hk. rewrite Hlen_m. apply Hothers, Hk. }
  set (spliced := splice_clusters merged (rev others)) in *.
  rewrite (flat_map_ext_elem _ (fun k => default [] (clusters !! k))) in Hperm.
  2:{ intros k Hk. unfold merged. destruct (Hothers k Hk).
      rewrite list_lookup_insert_ne by lia. reflexivity. }
  fold gathered in Hperm.
  assert (Hidx_s : spliced !! idx = Some (c ++ gathered)).
  { rewrite Hlook by (intros k Hk; apply Hothers, Hk).
    apply list_lookup_insert_eq. eapply lookup_lt_Some, Hc. }
  rewrite Hidx_s.
  assert (Hm : concat merged ≡ₚ concat clusters ++ gathered).
  { unfold merged. rewrite concat_insert by (eapply lookup_lt_Some, Hc).
    rewrite (concat_delete clusters idx c Hc), <- !app_assoc.
    apply Permutation_app_head, Permutation_app_comm. }
  assert (Hs_c : concat spliced ≡ₚ concat clusters).
  { apply (Permutation_app_inv_r gathered). rewrite <- Hperm. exact Hm. }
  eexists. split; [reflexivity|]. simpl.
  split; [reflexivity|]. split; [reflexivity|]. split; [reflexivity|].
  split; [|split; [|split]].
  - rewrite concat_insert by (eapply lookup_lt_Some, Hidx_s).
    rewrite <- Hs_c, (concat_delete spliced idx _ Hidx_s), <- !app_assoc.
    do 2 apply Permutation_app_head. apply Permutation_app_comm.
  - rewrite length_insert. lia.
  - rewrite list_lookup_insert_eq by (eapply lookup_lt_Some, Hidx_s).
    simpl. rewrite Hc. reflexivity.
  - intros i Hi. rewrite list_lookup_insert_ne by lia.
    rewrite Hlook by (intros k Hk; destruct (Hothers k Hk); lia).
    unfold merged. rewrite list_lookup_insert_ne by lia. reflexivity.
Qed.

(** ** [determineCollidingEvents] *)

Lemma collidingEvents_loop_elem_of cal this j : forall acc l,
  collidingEvents_loop cal this j acc = Ok l ->
  forall x,
    x ∈ l <->
    x ∈ acc \/ exists k, k < j /\ in_cell cal k x
                         /\ checkCollision (deref cal this) (deref cal x) = true.
Proof.
  induction j as [|j IH]; intros acc l; simpl.
  - intros [= <-] x. split; [auto|]. intros [H|(k & Hk & _)]; [exact H|lia].
  - destruct (events_calculated cal !! j) as [cell|] eqn:Hcell; simpl; [|discriminate].
    intros Hl x. rewrite (IH _ _ Hl x), elem_of_app, list_elem_of_filter. split.
    + intros [[Hx|[Hc Hx]]|(k & Hk & Hin & Hc)]; [auto| |].
      * right. exists j. split; [lia|]. split; [exists cell; auto|exact Hc].
      * right. exists k. split; [lia|]. auto.
    + intros [Hx|(k & Hk & Hin & Hc)]; [auto|].
      destruct (decide (k = j)) as [->|Hne].
      * left. right. split; [exact Hc|].
        destruct Hin as (cell' & Hcell' & Hx). congruence.
      * right. exists k. split; [lia|]. auto.
Qed.

Lemma collidingEvents_loop_ok cal this j : forall acc,
  (forall k, k < j -> is_Some (events_calculated cal !! k)) ->
  exists l, collidingEvents_loop cal this j acc = Ok l.
Proof.
  induction j as [|j IH]; intros acc Hdense; simpl; [eauto|].
  destruct (Hdense j ltac:(lia)) as [cell Hcell]. rewrite Hcell. simpl.
  apply IH. intros k Hk. apply Hdense. lia.
Qed.

Lemma determineCollidingEvents_collisions cal this cal' :
  determineCollidingEvents cal this = Ok cal' ->
  (forall r, r <> this -> deref cal' r = deref cal r)
  /\ (this < length (objects cal) ->
      exists l,
        collidingEvents_loop cal this (column (deref cal this) - 1)
                             (collisions (deref cal this)) = Ok l
        /\ collisions (deref cal' this) = removeDuplicates l).
Proof.
  unfold determineCollidingEvents.
  destruct (collidingEvents_loop _ _ _ _) as [l|]; simpl; [|discriminate].
  intros [= <-]. split.
  - intros r Hne. apply deref_update_ne, Hne.
  - intros Hlt. exists l. split; [reflexivity|].
    rewrite deref_update_eq by exact Hlt. reflexivity.
Qed.

(** ** The stages of [place] *)

Lemma place_unfold cal i event column_ :
  place cal i event column_ =
  match events_calculated cal !! (column_ - 1) with
  | None => Throw
  | Some cell =>
      do cal4 <- determineCollidingEvents (moved cal i event column_ cell) event;
      do placed <- determineCollisionClusters cal4 event;
      match collision_clusters (fst placed) !! snd placed with
      | None => Throw
      | Some cluster =>
          Ok (foldl (fun c r => resize c r column_) (fst placed) cluster)
      end
  end.
Proof. reflexivity. Qed.

Lemma moved_deref cal i event column_ cell r :
  (r <> event -> deref (moved cal i event column_ cell) r = deref cal r)
  /\ same_times (deref cal r) (deref (moved cal i event column_ cell) r)
  /\ collisions (deref (moved cal i event column_ cell) r) = collisions (deref cal r)
  /\ (event < length (objects cal) ->
      column (deref (moved cal i event column_ cell) event) = column_).
Proof.
  unfold moved.
  match goal with |- context [update ?c event ?f] =>
    set (cal2 := c); set (setcol := f) end.
  assert (D2 : forall q, deref cal2 q = deref cal q) by reflexivity.
  assert (L2 : length (objects cal2) = length (objects cal)) by reflexivity.
  split; [|split; [|split]].
  - intros Hne. rewrite deref_update_ne by exact Hne. apply D2.
  - destruct (deref_update cal2 event setcol r) as [->|(-> & _ & ->)];
      rewrite D2; split; reflexivity.
  - destruct (deref_update cal2 event setcol r) as [->|(-> & _ & ->)];
      rewrite D2; reflexivity.
  - intros Hlt. rewrite deref_update_eq by (rewrite L2; exact Hlt). reflexivity.
Qed.

Lemma moved_in_cell cal i event column_ cell k x :
  events_calculated cal !! (column_ - 1) = Some cell ->
  in_cell (moved cal i event column_ cell) k x
  <-> in_cell cal k x \/ (k = column_ - 1 /\ x = event).
Proof. intros Hcell. eapply in_cell_push; [reflexivity|exact Hcell]. Qed.

(** The collisions that [place] leaves: untouched for every other event; for
    the placed event, without duplicates, its collisions from before and the
    events of the earlier columns that collide with it. *)
Lemma place_collisions cal i event column_ cal' :
  place cal i event column_ = Ok cal' ->
  (forall r, r <> event -> collisions (deref cal' r) = collisions (deref cal r))
  /\ (event < length (objects cal) ->
      NoDup (collisions (deref cal' event))
      /\ forall x,
           x ∈ collisions (deref cal' event)
           <-> x ∈ collisions (deref cal event)
               \/ exists k, k + 1 < column_ /\ in_cell cal k x
                            /\ checkCollision (deref cal event) (deref cal x) = true).
Proof.
  rewrite place_unfold.
  destruct (events_calculated cal !! (column_ - 1)) as [cell|] eqn:Hcell; [|discriminate].
  set (cal3 := moved cal i event column_ cell).
  destruct (determineCollidingEvents cal3 event) as [cal4|] eqn:H4; simpl; [|discriminate].
  destruct (determineCollisionClusters cal4 event) as [[cal5 idx]|] eqn:H5; simpl;
    [|discriminate].
  destruct (collision_clusters cal5 !! idx) as [cluster|] eqn:Hcl; [|discriminate].
  intros [= <-].
  apply determineCollidingEvents_collisions in H4 as [Hother Hthis].
  apply determineCollisionClusters_spec in H5 as (O5 & _).
  assert (D5 : forall r, deref cal5 r = deref cal4 r)
    by (intros r; apply deref_objects, O5).
  assert (C6 : forall r,
             collisions (deref (foldl (fun c r => resize c r column_) cal5 cluster) r)
             = collisions (deref cal4 r)).
  { intros r. destruct (resize_all_spec cluster cal5 column_) as (_ & _ & D6).
    rewrite D6, <- D5. case_decide; reflexivity. }
  assert (L3 : length (objects cal3) = length (objects cal)).
  { unfold cal3, moved. rewrite length_objects_update. reflexivity. }
  split.
  - intros r Hne. rewrite C6, (Hother r Hne).
    apply (moved_deref cal i event column_ cell r).
  - intros Hlt. rewrite C6.
    destruct Hthis as (l & Hl & ->); [rewrite L3; exact Hlt|].
    pose proof (removeDuplicates_keep_first l) as Hkf.
    split; [rewrite Hkf; apply keep_first_NoDup|].
    intros x. rewrite Hkf, keep_first_elem_of.
    rewrite (collidingEvents_loop_elem_of _ _ _ _ _ Hl x).
    destruct (moved_deref cal i event column_ cell event) as (_ & Hte & Hce & Hcol).
    fold cal3 in Hte, Hce, Hcol. rewrite Hce, (Hcol Hlt).
    assert (Hcoll : checkCollision (deref cal3 event) (deref cal3 x)
                    = checkCollision (deref cal event) (deref cal x)).
    { apply checkCollision_times; [exact Hte|].
      apply (moved_deref cal i event column_ cell x). }
    rewrite Hcoll. split.
    + intros [[Hx|(k & Hk & Hin & Hc)] _]; [auto|].
      right. exists k. split; [lia|]. split; [|exact Hc].
      apply (moved_in_cell _ _ _ _ _ _ _ Hcell) in Hin as [Hin|[-> _]]; [exact Hin|lia].
    + intros H. split; [|apply not_elem_of_nil].
      destruct H as [Hx|(k & Hk & Hin & Hc)]; [auto|].
      right. exists k. split; [lia|]. split; [|exact Hc].
      apply (moved_in_cell _ _ _ _ _ _ _ Hcell). left. exact Hin.
Qed.

(** ** The greedy invariant *)

Lemma getCollidingEvents_cons cal event column_ x xs :
  getCollidingEvents cal event column_ = Ok (x :: xs) ->
  in_cell cal (column_ - 1) x
  /\ checkCollision (deref cal event) (deref cal x) = true.
Proof.
  unfold getCollidingEvents. destruct column_ as [|k]; [discriminate|].
  destruct (events_calculated cal !! k) as [cell|] eqn:Hk; [|discriminate].
  intros [= Hf].
  assert (Hx : x ∈ filter (fun y => checkCollision (deref cal event) (deref cal y) = true) cell)
    by (rewrite Hf; apply list_elem_of_here).
  apply list_elem_of_filter in Hx as [Hc Hx].
  split; [|exact Hc]. exists cell. split; [|exact Hx].
  rewrite <- Hk. f_equal. lia.
Qed.

Section GreedyPreservation.

Variable cal0 : Calendar.

Lemma greedy_open cal column_ :
  invariant cal0 (mkConfig cal column_ AtWhile) ->
  greedy_invariant (mkConfig cal column_ AtWhile) ->
  events cal <> [] ->
  greedy_invariant
    (mkConfig (set_events_calculated cal (<[column_ - 1 := []]> (events_calculated cal)))
              column_ (AtFor 0)).
Proof.
  intros Hinv [Hwait Hcolls Hplaced Hrej Hskip Hne] Hev. simpl in *.
  set (cal' := set_events_calculated cal _).
  assert (Hnone : events_calculated cal !! (column_ - 1) = None).
  { destruct (events_calculated cal !! (column_ - 1)) as [cell|] eqn:E; [|reflexivity].
    apply (inv_limit _ _ Hinv) in E. unfold cells_limit in E. simpl in E. lia. }
  assert (Hin : forall k r, in_cell cal' k r <-> in_cell cal k r).
  { intros k r. apply in_cell_fresh with (K := column_ - 1); [reflexivity|exact Hnone]. }
  split; simpl.
  - exact Hwait.
  - intros k r Hk. apply Hin in Hk. destruct (Hcolls k r Hk) as [Hnd Hx].
    split; [exact Hnd|]. intros x. etransitivity; [exact (Hx x)|].
    split; intros (k' & Hk' & Hi & Hc); exists k'; (split; [exact Hk'|]);
      (split; [apply Hin, Hi|exact Hc]).
  - intros k r Hk k' Hk'. apply Hin in Hk.
    destruct (Hplaced k r Hk k' Hk') as (x & Hx & Hc). exists x. split; [apply Hin, Hx|exact Hc].
  - intros r Hr k' Hk'. destruct (Hrej r Hr k' Hk') as (x & Hx & Hc).
    exists x. split; [apply Hin, Hx|exact Hc].
  - intros i j r [= <-] Hj. lia.
  - intros k Hk. apply lookup_insert_Some in Hk as [[<- _]|[_ Hk]]; [auto|].
    destruct (Hne k Hk) as (_ & Hpt & _). discriminate.
Qed.

Lemma greedy_close cal column_ i :
  greedy_invariant (mkConfig cal column_ (AtFor i)) ->
  events cal !! i = None ->
  greedy_invariant (mkConfig cal (S column_) AtWhile).
Proof.
  intros [Hwait Hcolls Hplaced Hrej Hskip Hne] Hi. simpl in *.
  split; simpl; try assumption.
  - intros r Hr k' Hk'. destruct (decide (k' + 1 < column_)) as [Hlt|Hge].
    + apply Hrej; assumption.
    + assert (k' = column_ - 1) as -> by lia.
      apply list_elem_of_lookup_1 in Hr as [j Hj].
      apply (Hskip i j r eq_refl); [|exact Hj].
      apply lookup_ge_None in Hi. apply lookup_lt_Some in Hj. lia.
  - discriminate.
  - intros k Hk. exfalso. destruct (Hne k Hk) as (_ & [= ->] & Hev).
    apply Hev. destruct (events cal); [reflexivity|discriminate].
Qed.

Lemma greedy_skip cal column_ i event x xs :
  greedy_invariant (mkConfig cal column_ (AtFor i)) ->
  events cal !! i = Some event ->
  getCollidingEvents cal event column_ = Ok (x :: xs) ->
  greedy_invariant (mkConfig cal column_ (AtFor (S i))).
Proof.
  intros [Hwait Hcolls Hplaced Hrej Hskip Hne] Hi Hg. simpl in *.
  apply getCollidingEvents_cons in Hg as [Hx Hc].
  split; simpl; try assumption.
  - intros i' j r [= <-] Hj Hr. destruct (decide (j = i)) as [->|Hji].
    + rewrite Hi in Hr. injection Hr as <-. eauto.
    + apply (Hskip i j r eq_refl); [lia|exact Hr].
  - intros k Hk. exfalso. destruct (Hne k Hk) as (-> & _ & _).
    destruct Hx as (cell & Hcell & Hin). rewrite Hk in Hcell. injection Hcell as <-.
    now apply not_elem_of_nil in Hin.
Qed.

Lemma greedy_place cal column_ i event cal' :
  invariant cal0 (mkConfig cal column_ (AtFor i)) ->
  greedy_invariant (mkConfig cal column_ (AtFor i)) ->
  events cal !! i = Some event ->
  place cal i event column_ = Ok cal' ->
  greedy_invariant (mkConfig cal' column_ (AtFor i)).
Proof.
  intros Hinv [Hwait Hcolls Hplaced Hrej Hskip Hne] Hi Hplace. simpl in *.
  destruct (place_collisions _ _ _ _ _ Hplace) as [Hcother Hcevent].
  apply place_spec in Hplace
    as (cell & Hcell & Hev & Hec & _ & _ & Htimes' & _ & _ & _ & _).
  assert (Hevin : event ∈ events cal) by (eapply list_elem_of_lookup_2, Hi).
  assert (Hvalid : event < length (objects cal))
    by (apply (inv_refs _ _ Hinv); left; exact Hevin).
  assert (Hnotpl : ~ placed cal event) by (apply (inv_unplaced _ _ Hinv), Hevin).
  assert (Hin : forall k r,
             in_cell cal' k r <-> in_cell cal k r \/ (k = column_ - 1 /\ r = event)).
  { intros k r. eapply in_cell_push; eassumption. }
  assert (Hcoll : forall a b,
             checkCollision (deref cal' a) (deref cal' b)
             = checkCollision (deref cal a) (deref cal b)).
  { intros a b. apply checkCollision_times; apply Htimes'. }
  assert (Hlim : forall k r, in_cell cal k r -> k < column_).
  { intros k r (c & Hc & _). apply (inv_limit _ _ Hinv) in Hc. exact Hc. }
  assert (Hkeep : forall k x, in_cell cal k x -> in_cell cal' k x).
  { intros k x Hk. apply Hin. left. exact Hk. }
  split; simpl.
  - intros r Hr. rewrite Hev in Hr.
    destruct (NoDup_delete_at _ _ _ (inv_nodup _ _ Hinv) Hi) as [_ Hgone].
    rewrite Hcother by (intros ->; contradiction).
    apply Hwait. eapply list_elem_of_delete_inv, Hr.
  - intros k r Hk. apply Hin in Hk as [Hk|[-> ->]].
    + assert (Hne' : r <> event) by (intros ->; apply Hnotpl; exists k; exact Hk).
      rewrite (Hcother r Hne'). destruct (Hcolls k r Hk) as [Hnd Hx].
      split; [exact Hnd|]. intros x. rewrite (Hx x).
      pose proof (Hlim k r Hk) as Hkl.
      split; intros (k' & Hk' & Hi' & Hc); exists k'; (split; [exact Hk'|]).
      * split; [apply Hkeep, Hi'|]. rewrite Hcoll. exact Hc.
      * rewrite Hcoll in Hc. split; [|exact Hc].
        apply Hin in Hi' as [Hi'|[-> _]]; [exact Hi'|lia].
    + destruct (Hcevent Hvalid) as [Hnd Hx]. split; [exact Hnd|].
      intros x. rewrite (Hx x), (Hwait event Hevin).
      split.
      * intros [Hnil|(k' & Hk' & Hi' & Hc)]; [now apply not_elem_of_nil in Hnil|].
        exists k'. split; [lia|]. split; [apply Hkeep, Hi'|]. rewrite Hcoll. exact Hc.
      * intros (k' & Hk' & Hi' & Hc). right. rewrite Hcoll in Hc.
        exists k'. split; [lia|]. split; [|exact Hc].
        apply Hin in Hi' as [Hi'|[-> _]]; [exact Hi'|lia].
  - intros k r Hk k' Hk'. apply Hin in Hk as [Hk|[-> ->]].
    + destruct (Hplaced k r Hk k' Hk') as (x & Hx & Hc).
      exists x. split; [apply Hkeep, Hx|]. rewrite Hcoll. exact Hc.
    + destruct (Hrej event Hevin k' ltac:(lia)) as (x & Hx & Hc).
      exists x. split; [apply Hkeep, Hx|]. rewrite Hcoll. exact Hc.
  - intros r Hr k' Hk'. rewrite Hev in Hr. apply list_elem_of_delete_inv in Hr.
    destruct (Hrej r Hr k' Hk') as (x & Hx & Hc).
    exists x. split; [apply Hkeep, Hx|]. rewrite Hcoll. exact Hc.
  - intros i' j r [= <-] Hj Hr. rewrite Hev, list_lookup_delete_lt in Hr by exact Hj.
    destruct (Hskip i j r eq_refl Hj Hr) as (x & Hx & Hc).
    exists x. split; [apply Hkeep, Hx|]. rewrite Hcoll. exact Hc.
  - intros k Hk. exfalso. rewrite Hec in Hk.
    apply lookup_insert_Some in Hk as [[_ Hk]|[Hne' Hk]].
    + destruct cell; discriminate.
    + destruct (Hne k Hk) as (-> & _). contradiction.
Qed.

Lemma step_greedy c c' :
  invariant cal0 c -> greedy_invariant c -> step c = Next c' -> greedy_invariant c'.
Proof.
  destruct c as [cal column_ [|i]]; unfold step; simpl; intros Hinv Hg.
  - destruct (events cal) eqn:He; [discriminate|]. intros [= <-].
    apply greedy_open; [exact Hinv|exact Hg|]. rewrite He. discriminate.
  - destruct (events cal !! i) as [event|] eqn:Hi.
    + destruct (getCollidingEvents cal event column_) as [[|x xs]|] eqn:Hgc;
        [|intros [= <-]; eapply greedy_skip; eassumption|discriminate].
      destruct (place cal i event column_) as [cal'|] eqn:Hp; [|discriminate].
      intros [= <-]. eapply greedy_place; eassumption.
    + intros [= <-]. eapply greedy_close; eassumption.
Qed.

Lemma config_at_greedy n : forall c c',
  invariant cal0 c -> greedy_invariant c -> config_at n c = Some c' -> greedy_invariant c'.
Proof.
  induction n as [|n IH]; intros c c' Hinv Hg; simpl.
  - intros [= <-]. exact Hg.
  - destruct (step c) as [c1| |] eqn:Hs; try discriminate.
    apply IH; [eapply step_invariant|eapply step_greedy]; eassumption.
Qed.

End GreedyPreservation.

Lemma greedy_initial raws : greedy_invariant (initial (start_of raws)).
Proof.
  assert (Hnopl : forall k r, ~ in_cell (start_of raws) k r).
  { intros k r (cell & Hk & _). simpl in Hk. now rewrite lookup_empty in Hk. }
  split; unfold initial; cbn [cfg_cal cfg_column cfg_point].
  - intros r Hr. unfold deref. rewrite start_of_objects.
    destruct (map (newEvent 600) raws !! r) as [e|] eqn:He; [|reflexivity].
    apply list_elem_of_lookup_2, list_elem_of_In, in_map_iff in He as (x & <- & _).
    reflexivity.
  - intros k r Hk. destruct (Hnopl k r Hk).
  - intros k r Hk. destruct (Hnopl k r Hk).
  - intros r _ k' Hk'. lia.
  - discriminate.
  - intros k Hk. simpl in Hk. now rewrite lookup_empty in Hk.
Qed.

Lemma reachable_invariants raws n c :
  config_at n (initial (start_of raws)) = Some c ->
  invariant (start_of raws) c /\ greedy_invariant c.
Proof.
  intros Hn. split.
  - eapply config_at_invariant; [apply invariant_initial|exact Hn].
  - eapply config_at_greedy; [apply invariant_initial|apply greedy_initial|exact Hn].
Qed.

(** ** Placed events stay where they are *)

Lemma step_keeps_cells cal0 c c' k r :
  invariant cal0 c -> step c = Next c' ->
  in_cell (cfg_cal c) k r -> in_cell (cfg_cal c') k r.
Proof.
  destruct c as [cal column_ [|i]]; unfold step; simpl; intros Hinv.
  - destruct (events cal); [discriminate|]. intros [= <-] Hk. simpl.
    eapply in_cell_fresh; [reflexivity| |exact Hk].
    destruct (events_calculated cal !! (column_ - 1)) as [cell|] eqn:E; [|reflexivity].
    apply (inv_limit _ _ Hinv) in E. unfold cells_limit in E. simpl in E. lia.
  - destruct (events cal !! i) as [event|] eqn:Hi.
    + destruct (getCollidingEvents cal event column_) as [[|x xs]|];
        [|intros [= <-]; auto|discriminate].
      destruct (place cal i event column_) as [cal'|] eqn:Hp; [|discriminate].
      intros [= <-] Hk. simpl.
      apply place_spec in Hp as (cell & Hcell & _ & Hec & _).
      eapply in_cell_push; [exact Hec|exact Hcell|]. left. exact Hk.
    + intros [= <-]. auto.
Qed.

Lemma config_at_keeps_cells cal0 k r m : forall c c',
  invariant cal0 c -> config_at m c = Some c' ->
  in_cell (cfg_cal c) k r -> in_cell (cfg_cal c') k r.
Proof.
  induction m as [|m IH]; intros c c' Hinv; simpl.
  - intros [= <-]. auto.
  - destruct (step c) as [c1| |] eqn:Hs; try discriminate.
    intros Hm Hk. eapply IH; [eapply step_invariant; eassumption|exact Hm|].
    eapply step_keeps_cells; eassumption.
Qed.

(** X5.  The choice of a column is final: an event that is in the cell of a
    column at some point of a layout run is in that cell, with that [column],
    at every later point of the run, and is never back among the unplaced
    events. *)
Theorem placement_is_final raws n m c c' k r :
  config_at n (initial (start_of raws)) = Some c ->
  config_at m c = Some c' ->
  in_cell (cfg_cal c) k r ->
  in_cell (cfg_cal c') k r
  /\ column (deref (cfg_cal c) r) = S k
  /\ column (deref (cfg_cal c') r) = S k
  /\ r ∉ events (cfg_cal c').
Proof.
  intros Hn Hm Hk.
  pose proof (config_at_invariant _ _ _ _ (invariant_initial raws) Hn) as Hinv.
  pose proof (config_at_invariant _ _ _ _ Hinv Hm) as Hinv'.
  pose proof (config_at_keeps_cells _ _ _ _ _ _ Hinv Hm Hk) as Hk'.
  split; [exact Hk'|]. split; [apply (inv_column_field _ _ Hinv), Hk|].
  split; [apply (inv_column_field _ _ Hinv'), Hk'|].
  intros Hr. apply (inv_unplaced _ _ Hinv' r Hr). exists k. exact Hk'.
Qed.

Lemma placement_is_final_witness :
  let raws := [raw 30 150; raw 540 600; raw 560 620; raw 610 670] in
  let c := default (initial (start_of raws)) (config_at 3 (initial (start_of raws))) in
  let c' := default c (config_at 5 c) in
  in_cell (cfg_cal c') 0 0
  /\ column (deref (cfg_cal c) 0) = 1
  /\ column (deref (cfg_cal c') 0) = 1
  /\ 0 ∉ events (cfg_cal c').
Proof.
  intros raws c c'.
  apply (placement_is_final raws 3 5 c c' 0 0);
    [vm_compute; reflexivity | vm_compute; reflexivity |].
  exists [0; 1]. split; [vm_compute; reflexivity|apply list_elem_of_here].
Defined.

(** ** Direct collisions and the greedy choice *)

(** X6.  At every point of a layout run, the [collisions] of a placed event
    are, each once, exactly the events of the earlier columns that collide
    with it; an event that is not yet placed has none. *)
Theorem collisions_are_the_earlier_colliding_events raws n c :
  config_at n (initial (start_of raws)) = Some c ->
  (forall k r,
      in_cell (cfg_cal c) k r ->
      NoDup (collisions (deref (cfg_cal c) r))
      /\ forall x,
           x ∈ collisions (deref (cfg_cal c) r)
           <-> exists k', k' < k /\ in_cell (cfg_cal c) k' x
                          /\ checkCollision (deref (cfg_cal c) r) (deref (cfg_cal c) x) = true)
  /\ (forall r, r ∈ events (cfg_cal c) -> collisions (deref (cfg_cal c) r) = []).
Proof.
  intros Hn. destruct (reachable_invariants _ _ _ Hn) as [_ Hg].
  split; [exact (gi_collisions _ Hg)|exact (gi_waiting _ Hg)].
Qed.

Lemma collisions_are_the_earlier_colliding_events_witness :
  let raws := [raw 30 150; raw 540 600; raw 560 620; raw 610 670] in
  let c := default (initial (start_of raws)) (config_at 9 (initial (start_of raws))) in
  (forall k r,
      in_cell (cfg_cal c) k r ->
      NoDup (collisions (deref (cfg_cal c) r))
      /\ forall x,
           x ∈ collisions (deref (cfg_cal c) r)
           <-> exists k', k' < k /\ in_cell (cfg_cal c) k' x
                          /\ checkCollision (deref (cfg_cal c) r) (deref (cfg_cal c) x) = true)
  /\ (forall r, r ∈ events (cfg_cal c) -> collisions (deref (cfg_cal c) r) = []).
Proof.
  intros raws c.
  apply (collisions_are_the_earlier_colliding_events raws 9 c). vm_compute. reflexivity.
Defined.

(** X7.  The columns are chosen greedily: at every point of a layout run, an
    event in column [k + 1] collides with an event of each of the columns
    before it, and so does an event that is still unplaced with an event of
    each column whose pass is over.  No event stands further right than the
    events placed before it force it to. *)
Theorem column_is_first_free raws n c :
  config_at n (initial (start_of raws)) = Some c ->
  (forall k r,
      in_cell (cfg_cal c) k r ->
      forall k', k' < k ->
      exists x, in_cell (cfg_cal c) k' x
                /\ checkCollision (deref (cfg_cal c) r) (deref (cfg_cal c) x) = true)
  /\ (forall r,
         r ∈ events (cfg_cal c) ->
         forall k', k' + 1 < cfg_column c ->
         exists x, in_cell (cfg_cal c) k' x
                   /\ checkCollision (deref (cfg_cal c) r) (deref (cfg_cal c) x) = true).
Proof.
  intros Hn. destruct (reachable_invariants _ _ _ Hn) as [_ Hg].
  split; [exact (gi_placed _ Hg)|exact (gi_rejected _ Hg)].
Qed.

Lemma column_is_first_free_witness :
  let raws := [raw 30 150; raw 540 600; raw 560 620; raw 610 670] in
  let c := default (initial (start_of raws)) (config_at 9 (initial (start_of raws))) in
  (forall k r,
      in_cell (cfg_cal c) k r ->
      forall k', k' < k ->
      exists x, in_cell (cfg_cal c) k' x
                /\ checkCollision (deref (cfg_cal c) r) (deref (cfg_cal c) x) = true)
  /\ (forall r,
         r ∈ events (cfg_cal c) ->
         forall k', k' + 1 < cfg_column c ->
         exists x, in_cell (cfg_cal c) k' x
                   /\ checkCollision (deref (cfg_cal c) r) (deref (cfg_cal c) x) = true).
Proof.
  intros raws c.
  apply (column_is_first_free raws 9 c). vm_compute. reflexivity.
Defined.

Lemma determineCollisionClusters_ascending_witness :
  let cal0 := start_of [raw 0 50; raw 40 100; raw 90 150] in
  let cal :=
    set_collision_clusters
      (update cal0 1 (fun e => mkEvent (start e) (end_ e) (left e) (width e) [0; 2] 2))
      [[0]; [2]] in
  exists cal',
    determineCollisionClusters cal 1 = Ok (cal', 0)
    /\ objects cal' = objects cal
    /\ events cal' = events cal
    /\ events_calculated cal' = events_calculated cal
    /\ concat (collision_clusters cal') ≡ₚ concat (collision_clusters cal) ++ [1]
    /\ length (collision_clusters cal') + length [1] = length (collision_clusters cal)
    /\ collision_clusters cal' !! 0
       = Some (flat_map (fun k => default [] (collision_clusters cal !! k)) [0; 1] ++ [1])
    /\ forall i, i < 0 -> collision_clusters cal' !! i = collision_clusters cal !! i.
Proof.
  intros cal0 cal.
  apply (determineCollisionClusters_ascending cal 1 0 [1]).
  - vm_compute. discriminate.
  - vm_compute. reflexivity.
  - repeat constructor.
Defined.

(** ** The finished layout *)

Lemma run_throws fuel : forall c,
  run fuel c = Some Throw ->
  exists n c', config_at n c = Some c' /\ step c' = Raise.
Proof.
  induction fuel as [|fuel IH]; intros c; simpl; [discriminate|].
  destruct (step c) as [c1|cal1|] eqn:Hs.
  - intros Hr. destruct (IH _ Hr) as (n & c' & Hn & Hc').
    exists (S n), c'. simpl. rewrite Hs. auto.
  - discriminate.
  - intros _. exists 0, c. auto.
Qed.

Lemma in_cell_unique cal0 c k k' r :
  invariant cal0 c -> in_cell (cfg_cal c) k r -> in_cell (cfg_cal c) k' r -> k' = k.
Proof.
  intros Hinv Hk Hk'.
  pose proof (inv_column_field _ _ Hinv k r Hk) as H1.
  pose proof (inv_column_field _ _ Hinv k' r Hk') as H2. congruence.
Qed.

(** X8.  A layout that returns has placed every input record: no event is
    left unplaced; every record is in one cell, once, and in no other, with
    the [start] and [end] it came with; the cells hold nothing but input
    records; and the columns in use are 1 to [m] without a gap, none of them
    empty. *)
Theorem layout_places_every_event raws cal :
  layOutDay raws = Some (Ok cal) ->
  events cal = []
  /\ length (objects cal) = length raws
  /\ (forall r, r < length raws ->
        exists k,
          in_cell cal k r
          /\ (forall k', in_cell cal k' r -> k' = k)
          /\ start (deref cal r) = raw_start (default (raw 0 0) (raws !! r))
          /\ end_ (deref cal r) = raw_end (default (raw 0 0) (raws !! r)))
  /\ (forall k cell,
        events_calculated cal !! k = Some cell ->
        NoDup cell /\ cell <> [] /\ forall r, r ∈ cell -> r < length raws)
  /\ exists m, forall k, is_Some (events_calculated cal !! k) <-> k < m.
Proof.
  intros Hrun. pose proof Hrun as Hrun'.
  apply run_final in Hrun' as (n & c & Hn & <- & Hpt & Hev & Hinv).
  destruct (reachable_invariants _ _ _ Hn) as [_ Hg].
  assert (Hlen : length (objects (cfg_cal c)) = length raws).
  { rewrite (inv_length _ _ Hinv), start_of_objects. apply length_map. }
  split; [exact Hev|]. split; [exact Hlen|]. split; [|split].
  - intros r Hr.
    destruct (final_event _ _ _ _ Hrun Hr) as (k & _ & Hk & _ & _ & _ & _ & Hs & He).
    exists k. split; [exact Hk|]. split; [|split; assumption].
    intros k' Hk'. eapply in_cell_unique; eassumption.
  - intros k cell Hk. split; [apply (inv_cells _ _ Hinv k cell Hk)|]. split.
    + intros ->. destruct (gi_nonempty _ Hg k Hk) as (_ & Hpt' & _). congruence.
    + intros r Hr. rewrite <- Hlen. apply (inv_refs _ _ Hinv). right.
      exists k, cell. auto.
  - exists (cells_limit c). intros k. split.
    + intros [cell Hk]. apply (inv_limit _ _ Hinv k cell Hk).
    + apply (inv_dense _ _ Hinv).
Qed.

Lemma layout_places_every_event_witness :
  let raws := [raw 30 150; raw 540 600; raw 560 620; raw 610 670] in
  let cal := match layOutDay raws with Some (Ok cal) => cal | _ => newCalendar [] end in
  events cal = []
  /\ length (objects cal) = length raws
  /\ (forall r, r < length raws ->
        exists k,
          in_cell cal k r
          /\ (forall k', in_cell cal k' r -> k' = k)
          /\ start (deref cal r) = raw_start (default (raw 0 0) (raws !! r))
          /\ end_ (deref cal r) = raw_end (default (raw 0 0) (raws !! r)))
  /\ (forall k cell,
        events_calculated cal !! k = Some cell ->
        NoDup cell /\ cell <> [] /\ forall r, r ∈ cell -> r < length raws)
  /\ exists m, forall k, is_Some (events_calculated cal !! k) <-> k < m.
Proof.
  intros raws cal.
  apply (layout_places_every_event raws cal). vm_compute. reflexivity.
Defined.

(** ** Input without collisions *)

Lemma deref_start_of raws (r : ref) x :
  raws !! r = Some x -> deref (start_of raws) r = newEvent 600 x.
Proof.
  intros Hx. unfold deref. rewrite start_of_objects, list_lookup_fmap.
  unfold ref in *. rewrite Hx. reflexivity.
Qed.

Lemma separate_no_collision raws c (a b : ref) :
  separate raws -> invariant (start_of raws) c ->
  a < length raws -> b < length raws -> a <> b ->
  checkCollision (deref (cfg_cal c) a) (deref (cfg_cal c) b) = false.
Proof.
  intros Hsep Hinv Ha Hb Hne.
  destruct (lookup_lt_is_Some_2 raws a Ha) as [x Hx].
  destruct (lookup_lt_is_Some_2 raws b Hb) as [y Hy].
  rewrite (checkCollision_times _ _ _ _ (inv_times _ _ Hinv a) (inv_times _ _ Hinv b)).
  rewrite (deref_start_of _ _ _ Hx), (deref_start_of _ _ _ Hy).
  exact (Hsep a b x y Hx Hy Hne).
Qed.

Lemma known_ref raws c r :
  invariant (start_of raws) c ->
  r ∈ events (cfg_cal c) \/ placed (cfg_cal c) r -> r < length raws.
Proof.
  intros Hinv Hr. apply (inv_refs _ _ Hinv) in Hr.
  rewrite (inv_length _ _ Hinv), start_of_objects, length_map in Hr. exact Hr.
Qed.

(** Without collisions only the first cell is ever filled. *)
Lemma separate_first_cell raws c k r :
  separate raws -> invariant (start_of raws) c -> greedy_invariant c ->
  in_cell (cfg_cal c) k r -> k = 0.
Proof.
  intros Hsep Hinv Hg Hk. destruct k as [|k]; [reflexivity|exfalso].
  destruct (gi_placed _ Hg _ _ Hk 0 ltac:(lia)) as (x & Hx & Hc).
  rewrite (separate_no_collision raws c r x Hsep Hinv) in Hc; [discriminate| | |].
  - eapply known_ref; [exact Hinv|]. right. eexists; exact Hk.
  - eapply known_ref; [exact Hinv|]. right. eexists; exact Hx.
  - intros ->. pose proof (in_cell_unique _ _ _ _ _ Hinv Hk Hx). discriminate.
Qed.

(** Without collisions no event waits for a second column. *)
Lemma separate_column raws c r :
  separate raws -> invariant (start_of raws) c -> greedy_invariant c ->
  r ∈ events (cfg_cal c) -> cfg_column c = 1.
Proof.
  intros Hsep Hinv Hg Hr.
  pose proof (inv_column _ _ Hinv) as H1.
  destruct (decide (cfg_column c = 1)) as [|Hne]; [assumption|exfalso].
  destruct (gi_rejected _ Hg r Hr 0 ltac:(lia)) as (x & Hx & Hc).
  rewrite (separate_no_collision raws c r x Hsep Hinv) in Hc; [discriminate| | |].
  - eapply known_ref; [exact Hinv|]. left. exact Hr.
  - eapply known_ref; [exact Hinv|]. right. eexists; exact Hx.
  - intros ->. apply (inv_unplaced _ _ Hinv x Hr). eexists; exact Hx.
Qed.

Lemma separate_step raws c :
  separate raws -> invariant (start_of raws) c -> greedy_invariant c ->
  step c <> Raise.
Proof.
  intros Hsep Hinv Hg.
  destruct c as [cal column_ [|i]]; unfold step; cbn [cfg_cal cfg_column cfg_point].
  - destruct (events cal); discriminate.
  - destruct (events cal !! i) as [event|] eqn:Hi; [|discriminate].
    assert (Hin : event ∈ events cal) by (eapply list_elem_of_lookup_2, Hi).
    pose proof (separate_column raws _ event Hsep Hinv Hg Hin) as Hcol.
    cbn [cfg_column] in Hcol. subst column_.
    destruct (inv_open _ _ Hinv i eq_refl) as [cell Hcell].
    cbn [cfg_cal cfg_column] in Hcell. change (1 - 1) with 0 in Hcell.
    assert (Hlt : event < length (objects cal)).
    { apply (inv_refs _ _ Hinv). left. exact Hin. }
    unfold getCollidingEvents. rewrite Hcell.
    destruct (filter _ cell); [|discriminate].
    rewrite place_unfold. change (1 - 1) with 0. rewrite Hcell.
    destruct (moved_deref cal i event 1 cell event) as (_ & _ & Hcs & Hc).
    specialize (Hc Hlt). pose proof (gi_waiting _ Hg event Hin) as Hnone.
    cbn [cfg_cal] in Hnone. rewrite Hnone in Hcs.
    unfold determineCollidingEvents. rewrite Hc, Hcs.
    cbn [Nat.sub collidingEvents_loop bind].
    rewrite determineCollisionClusters_unfold.
    rewrite deref_update_eq
      by (unfold moved; rewrite length_objects_update; exact Hlt).
    cbn [collisions].
    change (removeDuplicates []) with (@nil nat).
    cbn [bind fst snd collision_clusters set_collision_clusters].
    rewrite lookup_app_r by lia. rewrite Nat.sub_diag. cbn. discriminate.
Qed.

(** X9.  When no two records of the input collide, [layOutDay] returns, and
    without a TypeError; every event is in the first cell, has [column] 1,
    no [collisions], the whole [width] 600 and [left] 0; and there is no
    second cell. *)
Theorem separate_events_keep_full_width raws :
  separate raws ->
  exists cal,
    layOutDay raws = Some (Ok cal)
    /\ (forall r, r < length raws ->
          in_cell cal 0 r
          /\ column (deref cal r) = 1
          /\ collisions (deref cal r) = []
          /\ width (deref cal r) = 600%float
          /\ left (deref cal r) = 0%float)
    /\ forall k, 1 <= k -> events_calculated cal !! k = None.
Proof.
  intros Hsep.
  destruct (calculateEventPositions_ends (start_of raws)) as [res Hres].
  change (calculateEventPositions (start_of raws)) with (layOutDay raws) in Hres.
  destruct res as [cal|].
  2:{ exfalso. rewrite layOutDay_unfold in Hres.
      apply run_throws in Hres as (n & c & Hn & Hraise).
      destruct (reachable_invariants _ _ _ Hn) as [Hinv Hg].
      exact (separate_step raws c Hsep Hinv Hg Hraise). }
  exists cal. split; [exact Hres|].
  pose proof Hres as Hrun. rewrite layOutDay_unfold in Hrun.
  apply run_final in Hrun as (n & c & Hn & Hcal & Hpt & Hev & Hinv).
  destruct (reachable_invariants _ _ _ Hn) as [_ Hg].
  assert (Hfirst : forall k cell, events_calculated cal !! k = Some cell -> k = 0).
  { intros k cell Hk. destruct cell as [|x cell].
    - subst cal. destruct (gi_nonempty _ Hg k Hk) as (_ & Hpt' & _). congruence.
    - subst cal. apply (separate_first_cell raws c k x Hsep Hinv Hg).
      exists (x :: cell). split; [exact Hk|apply list_elem_of_here]. }
  split.
  - intros r Hr. rewrite layOutDay_unfold in Hres.
    destruct (final_event _ _ _ _ Hres Hr) as (k & m & Hk & Hcol & Hkm & [cell Hm] & [Hw Hl] & _).
    assert (k = 0) by (destruct Hk as (cell' & Hk & _); exact (Hfirst _ _ Hk)).
    assert (m = 1) by (apply Hfirst in Hm; lia).
    subst k m. split; [exact Hk|]. split; [exact Hcol|].
    assert (Hw' : width (deref cal r) = 600%float) by (rewrite Hw; vm_compute; reflexivity).
    split; [|split; [exact Hw'|rewrite Hl, Hw', Hcol; vm_compute; reflexivity]].
    subst cal. destruct (gi_collisions _ Hg 0 r Hk) as [_ Hx].
    destruct (collisions (deref (cfg_cal c) r)) as [|x xs]; [reflexivity|exfalso].
    destruct (proj1 (Hx x) (list_elem_of_here _ _)) as (k' & Hk' & _). lia.
  - intros k Hk. destruct (events_calculated cal !! k) as [cell|] eqn:Hc; [|reflexivity].
    apply Hfirst in Hc. lia.
Qed.

Lemma separate_events_keep_full_width_witness :
  let raws := [raw 0 50; raw 200 300; raw 50 100] in
  exists cal,
    layOutDay raws = Some (Ok cal)
    /\ (forall r, r < length raws ->
          in_cell cal 0 r
          /\ column (deref cal r) = 1
          /\ collisions (deref cal r) = []
          /\ width (deref cal r) = 600%float
          /\ left (deref cal r) = 0%float)
    /\ forall k, 1 <= k -> events_calculated cal !! k = None.
Proof.
  intros raws.
  apply (separate_events_keep_full_width raws).
  intros i j a b Hi Hj Hne.
  destruct i as [|[|[|i]]], j as [|[|[|j]]]; simpl in Hi, Hj;
    try discriminate; try congruence;
    injection Hi as <-; injection Hj as <-; vm_compute; reflexivity.
Defined.

(** ** The order of time within a column *)

Lemma StronglySorted_delete {A} (R : A -> A -> Prop) (l : list A) i :
  StronglySorted R l -> StronglySorted R (delete i l).
Proof.
  intros Hs. destruct (l !! i) as [x|] eqn:Hi.
  - destruct (delete_middle l i x Hi) as (l1 & l2 & -> & ->).
    apply StronglySorted_app in Hs as (H12 & H1 & H2).
    apply StronglySorted_cons in H2 as [_ H2].
    apply StronglySorted_app. split; [|split; assumption].
    intros a b Ha Hb. apply (H12 a b Ha). now apply list_elem_of_further.
  - apply lookup_ge_None in Hi.
    rewrite delete_take_drop, take_ge, drop_ge, app_nil_r by lia. exact Hs.
Qed.

Section ChronologicalPreservation.

Variable cal0 : Calendar.

Lemma chronological_open cal column_ :
  chronological cal0 (mkConfig cal column_ AtWhile) ->
  chronological cal0
    (mkConfig (set_events_calculated cal (<[column_ - 1 := []]> (events_calculated cal)))
              column_ (AtFor 0)).
Proof.
  intros [Hev Hcells _]. split; cbn [cfg_cal cfg_column cfg_point] in *.
  - exact Hev.
  - intros k cell Hk. simpl in Hk.
    apply lookup_insert_Some in Hk as [[_ <-]|[_ Hk]]; [constructor|eauto].
  - intros i x j r _ (cell & Hk & Hx). simpl in Hk.
    rewrite lookup_insert_eq in Hk. injection Hk as <-.
    now apply not_elem_of_nil in Hx.
Qed.

Lemma chronological_close cal column_ i :
  chronological cal0 (mkConfig cal column_ (AtFor i)) ->
  chronological cal0 (mkConfig cal (S column_) AtWhile).
Proof.
  intros [Hev Hcells _]. split; cbn [cfg_cal cfg_column cfg_point] in *;
    [assumption|assumption|discriminate].
Qed.

Lemma chronological_skip cal column_ i :
  chronological cal0 (mkConfig cal column_ (AtFor i)) ->
  chronological cal0 (mkConfig cal column_ (AtFor (S i))).
Proof.
  intros [Hev Hcells Hscan]. split; cbn [cfg_cal cfg_column cfg_point] in *;
    [assumption|assumption|].
  intros i' x j r [= <-] Hx Hj Hr. apply (Hscan i x j r eq_refl Hx); [lia|exact Hr].
Qed.

Lemma chronological_place cal column_ i event cal' :
  chronological cal0 (mkConfig cal column_ (AtFor i)) ->
  events cal !! i = Some event ->
  place cal i event column_ = Ok cal' ->
  chronological cal0 (mkConfig cal' column_ (AtFor i)).
Proof.
  intros [Hev Hcells Hscan] Hi Hplace. cbn [cfg_cal cfg_column cfg_point] in *.
  apply place_spec in Hplace as (cell & Hcell & Hev' & Hec & _).
  assert (Hlast : forall x, x ∈ cell -> in_order cal0 x event).
  { intros x Hx. apply (Hscan i x i event eq_refl); [|lia|exact Hi].
    exists cell. auto. }
  split; cbn [cfg_cal cfg_column cfg_point].
  - rewrite Hev'. apply StronglySorted_delete, Hev.
  - intros k cell' Hk. rewrite Hec in Hk.
    apply lookup_insert_Some in Hk as [[_ <-]|[_ Hk]]; [|eauto].
    apply StronglySorted_app. split; [|split; [eauto|repeat constructor]].
    intros x y Hx Hy. apply list_elem_of_singleton in Hy as ->. apply Hlast, Hx.
  - intros i' x j r [= <-] Hx Hj Hr.
    rewrite Hev', list_lookup_delete_ge in Hr by exact Hj.
    apply (proj1 (in_cell_push cal cal' (column_ - 1) cell event _ _ Hec Hcell)) in Hx
      as [Hx|[_ ->]].
    + apply (Hscan i x (S j) r eq_refl Hx); [lia|exact Hr].
    + apply (StronglySorted_lookup _ _ Hev i (S j)); [lia|exact Hi|exact Hr].
Qed.

Lemma step_chronological c c' :
  chronological cal0 c -> step c = Next c' -> chronological cal0 c'.
Proof.
  destruct c as [cal column_ [|i]]; unfold step; simpl; intros Hch.
  - destruct (events cal) eqn:He; [discriminate|]. intros [= <-].
    apply chronological_open, Hch.
  - destruct (events cal !! i) as [event|] eqn:Hi.
    + destruct (getCollidingEvents cal event column_) as [[|x xs]|] eqn:Hgc;
        [|intros [= <-]; eapply chronological_skip; eassumption|discriminate].
      destruct (place cal i event column_) as [cal'|] eqn:Hp; [|discriminate].
      intros [= <-]. eapply chronological_place; eassumption.
    + intros [= <-]. eapply chronological_close; eassumption.
Qed.

Lemma config_at_chronological n : forall c c',
  chronological cal0 c -> config_at n c = Some c' -> chronological cal0 c'.
Proof.
  induction n as [|n IH]; intros c c' Hch; simpl.
  - intros [= <-]. exact Hch.
  - destruct (step c) as [c1| |] eqn:Hs; try discriminate.
    apply IH. eapply step_chronological; eassumption.
Qed.

End ChronologicalPreservation.

Lemma chronological_initial raws : chronological (start_of raws) (initial (start_of raws)).
Proof.
  split; unfold initial; cbn [cfg_cal cfg_column cfg_point].
  - apply (sort_by_sorted (newCalendar raws)).
  - intros k cell Hk. simpl in Hk. now rewrite lookup_empty in Hk.
  - discriminate.
Qed.

(** X10.  At every point of a layout run the events of a cell are in the
    order of time: of two events of the same cell, the one pushed first is
    not after the other in the order of [sortEvents], and it ends no later
    than the other starts. *)
Theorem cells_are_chronological raws n c k cell i j (a b : ref) :
  config_at n (initial (start_of raws)) = Some c ->
  events_calculated (cfg_cal c) !! k = Some cell ->
  i < j -> cell !! i = Some a -> cell !! j = Some b ->
  earlier_or_same (deref (cfg_cal c) a) (deref (cfg_cal c) b)
  /\ (end_ (deref (cfg_cal c) a) <= start (deref (cfg_cal c) b))%Z.
Proof.
  intros Hn Hk Hij Ha Hb.
  destruct (reachable_invariants _ _ _ Hn) as [Hinv _].
  pose proof (config_at_chronological _ _ _ _ (chronological_initial raws) Hn) as Hch.
  pose proof (StronglySorted_lookup _ _ (ch_cells _ _ Hch k cell Hk) i j a b Hij Ha Hb)
    as Hab.
  unfold in_order in Hab.
  destruct (inv_times _ _ Hinv a) as [Ha1 Ha2], (inv_times _ _ Hinv b) as [Hb1 Hb2].
  assert (Hord : earlier_or_same (deref (cfg_cal c) a) (deref (cfg_cal c) b)).
  { unfold earlier_or_same in *. lia. }
  split; [exact Hord|].
  destruct (inv_cells _ _ Hinv k cell Hk) as [Hnd Hfree].
  assert (Hne : a <> b).
  { intros ->. pose proof (NoDup_lookup _ _ _ _ Hnd Ha Hb). lia. }
  pose proof (Hfree a b (list_elem_of_lookup_2 _ _ _ Ha) (list_elem_of_lookup_2 _ _ _ Hb) Hne)
    as Hc.
  unfold checkCollision in Hc. unfold earlier_or_same in Hord.
  repeat match type of Hc with
         | (_ || _)%bool = false => apply orb_false_elim in Hc as [Hc ?]
         end.
  apply andb_false_iff in Hc as [Hc|Hc]; lia.
Qed.

Lemma cells_are_chronological_witness :
  let raws := [raw 610 670; raw 30 150; raw 560 620; raw 540 600] in
  let c := default (initial (start_of raws)) (config_at 9 (initial (start_of raws))) in
  earlier_or_same (deref (cfg_cal c) 1) (deref (cfg_cal c) 3)
  /\ (end_ (deref (cfg_cal c) 1%nat) <= start (deref (cfg_cal c) 3%nat))%Z.
Proof.
  intros raws c.
  apply (cells_are_chronological raws 9 c 0 [1; 3; 0] 0 1 1 3);
    [vm_compute; reflexivity | vm_compute; reflexivity | lia
    | reflexivity | reflexivity].
Defined.

(** ** Painting *)

Lemma array_length_lookup {A} (array : gmap nat A) k x :
  array !! k = Some x -> k < array_length array.
Proof.
  unfold array_length. revert k x.
  apply (map_fold_weak_ind
           (fun n (m : gmap nat A) => forall k x, m !! k = Some x -> k < n)).
  - intros k x Hk. now rewrite lookup_empty in Hk.
  - intros i y m n _ IH k x Hk.
    apply lookup_insert_Some in Hk as [[<- _]|[_ Hk]]; [lia|].
    specialize (IH k x Hk). lia.
Qed.

Lemma elem_of_flat_map {A B} (f : A -> list B) l y :
  y ∈ flat_map f l <-> exists x, x ∈ l /\ y ∈ f x.
Proof.
  rewrite list_elem_of_In, in_flat_map. split; intros (x & Hx & Hy); exists x.
  - now rewrite !list_elem_of_In.
  - now rewrite <- !list_elem_of_In.
Qed.

Lemma NoDup_flat_map {A B} (f : A -> list B) l :
  NoDup l ->
  (forall x, x ∈ l -> NoDup (f x)) ->
  (forall x x' y, x ∈ l -> x' ∈ l -> y ∈ f x -> y ∈ f x' -> x = x') ->
  NoDup (flat_map f l).
Proof.
  induction 1 as [|x l Hx Hnd IH]; intros Hf Hinj; simpl; [constructor|].
  apply NoDup_app. split; [apply Hf, list_elem_of_here|]. split.
  - intros y Hy Hy'. apply elem_of_flat_map in Hy' as (x' & Hx' & Hy').
    assert (x = x') as <-.
    { eapply Hinj; [apply list_elem_of_here|apply list_elem_of_further|..]; eassumption. }
    contradiction.
  - apply IH.
    + intros z Hz. apply Hf. now apply list_elem_of_further.
    + intros z z' y Hz Hz'. apply Hinj; now apply list_elem_of_further.
Qed.

Lemma StronglySorted_flat_map {A B} (R : A -> A -> Prop) (Q : B -> B -> Prop)
      (f : A -> list B) l :
  StronglySorted R l ->
  (forall x, x ∈ l -> StronglySorted Q (f x)) ->
  (forall x x' y y', R x x' -> y ∈ f x -> y' ∈ f x' -> Q y y') ->
  StronglySorted Q (flat_map f l).
Proof.
  induction 1 as [|x l Hs IH Hx]; intros Hf HQ; simpl; [constructor|].
  apply StronglySorted_app. split; [|split].
  - intros y y' Hy Hy'. apply elem_of_flat_map in Hy' as (x' & Hx' & Hy').
    rewrite Forall_forall in Hx. apply (HQ x x' y y'); [apply Hx| |]; assumption.
  - apply Hf, list_elem_of_here.
  - apply IH; [|exact HQ]. intros z Hz. apply Hf. now apply list_elem_of_further.
Qed.

Lemma StronglySorted_seq start_ len : StronglySorted lt (seq start_ len).
Proof.
  revert start_. induction len as [|len IH]; intros start_; simpl; constructor.
  - apply IH.
  - apply Forall_forall. intros x Hx. apply elem_of_seq in Hx. lia.
Qed.

Lemma elem_of_cell cal k (r : ref) :
  r ∈ default [] (events_calculated cal !! k) <-> in_cell cal k r.
Proof.
  unfold in_cell. destruct (events_calculated cal !! k) as [cell|]; simpl.
  - split; [eauto|]. intros (cell' & [= <-] & Hr). exact Hr.
  - split; [intros Hr; now apply not_elem_of_nil in Hr|].
    intros (cell' & [=] & _).
Qed.

Lemma elem_of_painting_order cal r : r ∈ painting_order cal <-> placed cal r.
Proof.
  unfold painting_order, placed. rewrite elem_of_flat_map. split.
  - intros (k & _ & Hr). exists k. apply elem_of_cell, Hr.
  - intros (k & Hk). exists k. split; [|apply elem_of_cell, Hk].
    destruct Hk as (cell & Hk & _). apply array_length_lookup in Hk.
    apply elem_of_seq. lia.
Qed.

Section PaintingProperties.

Variable string_of_Z : Z -> string.
Variable string_of_float : float -> string.

Lemma paint_cell cal events_ : forall calendar_div,
  foldl (fun calendar_div event => paint string_of_Z string_of_float cal event calendar_div)
        calendar_div events_
  = calendar_div
    ++ map (fun r => event_markup string_of_Z string_of_float (deref cal r)) events_.
Proof.
  induction events_ as [|event events_ IH]; intros calendar_div; simpl.
  - now rewrite app_nil_r.
  - rewrite IH. unfold paint. now rewrite <- app_assoc.
Qed.

Lemma paintEvents_unfold cal :
  paintEvents string_of_Z string_of_float cal
  = map (fun r => event_markup string_of_Z string_of_float (deref cal r))
        (painting_order cal).
Proof.
  unfold paintEvents, forEach, painting_order.
  generalize (seq 0 (array_length (events_calculated cal))). intros ks.
  rewrite <- (app_nil_l (map _ (flat_map _ ks))).
  generalize (@nil string). induction ks as [|k ks IH]; intros calendar_div; simpl.
  - now rewrite app_nil_r.
  - rewrite IH, map_app, app_assoc. f_equal.
    destruct (events_calculated cal !! k) as [cell|]; simpl.
    + apply paint_cell.
    + now rewrite app_nil_r.
Qed.

End PaintingProperties.

(** In a finished layout a cell holds events of its column only. *)
Lemma final_cells raws cal :
  layOutDay raws = Some (Ok cal) ->
  events cal = []
  /\ (forall k r, in_cell cal k r -> column (deref cal r) = S k)
  /\ (forall k cell, events_calculated cal !! k = Some cell -> NoDup cell /\ cell <> [])
  /\ (forall r, placed cal r <-> r < length raws).
Proof.
  intros Hrun. rewrite layOutDay_unfold in Hrun.
  apply run_final in Hrun as (n & c & Hn & <- & Hpt & Hev & Hinv).
  destruct (reachable_invariants _ _ _ Hn) as [_ Hg].
  split; [exact Hev|]. split; [apply (inv_column_field _ _ Hinv)|]. split.
  - intros k cell Hk. split; [apply (inv_cells _ _ Hinv k cell Hk)|].
    intros ->. destruct (gi_nonempty _ Hg k Hk) as (_ & Hpt' & _). congruence.
  - intros r. split.
    + intros Hp. exact (known_ref raws c r Hinv (or_intror Hp)).
    + intros Hr.
      destruct (proj2 (inv_refs _ _ Hinv r)) as [Hin|Hp]; [| |exact Hp].
      * rewrite (inv_length _ _ Hinv), start_of_objects, length_map. lia.
      * rewrite Hev in Hin. now apply not_elem_of_nil in Hin.
Qed.

Lemma painting_order_perm raws cal :
  layOutDay raws = Some (Ok cal) -> painting_order cal ≡ₚ seq 0 (length raws).
Proof.
  intros Hrun. destruct (final_cells raws cal Hrun) as (_ & Hcol & Hcells & Hplaced).
  apply NoDup_Permutation.
  - apply NoDup_flat_map; [apply NoDup_seq| |].
    + intros k _. destruct (events_calculated cal !! k) as [cell|] eqn:Hk;
        simpl; [apply (Hcells k cell Hk)|constructor].
    + intros k k' r _ _ Hk Hk'. apply elem_of_cell, Hcol in Hk, Hk'. congruence.
  - apply NoDup_seq.
  - intros r. rewrite elem_of_painting_order, elem_of_seq, Hplaced. lia.
Qed.

(** X11.  [paintEvents] paints every event of a finished layout once: the
    children of the fresh [calendar] element are the markup of the events in
    some order; that order holds each input record once, and goes by
    columns, first to last. *)
Theorem paintEvents_paints_each_event_once
        (string_of_Z : Z -> string) (string_of_float : float -> string) raws cal :
  layOutDay raws = Some (Ok cal) ->
  exists order,
    paintEvents string_of_Z string_of_float cal
    = map (fun r => event_markup string_of_Z string_of_float (deref cal r)) order
    /\ order ≡ₚ seq 0 (length raws)
    /\ StronglySorted (fun a b => column (deref cal a) <= column (deref cal b)) order.
Proof.
  intros Hrun. exists (painting_order cal). split; [apply paintEvents_unfold|].
  split; [apply (painting_order_perm raws cal Hrun)|].
  destruct (final_cells raws cal Hrun) as (_ & Hcol & _).
  assert (Hcell : forall k r,
             r ∈ default [] (events_calculated cal !! k) -> column (deref cal r) = S k).
  { intros k r Hr. apply Hcol, elem_of_cell, Hr. }
  apply (StronglySorted_flat_map lt); [apply StronglySorted_seq| |].
  - intros k _.
    assert (Hall : Forall (fun r => column (deref cal r) = S k)
                          (default [] (events_calculated cal !! k))).
    { apply Forall_forall. intros r Hr. apply Hcell, Hr. }
    induction Hall as [|r l Hr Hl IH]; constructor; [exact IH|].
    eapply Forall_impl; [exact Hl|]. simpl. intros r' Hr'. lia.
  - intros k k' r r' Hkk Hr Hr'. apply Hcell in Hr, Hr'. lia.
Qed.

Lemma paintEvents_paints_each_event_once_witness :
  let raws := [raw 30 150; raw 540 600; raw 560 620; raw 610 670] in
  let cal := match layOutDay raws with Some (Ok cal) => cal | _ => newCalendar [] end in
  let string_of_Z := fun z : Z => DecimalString.NilZero.string_of_int (Z.to_int z) in
  let string_of_float := fun _ : float => "?" in
  exists order,
    paintEvents string_of_Z string_of_float cal
    = map (fun r => event_markup string_of_Z string_of_float (deref cal r)) order
    /\ order ≡ₚ seq 0 (length raws)
    /\ StronglySorted (fun a b => column (deref cal a) <= column (deref cal b)) order.
Proof.
  intros raws cal string_of_Z string_of_float.
  apply (paintEvents_paints_each_event_once string_of_Z string_of_float raws cal).
  vm_compute. reflexivity.
Defined.

(** ** The number of columns *)

Lemma array_length_least {A} (array : gmap nat A) :
  array_length array = 0
  \/ exists k x, array !! k = Some x /\ array_length array = S k.
Proof.
  unfold array_length.
  apply (map_fold_weak_ind
           (fun n (m : gmap nat A) =>
              n = 0 \/ exists k x, m !! k = Some x /\ n = S k)).
  - left. reflexivity.
  - intros i y m n Hi IH. right.
    destruct (decide (n <= S i)) as [Hle|Hgt].
    + exists i, y. rewrite lookup_insert_eq. split; [reflexivity|lia].
    + destruct IH as [->|(k & x & Hk & ->)]; [lia|].
      exists k, x. rewrite lookup_insert_ne by congruence. split; [exact Hk|lia].
Qed.

Lemma length_flat_map_nonempty {A B} (f : A -> list B) l :
  (forall x, x ∈ l -> f x <> []) -> length l <= length (flat_map f l).
Proof.
  induction l as [|x l IH]; intros Hf; simpl; [lia|].
  rewrite length_app.
  assert (f x <> []) by apply Hf, list_elem_of_here.
  assert (length l <= length (flat_map f l)).
  { apply IH. intros z Hz. apply Hf. now apply list_elem_of_further. }
  destruct (f x); [congruence|simpl; lia].
Qed.

(** X12.  A finished layout has no more columns than events: the cells are
    those of the indices below the length of [events_calculated], that
    length is at most the number of input records, and the [column] of
    every event is between 1 and it. *)
Theorem columns_at_most_events raws cal :
  layOutDay raws = Some (Ok cal) ->
  let columns := array_length (events_calculated cal) in
  columns <= length raws
  /\ (forall k, is_Some (events_calculated cal !! k) <-> k < columns)
  /\ forall r, r < length raws -> 1 <= column (deref cal r) <= columns.
Proof.
  intros Hrun columns.
  destruct (final_cells raws cal Hrun) as (_ & Hcol & Hcells & Hplaced).
  assert (Hdense : forall k, is_Some (events_calculated cal !! k) <-> k < columns).
  { rewrite layOutDay_unfold in Hrun.
    apply run_final in Hrun as (n & c & Hn & <- & Hpt & Hev & Hinv).
    intros k. split; [intros [cell Hk]; eapply array_length_lookup, Hk|].
    intros Hk. apply (inv_dense _ _ Hinv).
    destruct (array_length_least (events_calculated (cfg_cal c)))
      as [H0|(k' & x & Hk' & HS)]; fold columns in H0 || fold columns in HS; [lia|].
    apply (inv_limit _ _ Hinv) in Hk'. lia. }
  split; [|split; [exact Hdense|]].
  - assert (Hlen : length (painting_order cal) = length raws).
    { rewrite (painting_order_perm raws cal Hrun). apply length_seq. }
    rewrite <- Hlen. unfold painting_order. fold columns.
    etransitivity; [|apply length_flat_map_nonempty].
    + now rewrite length_seq.
    + intros k Hk. apply elem_of_seq in Hk.
      destruct (proj2 (Hdense k) ltac:(lia)) as [cell Hcell]. rewrite Hcell. simpl.
      apply (Hcells k cell Hcell).
  - intros r Hr. apply Hplaced in Hr as (k & Hk).
    rewrite (Hcol k r Hk). destruct Hk as (cell & Hk & _).
    apply array_length_lookup in Hk. fold columns in Hk. lia.
Qed.

Lemma columns_at_most_events_witness :
  let raws := [raw 30 150; raw 540 600; raw 560 620; raw 610 670] in
  let cal := match layOutDay raws with Some (Ok cal) => cal | _ => newCalendar [] end in
  let columns := array_length (events_calculated cal) in
  columns <= length raws
  /\ (forall k, is_Some (events_calculated cal !! k) <-> k < columns)
  /\ forall r, r < length raws -> 1 <= column (deref cal r) <= columns.
Proof.
  intros raws cal.
  apply (columns_at_most_events raws cal). vm_compute. reflexivity.
Defined.

(** ** [checkCollision] on one event and on two *)

(** X13.  [checkCollision] does not depend on which of the two events is
    [this]; and an event collides with itself exactly when its [start] is
    before its [end]. *)
Theorem checkCollision_symmetric (a b : Event) :
  checkCollision a b = checkCollision b a
  /\ (checkCollision a a = true <-> (start a < end_ a)%Z).
Proof.
  split.
  - unfold checkCollision.
    destruct (start a <=? start b)%Z, (start b <? end_ a)%Z, (start a <? end_ b)%Z,
      (end_ b <=? end_ a)%Z, (start b <=? start a)%Z, (end_ a <=? end_ b)%Z; reflexivity.
  - unfold checkCollision.
    rewrite !orb_true_iff, !andb_true_iff, !Z.leb_le, !Z.ltb_lt. lia.
Qed.

(** * The clusters when the merge lists ascend *)

(** ** Lists of clusters *)

Lemma ascending_sorted l : ascending l = true -> StronglySorted lt l.
Proof.
  intros Hl. apply Sorted_StronglySorted; [intros x y z; lia|].
  induction l as [|a l IH]; [constructor|].
  destruct l as [|b l]; [repeat constructor|].
  simpl in Hl. apply andb_true_iff in Hl as [Hab Hl]. apply Nat.ltb_lt in Hab.
  constructor; [apply IH, Hl|constructor; exact Hab].
Qed.

Lemma inArray_from_elem_of x l : forall i,
  (inArray_from i x l >? -1)%Z = true <-> x ∈ l.
Proof.
  induction l as [|y l IH]; intros i; simpl.
  - split; [discriminate|intros H; now apply not_elem_of_nil in H].
  - destruct (decide (x = y)) as [->|Hne].
    + split; [intros _; apply list_elem_of_here|intros _; apply Z.gtb_lt; lia].
    + rewrite IH, elem_of_cons. split; [auto|intros [?|?]; [contradiction|assumption]].
Qed.

Lemma clusters_containing_from_elem_of x clusters : forall index k cluster,
  clusters !! k = Some cluster -> x ∈ cluster ->
  index + k ∈ clusters_containing_from index x clusters.
Proof.
  induction clusters as [|c clusters IH]; intros index k cluster Hk Hx; [discriminate|].
  simpl. destruct k as [|k]; simpl in Hk.
  - injection Hk as ->. unfold inArray.
    rewrite (proj2 (inArray_from_elem_of x cluster 0) Hx), Nat.add_0_r.
    apply list_elem_of_here.
  - specialize (IH (S index) k cluster Hk Hx).
    replace (index + S k) with (S index + k) by lia.
    destruct (inArray x c >? -1)%Z; [apply list_elem_of_further|]; exact IH.
Qed.

Lemma collision_clusters_to_merge_covers cal event x k cluster :
  x ∈ collisions (deref cal event) ->
  collision_clusters cal !! k = Some cluster -> x ∈ cluster ->
  k ∈ collision_clusters_to_merge cal event.
Proof.
  intros Hx Hk Hin. unfold collision_clusters_to_merge.
  rewrite removeDuplicates_keep_first, keep_first_elem_of.
  split; [|apply not_elem_of_nil].
  apply elem_of_flat_map. exists x. split; [exact Hx|].
  apply (clusters_containing_from_elem_of x _ 0 k cluster Hk Hin).
Qed.

Lemma lookup_concat {A} (l : list (list A)) k c x :
  l !! k = Some c -> x ∈ c -> x ∈ concat l.
Proof.
  intros Hk Hx. apply list_elem_of_In, in_concat. exists c.
  split; apply list_elem_of_In; [eapply list_elem_of_lookup_2, Hk|exact Hx].
Qed.

Lemma concat_lookup {A} (l : list (list A)) x :
  x ∈ concat l -> exists k c, l !! k = Some c /\ x ∈ c.
Proof.
  intros Hx. apply list_elem_of_In, in_concat in Hx as (c & Hc & Hx).
  apply list_elem_of_In, list_elem_of_lookup_1 in Hc as [k Hk].
  exists k, c. split; [exact Hk|apply list_elem_of_In, Hx].
Qed.

Lemma concat_NoDup_lookup {A} (l : list (list A)) : forall k k' c c' x,
  NoDup (concat l) ->
  l !! k = Some c -> l !! k' = Some c' -> x ∈ c -> x ∈ c' -> k = k'.
Proof.
  induction l as [|d l IH]; intros k k' c c' x Hnd Hk Hk' Hx Hx'; [discriminate|].
  simpl in Hnd. apply NoDup_app in Hnd as (_ & Hdis & Hnd).
  destruct k as [|k], k' as [|k']; simpl in Hk, Hk'.
  - reflexivity.
  - injection Hk as ->. destruct (Hdis x Hx). eapply lookup_concat; eassumption.
  - injection Hk' as ->. destruct (Hdis x Hx'). eapply lookup_concat; eassumption.
  - f_equal. eapply IH; eassumption.
Qed.

(** What is left after the splices is what was at the indices not spliced
    out, each no further left than it was. *)
Lemma splice_clusters_lookup ks :
  StronglySorted lt ks ->
  forall (clusters : list (list ref)) q c,
    splice_clusters clusters (rev ks) !! q = Some c ->
    exists k, q <= k /\ (k ∉ ks) /\ clusters !! k = Some c.
Proof.
  induction ks as [|k ks IH] using rev_ind; intros Hsorted clusters q c Hq.
  - exists q. split; [lia|]. split; [apply not_elem_of_nil|exact Hq].
  - apply StronglySorted_app in Hsorted as (Hlast & Hs & _).
    assert (Hlt : forall k0, k0 ∈ ks -> k0 < k).
    { intros k0 Hk0. apply Hlast; [exact Hk0|apply list_elem_of_here]. }
    rewrite rev_app_distr in Hq. simpl in Hq. unfold splice_clusters in *. simpl in Hq.
    destruct (IH Hs (delete k clusters) q c Hq) as (k' & Hqk & Hk' & Hc).
    destruct (decide (k' < k)) as [Hlow|Hhigh].
    + exists k'. rewrite list_lookup_delete_lt in Hc by exact Hlow.
      split; [exact Hqk|]. split; [|exact Hc].
      rewrite elem_of_app, list_elem_of_singleton. intros [?|?]; [contradiction|lia].
    + exists (S k'). rewrite list_lookup_delete_ge in Hc by lia.
      split; [lia|]. split; [|exact Hc].
      rewrite elem_of_app, list_elem_of_singleton. intros [Hin|?]; [|lia].
      specialize (Hlt _ Hin). lia.
Qed.

(** ** [determineCollisionClusters] on disjoint clusters *)

Lemma determineCollisionClusters_clusters cal event cal' idx :
  event ∉ concat (collision_clusters cal) ->
  (forall x, x ∈ collisions (deref cal event) -> x ∈ concat (collision_clusters cal)) ->
  StronglySorted lt (collision_clusters_to_merge cal event) ->
  determineCollisionClusters cal event = Ok (cal', idx) ->
  exists cluster,
    collision_clusters cal' !! idx = Some cluster
    /\ event ∈ cluster
    /\ (forall x, x ∈ collisions (deref cal event) -> x ∈ cluster)
    /\ concat (collision_clusters cal') ≡ₚ concat (collision_clusters cal) ++ [event]
    /\ (forall r, r ∈ cluster ->
          r = event
          \/ exists k c, collision_clusters cal !! k = Some c /\ r ∈ c
                         /\ forall y, y ∈ c -> y ∈ cluster)
    /\ (forall q c, collision_clusters cal' !! q = Some c -> q <> idx ->
          exists k, collision_clusters cal !! k = Some c).
Proof.
  intros Hnew Hcovered Hsorted. rewrite determineCollisionClusters_unfold.
  set (clusters := collision_clusters cal) in *.
  destruct (collisions (deref cal event)) as [|c0 cs] eqn:Hcoll.
  - intros [= <- <-]. simpl. fold clusters. exists [event].
    split; [rewrite lookup_app_r by lia; now rewrite Nat.sub_diag|].
    split; [apply list_elem_of_here|].
    split; [intros x Hx; now apply not_elem_of_nil in Hx|].
    split; [rewrite concat_app; simpl; reflexivity|]. split.
    + intros r Hr. left. now apply list_elem_of_singleton in Hr.
    + intros q c Hq Hne. exists q. apply lookup_app_Some in Hq as [Hq|[Hge Hq]]; [exact Hq|].
      destruct (q - length clusters) as [|d] eqn:Hd; [lia|]. destruct d; discriminate.
  - destruct (collision_clusters_to_merge cal event) as [|idx0 others] eqn:Htm;
      [discriminate|].
    apply StronglySorted_inv in Hsorted as [Hs Hidx]. rewrite Forall_forall in Hidx.
    assert (Hbound : forall k, k ∈ idx0 :: others -> k < length clusters).
    { intros k Hk. apply (collision_clusters_to_merge_bound cal event). rewrite Htm. exact Hk. }
    destruct (lookup_lt_is_Some_2 _ _ (Hbound idx0 (list_elem_of_here _ _))) as [c Hc].
    assert (Hothers : forall k, k ∈ others -> idx0 < k /\ k < length clusters).
    { intros k Hk. split; [apply Hidx, Hk|]. apply Hbound. now apply list_elem_of_further. }
    set (gathered := flat_map (fun k => default [] (clusters !! k)) others).
    rewrite (concat_clusters_spec idx0 others clusters c Hc).
    2:{ intros k Hk. destruct (Hothers k Hk). split; lia. }
    simpl. fold gathered.
    set (merged := <[idx0 := c ++ gathered]> clusters).
    assert (Hlen_m : length merged = length clusters) by apply length_insert.
    destruct (splice_clusters_descending others Hs merged) as (Hperm & Hlen & Hlook).
    { intros k Hk. rewrite Hlen_m. apply Hothers, Hk. }
    pose proof (splice_clusters_lookup others Hs merged) as Hleft.
    set (spliced := splice_clusters merged (rev others)) in *.
    rewrite (flat_map_ext_elem _ (fun k => default [] (clusters !! k))) in Hperm.
    2:{ intros k Hk. unfold merged. destruct (Hothers k Hk).
        rewrite list_lookup_insert_ne by lia. reflexivity. }
    fold gathered in Hperm.
    assert (Hidx_s : spliced !! idx0 = Some (c ++ gathered)).
    { rewrite Hlook by (intros k Hk; apply Hothers, Hk).
      apply list_lookup_insert_eq. eapply lookup_lt_Some, Hc. }
    rewrite Hidx_s. intros [= <- <-]. simpl.
    assert (Hm : concat merged ≡ₚ concat clusters ++ gathered).
    { unfold merged. rewrite concat_insert by (eapply lookup_lt_Some, Hc).
      rewrite (concat_delete clusters idx0 c Hc), <- !app_assoc.
      apply Permutation_app_head, Permutation_app_comm. }
    assert (Hs_c : concat spliced ≡ₚ concat clusters).
    { apply (Permutation_app_inv_r gathered). rewrite <- Hperm. exact Hm. }
    assert (Hgathered : forall y,
               y ∈ gathered <-> exists k ck, k ∈ others /\ clusters !! k = Some ck /\ y ∈ ck).
    { intros y. unfold gathered. rewrite elem_of_flat_map. split.
      - intros (k & Hk & Hy). destruct (clusters !! k) as [ck|] eqn:Hck; simpl in Hy.
        + exists k, ck. auto.
        + now apply not_elem_of_nil in Hy.
      - intros (k & ck & Hk & Hck & Hy). exists k. rewrite Hck. auto. }
    exists ((c ++ gathered) ++ [event]).
    split; [apply list_lookup_insert_eq; eapply lookup_lt_Some, Hidx_s|].
    split; [apply elem_of_app; right; apply list_elem_of_here|]. split; [|split; [|split]].
    + intros x Hx. destruct (concat_lookup _ _ (Hcovered x Hx)) as (k & ck & Hk & Hxk).
      pose proof (collision_clusters_to_merge_covers cal event x k ck) as Hin.
      rewrite Hcoll, Htm in Hin. specialize (Hin Hx Hk Hxk).
      apply elem_of_app. left. apply elem_of_app.
      apply elem_of_cons in Hin as [->|Hin].
      * left. fold clusters in Hk. rewrite Hc in Hk. injection Hk as <-. exact Hxk.
      * right. apply Hgathered. exists k, ck. auto.
    + rewrite concat_insert by (eapply lookup_lt_Some, Hidx_s).
      rewrite <- Hs_c, (concat_delete spliced idx0 _ Hidx_s), <- !app_assoc.
      do 2 apply Permutation_app_head. apply Permutation_app_comm.
    + intros r Hr. apply elem_of_app in Hr as [Hr|Hr];
        [|left; now apply list_elem_of_singleton in Hr].
      right. apply elem_of_app in Hr as [Hr|Hr].
      * exists idx0, c. split; [exact Hc|]. split; [exact Hr|].
        intros y Hy. apply elem_of_app. left. apply elem_of_app. left. exact Hy.
      * apply Hgathered in Hr as (k & ck & Hk & Hck & Hr).
        exists k, ck. split; [exact Hck|]. split; [exact Hr|].
        intros y Hy. apply elem_of_app. left. apply elem_of_app. right.
        apply Hgathered. exists k, ck. auto.
    + intros q cq Hq Hne. rewrite list_lookup_insert_ne in Hq by congruence.
      destruct (decide (q < idx0)) as [Hlow|Hhigh].
      * exists q. rewrite Hlook in Hq by (intros k Hk; destruct (Hothers k Hk); lia).
        unfold merged in Hq. rewrite list_lookup_insert_ne in Hq by lia. exact Hq.
      * destruct (Hleft q cq Hq) as (k & Hqk & _ & Hk). exists k.
        unfold merged in Hk. rewrite list_lookup_insert_ne in Hk by lia. exact Hk.
Qed.

(** ** The invariant of the clusters *)

Section ClusterPreservation.

Variable cal0 : Calendar.

Lemma clustered_open cal column_ :
  invariant cal0 (mkConfig cal column_ AtWhile) ->
  clustered (mkConfig cal column_ AtWhile) ->
  clustered
    (mkConfig (set_events_calculated cal (<[column_ - 1 := []]> (events_calculated cal)))
              column_ (AtFor 0)).
Proof.
  intros Hinv [Hdis Hpl Hsz Hco]. cbn [cfg_cal cfg_column cfg_point cells_limit] in *.
  set (cal' := set_events_calculated cal _).
  assert (Hnone : events_calculated cal !! (column_ - 1) = None).
  { destruct (events_calculated cal !! (column_ - 1)) as [cell|] eqn:Hc; [|reflexivity].
    apply (inv_limit _ _ Hinv) in Hc. cbn in Hc. lia. }
  assert (Hcells : forall k r, in_cell cal' k r <-> in_cell cal k r).
  { intros k r. eapply in_cell_fresh; [reflexivity|exact Hnone]. }
  assert (Hplaced : forall r, placed cal' r <-> placed cal r).
  { intros r. unfold placed. split; intros [k Hk]; exists k; apply Hcells, Hk. }
  split; cbn [cfg_cal cfg_column cfg_point cells_limit].
  - exact Hdis.
  - intros r. rewrite Hplaced. apply Hpl.
  - intros k cluster Hk. destruct (Hsz k cluster Hk) as (n & Hn & Hall).
    exists n. split; [lia|exact Hall].
  - intros r x Hr Hx. apply Hplaced in Hr. exact (Hco r x Hr Hx).
Qed.

Lemma clustered_close cal column_ i :
  invariant cal0 (mkConfig cal column_ (AtFor i)) ->
  clustered (mkConfig cal column_ (AtFor i)) ->
  clustered (mkConfig cal (S column_) AtWhile).
Proof.
  intros Hinv [Hdis Hpl Hsz Hco]. cbn [cfg_cal cfg_column cfg_point cells_limit] in *.
  split; cbn [cfg_cal cfg_column cfg_point cells_limit]; try assumption.
  intros k cluster Hk. destruct (Hsz k cluster Hk) as (n & Hn & Hall).
  exists n. split; [lia|exact Hall].
Qed.

Lemma clustered_skip cal column_ i :
  clustered (mkConfig cal column_ (AtFor i)) ->
  clustered (mkConfig cal column_ (AtFor (S i))).
Proof. intros [Hdis Hpl Hsz Hco]. split; assumption. Qed.

Lemma clustered_place cal column_ i event cal' :
  invariant cal0 (mkConfig cal column_ (AtFor i)) ->
  greedy_invariant (mkConfig cal column_ (AtFor i)) ->
  clustered (mkConfig cal column_ (AtFor i)) ->
  events cal !! i = Some event ->
  getCollidingEvents cal event column_ = Ok [] ->
  ascending (merge_list (mkConfig cal column_ (AtFor i))) = true ->
  place cal i event column_ = Ok cal' ->
  clustered (mkConfig cal' column_ (AtFor i)).
Proof.
  intros Hinv Hg [Hdis Hpl Hsz Hco] Hi Hgc Hasc Hplace.
  cbn [cfg_cal cfg_column cfg_point cells_limit] in *.
  assert (Hevin : event ∈ events cal) by (eapply list_elem_of_lookup_2, Hi).
  assert (Hvalid : event < length (objects cal)).
  { apply (inv_refs _ _ Hinv). left. exact Hevin. }
  assert (Hunplaced : ~ placed cal event) by (apply (inv_unplaced _ _ Hinv), Hevin).
  assert (Hbound : forall r, placed cal r -> r < length (objects cal)).
  { intros r Hr. apply (inv_refs _ _ Hinv). right. exact Hr. }
  pose proof (place_spec _ _ _ _ _ Hplace)
    as (cell & Hcell & _ & Hec & Hw & Hlen & _ & Hcolother & Hcolevent & _).
  specialize (Hcolevent Hvalid).
  assert (Hplaced : forall r, placed cal' r <-> placed cal r \/ r = event).
  { intros r. unfold placed. split.
    - intros [k Hk]. apply (in_cell_push _ _ _ _ _ _ _ Hec Hcell) in Hk as [Hk|[_ ->]]; eauto.
    - intros [[k Hk]| ->].
      + exists k. apply (in_cell_push _ _ _ _ _ _ _ Hec Hcell). left. exact Hk.
      + exists (column_ - 1). apply (in_cell_push _ _ _ _ _ _ _ Hec Hcell). right. auto. }
  unfold merge_list in Hasc. cbn [cfg_cal cfg_column cfg_point] in Hasc.
  rewrite Hi, Hgc, Hcell in Hasc.
  rewrite place_unfold, Hcell in Hplace.
  set (cal3 := moved cal i event column_ cell) in *.
  destruct (determineCollidingEvents cal3 event) as [cal4|] eqn:H4; simpl in Hplace;
    [|discriminate].
  destruct (determineCollisionClusters cal4 event) as [[cal5 idx]|] eqn:H5; simpl in Hplace;
    [|discriminate].
  destruct (collision_clusters cal5 !! idx) as [cluster|] eqn:Hcl; [|discriminate].
  injection Hplace as <-.
  apply ascending_sorted in Hasc.
  assert (L3 : length (objects cal3) = length (objects cal)).
  { unfold cal3, moved. rewrite length_objects_update. reflexivity. }
  assert (C4 : collision_clusters cal4 = collision_clusters cal).
  { apply determineCollidingEvents_spec in H4 as (_ & -> & _). reflexivity. }
  destruct (determineCollidingEvents_collisions _ _ _ H4) as [Hother Hthis].
  destruct Hthis as (l & Hl & Hcoll4); [rewrite L3; exact Hvalid|].
  assert (D4 : forall r, r <> event -> deref cal4 r = deref cal r).
  { intros r Hne. rewrite (Hother r Hne).
    apply (moved_deref cal i event column_ cell r), Hne. }
  assert (Hcovered : forall x,
             x ∈ collisions (deref cal4 event) -> x ∈ concat (collision_clusters cal4)).
  { intros x Hx. rewrite C4. apply Hpl.
    rewrite Hcoll4, removeDuplicates_keep_first, keep_first_elem_of in Hx.
    destruct Hx as [Hx _].
    apply (collidingEvents_loop_elem_of _ _ _ _ _ Hl x) in Hx.
    destruct (moved_deref cal i event column_ cell event) as (_ & _ & Hce & Hcol).
    fold cal3 in Hce, Hcol. pose proof (gi_waiting _ Hg event Hevin) as Hnone.
    cbn [cfg_cal] in Hnone. rewrite Hce, Hnone in Hx.
    destruct Hx as [Hx|(k & Hk & Hin & _)]; [now apply not_elem_of_nil in Hx|].
    rewrite (Hcol Hvalid) in Hk.
    apply (moved_in_cell _ _ _ _ _ _ _ Hcell) in Hin as [Hin|[-> _]]; [|lia].
    exists k. exact Hin. }
  assert (Hnew : event ∉ concat (collision_clusters cal4)).
  { rewrite C4. intros Hin. apply Hunplaced, Hpl, Hin. }
  destruct (determineCollisionClusters_clusters _ _ _ _ Hnew Hcovered Hasc H5)
    as (cluster' & Hcl' & Hev & Hcolls & Hperm & Hmembers & Hrest).
  rewrite Hcl in Hcl'. injection Hcl' as <-. rewrite C4 in Hperm, Hmembers, Hrest.
  apply determineCollisionClusters_spec in H5 as (O5 & W5 & _).
  assert (D5 : forall r, deref cal5 r = deref cal4 r)
    by (intros r; apply deref_objects, O5).
  destruct (resize_all_spec cluster cal5 column_) as (Hstep6 & C6 & D6).
  set (cal6 := foldl (fun c r => resize c r column_) cal5 cluster) in *.
  pose proof (ls_width _ _ Hstep6) as W6.
  assert (L5 : length (objects cal5) = length (objects cal)).
  { rewrite O5. apply determineCollidingEvents_spec in H4 as (Hstep & _).
    rewrite (ls_length _ _ Hstep). exact L3. }
  assert (Hnd' : NoDup (concat (collision_clusters cal5))).
  { rewrite Hperm. apply NoDup_app. split; [exact Hdis|].
    split; [|apply NoDup_singleton].
    intros x Hx Hx'. apply list_elem_of_singleton in Hx' as ->.
    apply Hunplaced, Hpl, Hx. }
  assert (Hin' : forall r,
             r ∈ concat (collision_clusters cal5) <-> placed cal r \/ r = event).
  { intros r. rewrite Hperm, elem_of_app, list_elem_of_singleton, Hpl. reflexivity. }
  assert (Hmember_valid : forall r, r ∈ cluster -> r < length (objects cal5)).
  { intros r Hr. rewrite L5.
    destruct (proj1 (Hin' r) (lookup_concat _ _ _ _ Hcl Hr)) as [Hp| ->];
      [apply Hbound, Hp|exact Hvalid]. }
  split; cbn [cfg_cal cfg_column cfg_point cells_limit]; rewrite ?C6.
  - exact Hnd'.
  - intros r. rewrite Hin', Hplaced. reflexivity.
  - intros q c Hq. destruct (decide (q = idx)) as [->|Hne].
    + rewrite Hcl in Hq. injection Hq as <-. exists column_. split; [lia|].
      intros r Hr. rewrite D6, decide_True by (split; [exact Hr|apply Hmember_valid, Hr]).
      split; [|rewrite W6; apply sized_resizeEvent].
      cbn [resizeEvent column]. rewrite D5.
      destruct (decide (r = event)) as [->|Hre].
      * apply determineCollidingEvents_spec in H4 as (Hstep & _).
        rewrite (ls_column _ _ Hstep event).
        destruct (moved_deref cal i event column_ cell event) as (_ & _ & _ & Hcol).
        fold cal3 in Hcol. rewrite (Hcol Hvalid). lia.
      * rewrite (D4 r Hre).
        destruct (proj1 (Hin' r) (lookup_concat _ _ _ _ Hcl Hr)) as [[k Hk]|?];
          [|contradiction].
        pose proof (inv_column_field _ _ Hinv k r Hk) as Hfield.
        cbn [cfg_cal] in Hfield. rewrite Hfield.
        destruct Hk as (cell' & Hk & _). apply (inv_limit _ _ Hinv) in Hk. cbn in Hk. lia.
    + destruct (Hrest q c Hq Hne) as (k & Hk).
      destruct (Hsz k c Hk) as (n & Hn & Hall). exists n. split; [exact Hn|].
      intros r Hr.
      assert (Hout : r ∉ cluster).
      { intros Hin. apply Hne.
        exact (concat_NoDup_lookup _ _ _ _ _ _ Hnd' Hq Hcl Hr Hin). }
      assert (Hre : r <> event).
      { intros ->. apply Hunplaced, Hpl. eapply lookup_concat; eassumption. }
      rewrite D6, decide_False by (intros [? _]; contradiction).
      rewrite D5, (D4 r Hre), Hw. apply Hall, Hr.
  - intros r x Hr Hx.
    assert (Hcolls' : collisions (deref cal6 r) = collisions (deref cal4 r)).
    { rewrite D6, <- D5. case_decide; reflexivity. }
    rewrite Hcolls' in Hx.
    destruct (decide (r = event)) as [->|Hre].
    + exists idx, cluster. split; [exact Hcl|]. split; [exact Hev|apply Hcolls, Hx].
    + apply Hplaced in Hr as [Hr|?]; [|contradiction].
      rewrite (D4 r Hre) in Hx.
      destruct (Hco r x Hr Hx) as (k & c & Hk & Hrc & Hxc).
      destruct (concat_lookup (collision_clusters cal5) r) as (q & c' & Hq & Hrq).
      { apply Hin'. left. exact Hr. }
      exists q, c'. split; [exact Hq|]. split; [exact Hrq|].
      destruct (decide (q = idx)) as [->|Hne].
      * rewrite Hcl in Hq. injection Hq as <-.
        destruct (Hmembers r Hrq) as [?|(k1 & c1 & Hk1 & Hr1 & Hsub)]; [contradiction|].
        assert (k1 = k) as -> by exact (concat_NoDup_lookup _ _ _ _ _ _ Hdis Hk1 Hk Hr1 Hrc).
        rewrite Hk in Hk1. injection Hk1 as <-. apply Hsub, Hxc.
      * destruct (Hrest q c' Hq Hne) as (k2 & Hk2).
        assert (k2 = k) as -> by exact (concat_NoDup_lookup _ _ _ _ _ _ Hdis Hk2 Hk Hrq Hrc).
        rewrite Hk in Hk2. injection Hk2 as <-. exact Hxc.
Qed.

End ClusterPreservation.

Lemma step_clustered cal0 c c' :
  invariant cal0 c -> greedy_invariant c -> clustered c ->
  ascending (merge_list c) = true ->
  step c = Next c' -> clustered c'.
Proof.
  destruct c as [cal column_ [|i]]; unfold step; simpl; intros Hinv Hg Hcl Hasc.
  - destruct (events cal) eqn:He; [discriminate|]. intros [= <-].
    eapply clustered_open; eassumption.
  - destruct (events cal !! i) as [event|] eqn:Hi.
    + destruct (getCollidingEvents cal event column_) as [[|x xs]|] eqn:Hgc;
        [|intros [= <-]; eapply clustered_skip; eassumption|discriminate].
      destruct (place cal i event column_) as [cal'|] eqn:Hp; [|discriminate].
      intros [= <-]. eapply clustered_place; eassumption.
    + intros [= <-]. eapply clustered_close; eassumption.
Qed.

Lemma clustered_initial raws : clustered (initial (start_of raws)).
Proof.
  assert (Hnopl : forall r, ~ placed (start_of raws) r).
  { intros r (k & cell & Hk & _). simpl in Hk. now rewrite lookup_empty in Hk. }
  split; unfold initial; cbn [cfg_cal cfg_column cfg_point].
  - constructor.
  - intros r. split; [intros Hr; now apply not_elem_of_nil in Hr|].
    intros Hr. destruct (Hnopl r Hr).
  - intros k cluster Hk. discriminate.
  - intros r x Hr. destruct (Hnopl r Hr).
Qed.

(** A run whose merge lists ascend ends with the three invariants. *)
Lemma run_clustered cal0 fuel : forall c cal,
  invariant cal0 c -> greedy_invariant c -> clustered c ->
  merges_ascending fuel c = true ->
  run fuel c = Some (Ok cal) ->
  exists c',
    cfg_cal c' = cal /\ cfg_point c' = AtWhile /\ events cal = []
    /\ invariant cal0 c' /\ greedy_invariant c' /\ clustered c'.
Proof.
  induction fuel as [|fuel IH]; intros c cal Hinv Hg Hcl; simpl; [discriminate|].
  intros Hasc. apply andb_true_iff in Hasc as [Hasc Hrest].
  destruct (step c) as [c1|cal1|] eqn:Hs; [|intros [= <-]|discriminate].
  - apply IH; [eapply step_invariant|eapply step_greedy|eapply step_clustered|exact Hrest];
      eassumption.
  - apply step_return in Hs as (Hc & Hpt & Hev). exists c. subst cal1. auto 10.
Qed.

(** ** C1, amended: colliding events of one cluster *)

(** The merge lists of the script's own example ascend, as do those of the
    nine events that all overlap; those of [eight_events] and of
    [six_events] do not. *)
Example merges_of_the_examples :
  merges_ascending 25 (initial (start_of [raw 30 150; raw 540 600; raw 560 620; raw 610 670]))
  = true
  /\ merges_ascending 100 (initial (start_of (repeat (raw 0 1) 9))) = true
  /\ merges_ascending 81 (initial (start_of eight_events)) = false
  /\ merges_ascending 49 (initial (start_of six_events)) = false.
Proof. repeat split; vm_compute; reflexivity. Qed.

(** C1, amended.  Take a finished layout in whose run every merge list
    ascended.  Two different input records that collide are in different
    columns and in one cluster.  The members of that cluster are all sized
    for one column [n] of the layout, none left of which they are: the
    [width] of each is 600 divided by [n], its [left] that width times
    [column - 1].  So the ranges of the two are disjoint in exact
    arithmetic, and in the doubles of the script when [n <= 8]. *)
Theorem colliding_events_apart raws cal i j :
  layOutDay raws = Some (Ok cal) ->
  merges_ascending (steps_bound (length raws)) (initial (start_of raws)) = true ->
  i < length raws ->
  j < length raws ->
  i <> j ->
  checkCollision (deref cal i) (deref cal j) = true ->
  column (deref cal i) <> column (deref cal j)
  /\ exists cluster n,
       cluster ∈ collision_clusters cal
       /\ i ∈ cluster /\ j ∈ cluster
       /\ is_Some (events_calculated cal !! (n - 1))
       /\ (forall r, r ∈ cluster ->
             column (deref cal r) <= n /\ sized 600 n (deref cal r))
       /\ ((exact_left n (column (deref cal i)) + exact_width n
            <= exact_left n (column (deref cal j)))%Q
           \/ (exact_left n (column (deref cal j)) + exact_width n
               <= exact_left n (column (deref cal i)))%Q)
       /\ (n <= 8 -> disjoint_ranges (deref cal i) (deref cal j) = true).
Proof.
  intros Hrun Hasc Hi Hj Hij Hcoll.
  rewrite layOutDay_unfold in Hrun.
  assert (Hlen : length (events (start_of raws)) = length raws).
  { rewrite (start_of_events raws). apply length_seq. }
  rewrite Hlen in Hrun.
  destruct (run_clustered (start_of raws) _ _ _ (invariant_initial raws)
              (greedy_initial raws) (clustered_initial raws) Hasc Hrun)
    as (c & <- & Hpt & Hev & Hinv & Hg & Hcl).
  assert (Hplaced : forall r, r < length raws -> placed (cfg_cal c) r).
  { intros r Hr. destruct (proj2 (inv_refs _ _ Hinv r)) as [Hin|Hp]; [| |exact Hp].
    - rewrite (inv_length _ _ Hinv), start_of_objects, length_map. exact Hr.
    - rewrite Hev in Hin. now apply not_elem_of_nil in Hin. }
  destruct (Hplaced i Hi) as [ki Hki]. destruct (Hplaced j Hj) as [kj Hkj].
  pose proof (inv_column_field _ _ Hinv ki i Hki) as Hci.
  pose proof (inv_column_field _ _ Hinv kj j Hkj) as Hcj.
  assert (Hcols : column (deref (cfg_cal c) i) <> column (deref (cfg_cal c) j)).
  { intros Heq.
    apply (same_cells_do_not_collide _ _ Hinv i j); [eexists; exact Hki|eexists; exact Hkj|..];
      assumption. }
  split; [exact Hcols|].
  assert (Hsame : exists k cluster,
             collision_clusters (cfg_cal c) !! k = Some cluster
             /\ i ∈ cluster /\ j ∈ cluster).
  { destruct (decide (ki < kj)) as [Hlt|Hge].
    - destruct (cl_collisions _ Hcl j i) as (k & cluster & Hk & Hjc & Hic).
      + eexists; exact Hkj.
      + apply (gi_collisions _ Hg kj j Hkj). exists ki.
        split; [exact Hlt|]. split; [exact Hki|]. rewrite checkCollision_sym. exact Hcoll.
      + exists k, cluster. auto.
    - destruct (cl_collisions _ Hcl i j) as (k & cluster & Hk & Hic & Hjc).
      + eexists; exact Hki.
      + apply (gi_collisions _ Hg ki i Hki). exists kj.
        split; [rewrite Hci, Hcj in Hcols; lia|]. split; [exact Hkj|exact Hcoll].
      + exists k, cluster. auto. }
  destruct Hsame as (k & cluster & Hk & Hic & Hjc).
  destruct (cl_sized _ Hcl k cluster Hk) as (n & Hn & Hall).
  rewrite (inv_width _ _ Hinv) in Hall. change (cal_width (start_of raws)) with 600%float in Hall.
  destruct (Hall i Hic) as [Hni [Hwi Hli]]. destruct (Hall j Hjc) as [Hnj [Hwj Hlj]].
  exists cluster, n. split; [eapply list_elem_of_lookup_2, Hk|].
  split; [exact Hic|]. split; [exact Hjc|]. split; [|split; [exact Hall|split]].
  - apply (inv_dense _ _ Hinv). lia.
  - rewrite Hci, Hcj in *. destruct (decide (ki < kj)) as [Hlt|Hge].
    + left. apply exact_apart; lia.
    + right. apply exact_apart; lia.
  - intros Hn8.
    pose proof (apart_upto_8 n (S ki) (S kj) ltac:(lia) ltac:(lia) ltac:(congruence) Hn8)
      as Hapart.
    unfold apart in Hapart. unfold disjoint_ranges.
    rewrite Hli, Hlj, Hwi, Hwj, Hci, Hcj. exact Hapart.
Qed.

Lemma colliding_events_apart_witness :
  let raws := [raw 30 150; raw 540 600; raw 560 620; raw 610 670] in
  let cal := match layOutDay raws with Some (Ok cal) => cal | _ => newCalendar [] end in
  column (deref cal 1) <> column (deref cal 2)
  /\ exists cluster n,
       cluster ∈ collision_clusters cal
       /\ 1 ∈ cluster /\ 2 ∈ cluster
       /\ is_Some (events_calculated cal !! (n - 1))
       /\ (forall r, r ∈ cluster ->
             column (deref cal r) <= n /\ sized 600 n (deref cal r))
       /\ ((exact_left n (column (deref cal 1%nat)) + exact_width n
            <= exact_left n (column (deref cal 2%nat)))%Q
           \/ (exact_left n (column (deref cal 2%nat)) + exact_width n
               <= exact_left n (column (deref cal 1%nat)))%Q)
       /\ (n <= 8 -> disjoint_ranges (deref cal 1) (deref cal 2) = true).
Proof.
  intros raws cal.
  apply (colliding_events_apart raws cal 1 2);
    [vm_compute; reflexivity | vm_compute; reflexivity | simpl; lia | simpl; lia | lia
    | vm_compute; reflexivity].
Defined.

(** * Renaming the references *)

(** The layout uses a reference to compare it with another and to reach the
    object behind it, nothing else: a run on renamed references is the
    renamed run. *)

Section Renaming.

Variable pi : ref -> ref.
Hypothesis pi_inj : forall a b, pi a = pi b -> a = b.

Lemma inArray_from_rename x l : forall i,
  inArray_from i (pi x) (pi <$> l) = inArray_from i x l.
Proof.
  induction l as [|y l IH]; intros i; simpl; [reflexivity|].
  destruct (decide (x = y)) as [->|Hne].
  - rewrite !decide_True by reflexivity. reflexivity.
  - rewrite decide_False by (intros H; apply Hne, pi_inj, H).
    rewrite decide_False by exact Hne. apply IH.
Qed.

Lemma grep_from_rename (array : list nat) l : forall i,
  grep_from i (fun element index => (inArray element (pi <$> array) =? Z.of_nat index)%Z)
            (pi <$> l)
  = pi <$> grep_from i (fun element index => (inArray element array =? Z.of_nat index)%Z) l.
Proof.
  induction l as [|x l IH]; intros i; simpl; [reflexivity|].
  unfold inArray at 1. rewrite inArray_from_rename. fold (inArray x array).
  destruct (inArray x array =? Z.of_nat i)%Z; simpl; rewrite IH; reflexivity.
Qed.

Lemma removeDuplicates_rename l :
  removeDuplicates (pi <$> l) = pi <$> removeDuplicates l.
Proof. apply grep_from_rename. Qed.

Lemma clusters_containing_from_rename x clusters : forall index,
  clusters_containing_from index (pi x) (fmap (M:=list) pi <$> clusters)
  = clusters_containing_from index x clusters.
Proof.
  induction clusters as [|c clusters IH]; intros index; simpl; [reflexivity|].
  unfold inArray. rewrite inArray_from_rename, !IH. reflexivity.
Qed.

Lemma concat_clusters_rename idx ks : forall clusters,
  concat_clusters idx (fmap (M:=list) pi <$> clusters) ks
  = match concat_clusters idx clusters ks with
    | Ok merged => Ok (fmap (M:=list) pi <$> merged)
    | Throw => Throw
    end.
Proof.
  induction ks as [|k ks IH]; intros clusters; simpl; [reflexivity|].
  unfold concat_cluster. rewrite !list_lookup_fmap.
  destruct (clusters !! idx) as [c|]; simpl; [|reflexivity].
  destruct (clusters !! k) as [ck|]; simpl; [|reflexivity].
  rewrite <- fmap_app, <- list_fmap_insert. apply IH.
Qed.

Lemma splice_clusters_rename ks : forall clusters : list (list ref),
  splice_clusters (fmap (M:=list) pi <$> clusters) ks = fmap (M:=list) pi <$> splice_clusters clusters ks.
Proof.
  unfold splice_clusters.
  induction ks as [|k ks IH]; intros clusters; simpl; [reflexivity|].
  rewrite <- list_fmap_delete. apply IH.
Qed.

Lemma flat_map_rename {B} (f : ref -> list B) l :
  flat_map f (pi <$> l) = flat_map (fun x => f (pi x)) l.
Proof.
  induction l as [|x l IH]; [reflexivity|].
  rewrite fmap_cons. cbn [flat_map]. f_equal. exact IH.
Qed.

Lemma checkCollision_rename a b :
  checkCollision (rename_event pi a) (rename_event pi b) = checkCollision a b.
Proof. reflexivity. Qed.

Lemma resizeEvent_rename w column_ e :
  resizeEvent w column_ (rename_event pi e) = rename_event pi (resizeEvent w column_ e).
Proof. reflexivity. Qed.

(** ** The store and the arrays *)

Lemma renamed_update cal1 cal2 r f1 f2 :
  renamed pi cal1 cal2 ->
  (forall e, f2 (rename_event pi e) = rename_event pi (f1 e)) ->
  renamed pi (update cal1 r f1) (update cal2 (pi r) f2).
Proof.
  intros [Hw Hb Hd He Hc Hk] Hf.
  split; try assumption.
  - intros q. rewrite !length_objects_update. apply Hb.
  - intros q. destruct (decide (q = r)) as [->|Hne].
    + destruct (decide (r < length (objects cal1))) as [Hlt|Hge].
      * rewrite (deref_update_eq cal1) by exact Hlt.
        rewrite (deref_update_eq cal2) by (apply Hb; exact Hlt).
        rewrite Hd. apply Hf.
      * rewrite !deref_update_ge; [apply Hd|lia|].
        destruct (decide (pi r < length (objects cal2))) as [H|H]; [|lia].
        apply Hb in H. lia.
    + rewrite !deref_update_ne; [apply Hd|exact Hne|].
      intros H. apply Hne, pi_inj, H.
Qed.

Lemma getCollidingEvents_rename cal1 cal2 event column_ :
  renamed pi cal1 cal2 ->
  getCollidingEvents cal2 (pi event) column_
  = match getCollidingEvents cal1 event column_ with
    | Ok l => Ok (pi <$> l)
    | Throw => Throw
    end.
Proof.
  intros Hr. unfold getCollidingEvents. destruct column_ as [|k]; [reflexivity|].
  rewrite (rn_cells _ _ _ Hr), lookup_fmap.
  destruct (events_calculated cal1 !! k) as [cell|]; simpl; [|reflexivity].
  f_equal. induction cell as [|x cell IH]; [reflexivity|].
  rewrite fmap_cons, !filter_cons, IH, !(rn_deref _ _ _ Hr), checkCollision_rename.
  destruct (decide (checkCollision (deref cal1 event) (deref cal1 x) = true)); reflexivity.
Qed.

Lemma collidingEvents_loop_rename cal1 cal2 this j : forall acc,
  renamed pi cal1 cal2 ->
  collidingEvents_loop cal2 (pi this) j (pi <$> acc)
  = match collidingEvents_loop cal1 this j acc with
    | Ok l => Ok (pi <$> l)
    | Throw => Throw
    end.
Proof.
  induction j as [|j IH]; intros acc Hr; cbn [collidingEvents_loop]; [reflexivity|].
  rewrite (getCollidingEvents_rename _ _ _ _ Hr).
  destruct (getCollidingEvents cal1 this (S j)) as [l|]; cbn [bind]; [|reflexivity].
  rewrite <- fmap_app. apply IH, Hr.
Qed.

Lemma determineCollidingEvents_rename cal1 cal2 this :
  renamed pi cal1 cal2 ->
  alike (renamed pi) (determineCollidingEvents cal1 this)
        (determineCollidingEvents cal2 (pi this)).
Proof.
  intros Hr. unfold determineCollidingEvents.
  rewrite (rn_deref _ _ _ Hr). cbn [rename_event column collisions].
  rewrite (collidingEvents_loop_rename _ _ _ _ _ Hr).
  destruct (collidingEvents_loop cal1 this _ _) as [l|]; simpl; [|exact I].
  apply renamed_update; [exact Hr|].
  intros e. unfold rename_event. cbn. rewrite removeDuplicates_rename. reflexivity.
Qed.

Lemma collision_clusters_to_merge_rename cal1 cal2 event :
  renamed pi cal1 cal2 ->
  collision_clusters_to_merge cal2 (pi event) = collision_clusters_to_merge cal1 event.
Proof.
  intros Hr. unfold collision_clusters_to_merge.
  rewrite (rn_deref _ _ _ Hr), (rn_clusters _ _ _ Hr). cbn [rename_event collisions].
  rewrite flat_map_rename. f_equal. apply flat_map_ext_elem. intros x _.
  apply clusters_containing_from_rename.
Qed.

Lemma renamed_set_collision_clusters cal1 cal2 clusters :
  renamed pi cal1 cal2 ->
  renamed pi (set_collision_clusters cal1 clusters)
          (set_collision_clusters cal2 (fmap (M:=list) pi <$> clusters)).
Proof. intros [Hw Hb Hd He Hc Hk]. split; try assumption. reflexivity. Qed.

Lemma determineCollisionClusters_rename cal1 cal2 event :
  renamed pi cal1 cal2 ->
  alike (fun p1 p2 => renamed pi (fst p1) (fst p2) /\ snd p2 = snd p1)
        (determineCollisionClusters cal1 event)
        (determineCollisionClusters cal2 (pi event)).
Proof.
  intros Hr. rewrite !determineCollisionClusters_unfold.
  rewrite (collision_clusters_to_merge_rename _ _ _ Hr).
  rewrite (rn_deref _ _ _ Hr). cbn [rename_event collisions].
  rewrite (rn_clusters _ _ _ Hr).
  destruct (collisions (deref cal1 event)) as [|c0 cs]; simpl.
  - split; [|now rewrite length_fmap].
    replace ((fmap (M:=list) pi <$> collision_clusters cal1) ++ [[pi event]])
      with (fmap (M:=list) pi <$> (collision_clusters cal1 ++ [[event]]))
      by (rewrite fmap_app; reflexivity).
    apply renamed_set_collision_clusters, Hr.
  - destruct (collision_clusters_to_merge cal1 event) as [|idx others]; [exact I|].
    rewrite concat_clusters_rename.
    destruct (concat_clusters idx (collision_clusters cal1) others) as [merged|];
      simpl; [|exact I].
    rewrite splice_clusters_rename, list_lookup_fmap.
    destruct (splice_clusters merged (rev others) !! idx) as [c|]; simpl; [|exact I].
    split; [|reflexivity].
    replace (<[idx := (pi <$> c) ++ [pi event]]> (fmap (M:=list) pi <$> splice_clusters merged (rev others)))
      with (fmap (M:=list) pi <$> <[idx := c ++ [event]]> (splice_clusters merged (rev others)))
      by (rewrite list_fmap_insert, fmap_app; reflexivity).
    apply renamed_set_collision_clusters, Hr.
Qed.

Lemma resize_rename cal1 cal2 r column_ :
  renamed pi cal1 cal2 -> renamed pi (resize cal1 r column_) (resize cal2 (pi r) column_).
Proof.
  intros Hr. unfold resize. apply renamed_update; [exact Hr|].
  intros e. rewrite (rn_width _ _ _ Hr). apply resizeEvent_rename.
Qed.

Lemma resize_all_rename column_ cluster : forall cal1 cal2,
  renamed pi cal1 cal2 ->
  renamed pi (foldl (fun c r => resize c r column_) cal1 cluster)
          (foldl (fun c r => resize c r column_) cal2 (pi <$> cluster)).
Proof.
  induction cluster as [|r cluster IH]; intros cal1 cal2 Hr; [exact Hr|].
  rewrite fmap_cons. cbn [foldl]. apply IH, resize_rename, Hr.
Qed.

Lemma moved_rename cal1 cal2 i event column_ cell :
  renamed pi cal1 cal2 ->
  renamed pi (moved cal1 i event column_ cell)
          (moved cal2 i (pi event) column_ (pi <$> cell)).
Proof.
  intros Hr. unfold moved. apply renamed_update; [|reflexivity].
  destruct Hr as [Hw Hb Hd He Hc Hk]. split; try assumption.
  - cbn [events set_events]. rewrite He. symmetry. apply list_fmap_delete.
  - cbn [events_calculated set_events set_events_calculated].
    rewrite Hc, fmap_insert, fmap_app. reflexivity.
Qed.

Lemma place_rename cal1 cal2 i event column_ :
  renamed pi cal1 cal2 ->
  alike (renamed pi) (place cal1 i event column_) (place cal2 i (pi event) column_).
Proof.
  intros Hr. rewrite !place_unfold. rewrite (rn_cells _ _ _ Hr), lookup_fmap.
  destruct (events_calculated cal1 !! (column_ - 1)) as [cell|]; simpl; [|exact I].
  pose proof (determineCollidingEvents_rename _ _ event
                (moved_rename _ _ i event column_ cell Hr)) as H4.
  destruct (determineCollidingEvents (moved cal1 i event column_ cell) event) as [cal4|],
    (determineCollidingEvents (moved cal2 i (pi event) column_ (pi <$> cell)) (pi event))
    as [cal4'|]; simpl in *; try contradiction; [|exact I].
  pose proof (determineCollisionClusters_rename _ _ event H4) as H5.
  destruct (determineCollisionClusters cal4 event) as [[cal5 idx]|],
    (determineCollisionClusters cal4' (pi event)) as [[cal5' idx']|];
    simpl in *; try contradiction; [|exact I].
  destruct H5 as [H5 ->].
  rewrite (rn_clusters _ _ _ H5), list_lookup_fmap.
  destruct (collision_clusters cal5 !! idx) as [cluster|]; simpl; [|exact I].
  apply resize_all_rename, H5.
Qed.

Lemma step_rename c1 c2 :
  renamed_config pi c1 c2 -> renamed_status pi (step c1) (step c2).
Proof.
  destruct c1 as [cal1 column_ pt], c2 as [cal2 column2 pt2].
  intros (Hr & Hcol & Hpt). cbn [cfg_cal cfg_column cfg_point] in *. subst column2 pt2.
  unfold step. cbn [cfg_cal cfg_column cfg_point].
  destruct pt as [|i].
  - rewrite (rn_events _ _ _ Hr).
    destruct (events cal1) as [|e es]; simpl; [exact Hr|].
    split; [|split; reflexivity]. cbn [cfg_cal].
    destruct Hr as [Hw Hb Hd He Hc Hk]. split; try assumption.
    cbn [events_calculated set_events_calculated]. rewrite Hc, fmap_insert. reflexivity.
  - rewrite (rn_events _ _ _ Hr), list_lookup_fmap.
    destruct (events cal1 !! i) as [event|]; simpl;
      [|split; [exact Hr|split; reflexivity]].
    rewrite (getCollidingEvents_rename _ _ _ _ Hr).
    destruct (getCollidingEvents cal1 event column_) as [[|x xs]|]; simpl;
      [|split; [exact Hr|split; reflexivity]|exact I].
    pose proof (place_rename _ _ i event column_ Hr) as Hp.
    destruct (place cal1 i event column_) as [cal1'|],
      (place cal2 i (pi event) column_) as [cal2'|]; simpl in *; try contradiction;
      [|exact I].
    split; [exact Hp|split; reflexivity].
Qed.

Lemma run_rename fuel : forall c1 c2,
  renamed_config pi c1 c2 ->
  match run fuel c1, run fuel c2 with
  | Some r1, Some r2 => alike (renamed pi) r1 r2
  | None, None => True
  | _, _ => False
  end.
Proof.
  induction fuel as [|fuel IH]; intros c1 c2 Hc; simpl; [exact I|].
  pose proof (step_rename _ _ Hc) as Hs.
  destruct (step c1) as [c1'|cal1|], (step c2) as [c2'|cal2|]; simpl in Hs;
    try contradiction; [apply IH, Hs|exact Hs|exact I].
Qed.

End Renaming.

(** ** Two orders that the sort may give *)

(** Two sorted orders of the same events have events of the same times at
    the same places. *)
Lemma sort_outcomes_agree cal sorted1 sorted2 p (r1 r2 : ref) :
  sort_outcome cal sorted1 -> sort_outcome cal sorted2 ->
  sorted1 !! p = Some r1 -> sorted2 !! p = Some r2 ->
  same_times (deref cal r1) (deref cal r2).
Proof.
  intros [Hp1 Hs1] [Hp2 Hs2] H1 H2.
  set (key := fun r : ref => (start (deref cal r), end_ (deref cal r))).
  set (le := fun a b : Z * Z =>
               (a.1 < b.1)%Z \/ (a.1 = b.1 /\ (a.2 <= b.2)%Z)).
  assert (Hanti : AntiSymm eq le).
  { intros [a1 a2] [b1 b2]. unfold le. simpl. intros Hab Hba. f_equal; lia. }
  assert (Hkeys : key <$> sorted1 = key <$> sorted2).
  { apply (StronglySorted_unique le).
    - eapply StronglySorted_fmap; [|exact Hs1]. intros x y Hxy. exact Hxy.
    - eapply StronglySorted_fmap; [|exact Hs2]. intros x y Hxy. exact Hxy.
    - apply fmap_Permutation. rewrite Hp1, Hp2. reflexivity. }
  apply (f_equal (fun l => l !! p)) in Hkeys.
  rewrite !list_lookup_fmap, H1, H2 in Hkeys. simpl in Hkeys.
  injection Hkeys as Hstart Hend. split; congruence.
Qed.

Section Exchange.

Variables sorted1 sorted2 : list ref.
Hypothesis nodup1 : NoDup sorted1.
Hypothesis nodup2 : NoDup sorted2.
Hypothesis same_length : length sorted1 = length sorted2.
Hypothesis same_elements : forall r, r ∈ sorted1 <-> r ∈ sorted2.

Lemma exchange_lookup p (r r2 : ref) :
  sorted1 !! p = Some r -> sorted2 !! p = Some r2 -> exchange sorted1 sorted2 r = r2.
Proof.
  intros H1 H2. unfold exchange.
  assert (Hfind : list_find (eq r) sorted1 = Some (p, r)).
  { apply list_find_Some. split; [exact H1|]. split; [reflexivity|].
    intros j y Hj Hlt <-. pose proof (NoDup_lookup _ _ _ _ nodup1 H1 Hj). lia. }
  rewrite Hfind, H2. reflexivity.
Qed.

Lemma exchange_outside (r : ref) : r ∉ sorted1 -> exchange sorted1 sorted2 r = r.
Proof.
  intros Hr. unfold exchange.
  assert (Hfind : list_find (eq r) sorted1 = None).
  { apply list_find_None, Forall_forall. intros x Hx ->. contradiction. }
  rewrite Hfind. reflexivity.
Qed.

Lemma exchange_inside (r : ref) :
  r ∈ sorted1 ->
  exists p r2, sorted1 !! p = Some r /\ sorted2 !! p = Some r2
               /\ exchange sorted1 sorted2 r = r2.
Proof.
  intros Hr. apply list_elem_of_lookup_1 in Hr as [p Hp].
  destruct (lookup_lt_is_Some_2 sorted2 p) as [r2 H2].
  { rewrite <- same_length. eapply lookup_lt_Some, Hp. }
  exists p, r2. split; [exact Hp|]. split; [exact H2|]. eapply exchange_lookup; eassumption.
Qed.

Lemma exchange_elem_of (r : ref) : exchange sorted1 sorted2 r ∈ sorted1 <-> r ∈ sorted1.
Proof.
  destruct (decide (r ∈ sorted1)) as [Hr|Hr].
  - split; [auto|intros _].
    destruct (exchange_inside r Hr) as (p & r2 & _ & H2 & ->).
    apply same_elements. eapply list_elem_of_lookup_2, H2.
  - rewrite (exchange_outside r Hr). reflexivity.
Qed.

Lemma exchange_inj (a b : ref) :
  exchange sorted1 sorted2 a = exchange sorted1 sorted2 b -> a = b.
Proof.
  intros Heq.
  destruct (decide (a ∈ sorted1)) as [Ha|Ha], (decide (b ∈ sorted1)) as [Hb|Hb].
  - destruct (exchange_inside a Ha) as (p & a2 & Hp & Hp2 & Hea).
    destruct (exchange_inside b Hb) as (q & b2 & Hq & Hq2 & Heb).
    assert (p = q) as ->.
    { eapply (NoDup_lookup sorted2); [exact nodup2|exact Hp2|]. congruence. }
    congruence.
  - exfalso. apply Hb. apply exchange_elem_of. rewrite <- Heq. apply exchange_elem_of, Ha.
  - exfalso. apply Ha. apply exchange_elem_of. rewrite Heq. apply exchange_elem_of, Hb.
  - rewrite !exchange_outside in Heq by assumption. exact Heq.
Qed.

Lemma exchange_fmap : exchange sorted1 sorted2 <$> sorted1 = sorted2.
Proof.
  apply list_eq. intros p. rewrite list_lookup_fmap.
  destruct (sorted1 !! p) as [r|] eqn:H1; simpl.
  - destruct (lookup_lt_is_Some_2 sorted2 p) as [r2 H2].
    { rewrite <- same_length. eapply lookup_lt_Some, H1. }
    rewrite H2. f_equal. eapply exchange_lookup; eassumption.
  - symmetry. apply lookup_ge_None. rewrite <- same_length.
    apply lookup_ge_None, H1.
Qed.

End Exchange.

(** ** C7: two runs *)

Lemma newCalendar_deref raws (r : ref) :
  deref (newCalendar raws) r
  = match raws !! r with
    | Some x => newEvent 600 x
    | None => no_event
    end.
Proof.
  unfold deref. cbn [objects newCalendar].
  change (map (newEvent 600) raws) with (newEvent 600 <$> raws).
  rewrite list_lookup_fmap. unfold ref in *. destruct (raws !! r); reflexivity.
Qed.

Lemma sortEvents_outcome cal : sort_outcome cal (events (sortEvents cal)).
Proof. split; [apply sort_by_perm|apply sort_by_sorted]. Qed.

(** Two orders of the sort start two runs that are renamings of each
    other. *)
Lemma renamed_start raws sorted1 sorted2 :
  sort_outcome (newCalendar raws) sorted1 ->
  sort_outcome (newCalendar raws) sorted2 ->
  (forall a b, exchange sorted1 sorted2 a = exchange sorted1 sorted2 b -> a = b)
  /\ renamed (exchange sorted1 sorted2)
             (set_events (newCalendar raws) sorted1)
             (set_events (newCalendar raws) sorted2).
Proof.
  intros Ho1 Ho2. pose proof Ho1 as [Hp1 _]. pose proof Ho2 as [Hp2 _].
  cbn [events newCalendar] in Hp1, Hp2.
  assert (Hnd1 : NoDup sorted1) by (rewrite Hp1; apply NoDup_seq).
  assert (Hnd2 : NoDup sorted2) by (rewrite Hp2; apply NoDup_seq).
  assert (Hlen : length sorted1 = length sorted2) by (rewrite Hp1, Hp2; reflexivity).
  assert (Hel : forall r, r ∈ sorted1 <-> r ∈ sorted2)
    by (intros r; rewrite Hp1, Hp2; reflexivity).
  assert (Hin : forall r : ref, r ∈ sorted1 <-> r < length raws).
  { intros r. rewrite Hp1, elem_of_seq. lia. }
  split; [apply exchange_inj; assumption|].
  split; cbn [cal_width objects events events_calculated collision_clusters
              set_events newCalendar].
  - reflexivity.
  - intros r. rewrite !length_map, <- !Hin. apply exchange_elem_of; assumption.
  - intros r. change (deref (set_events (newCalendar raws) sorted2))
      with (deref (newCalendar raws)).
    change (deref (set_events (newCalendar raws) sorted1))
      with (deref (newCalendar raws)).
    destruct (decide (r ∈ sorted1)) as [Hr|Hr].
    + destruct (exchange_inside sorted1 sorted2 Hnd1 Hlen r Hr)
        as (p & r2 & H1 & H2 & ->).
      destruct (sort_outcomes_agree _ _ _ _ _ _ Ho1 Ho2 H1 H2) as [Hs He].
      rewrite !newCalendar_deref in *.
      assert (Hr2 : r2 < length raws) by (apply Hin, Hel; eapply list_elem_of_lookup_2, H2).
      apply Hin in Hr.
      destruct (lookup_lt_is_Some_2 raws r Hr) as [x Hx].
      destruct (lookup_lt_is_Some_2 raws r2 Hr2) as [x2 Hx2].
      unfold ref in *. rewrite Hx, Hx2 in *. unfold newEvent, rename_event in *.
      simpl in *. rewrite Hs, He. reflexivity.
    + rewrite (exchange_outside _ _ r Hr), !newCalendar_deref.
      assert (Hnone : raws !! r = None).
      { apply lookup_ge_None. destruct (decide (r < length raws)) as [H|H]; [|lia].
        apply Hin in H. contradiction. }
      unfold ref in *. rewrite Hnone. reflexivity.
  - symmetry. apply exchange_fmap; assumption.
  - rewrite fmap_empty. reflexivity.
  - reflexivity.
Qed.

(** Where two records compare equal, the order that the sort gives them
    decides which of the two gets which column. *)
Example tie_decides_columns :
  let raws := [raw 0 100; raw 50 150; raw 0 100] in
  (exists cal, layOutDay_sorted raws [0; 2; 1] = Some (Ok cal)
               /\ column (deref cal 0) = 1 /\ column (deref cal 2) = 2
               /\ column (deref cal 1) = 3)
  /\ (exists cal, layOutDay_sorted raws [2; 0; 1] = Some (Ok cal)
                  /\ column (deref cal 2) = 1 /\ column (deref cal 0) = 2
                  /\ column (deref cal 1) = 3).
Proof. split; eexists; (split; [vm_compute; reflexivity|]); repeat split. Qed.

(** C7.  Two runs of the layout on the same records end alike, whatever
    order the sort of each run gives to records that compare equal: both
    throw, or both return.  When they return, the records at the same place
    of the two sorted orders have the same [start] and [end] and get the same
    [column], [left] and [width]; and a record gets the same [column], [left]
    and [width] in both runs when the two sorts gave the same order (as two
    runs of one sort do, and the stable sort of [sortEvents]), or when no
    other record has its [start] and [end].  [layOutDay] is the run with the
    order of [sortEvents]. *)
Theorem layOutDay_deterministic raws sorted1 sorted2 :
  sort_outcome (newCalendar raws) sorted1 ->
  sort_outcome (newCalendar raws) sorted2 ->
  exists r1 r2,
    layOutDay_sorted raws sorted1 = Some r1
    /\ layOutDay_sorted raws sorted2 = Some r2
    /\ alike (fun cal1 cal2 =>
               (forall p a b,
                   sorted1 !! p = Some a -> sorted2 !! p = Some b ->
                   raws !! a = raws !! b
                   /\ same_layout (deref cal1 a) (deref cal2 b))
               /\ (forall r,
                     r < length raws ->
                     sorted1 = sorted2
                     \/ (forall r', r' < length raws -> raws !! r' = raws !! r -> r' = r) ->
                     same_layout (deref cal1 r) (deref cal2 r)))
             r1 r2
    /\ (sorted1 = events (sortEvents (newCalendar raws)) -> layOutDay raws = Some r1).
Proof.
  intros Ho1 Ho2.
  destruct (renamed_start raws sorted1 sorted2 Ho1 Ho2) as [Hinj Hren].
  set (pi := exchange sorted1 sorted2) in *.
  set (cal1 := set_events (newCalendar raws) sorted1) in *.
  set (cal2 := set_events (newCalendar raws) sorted2) in *.
  pose proof Ho1 as [Hp1 _]. pose proof Ho2 as [Hp2 _].
  assert (Hnd1 : NoDup sorted1) by (rewrite Hp1; apply NoDup_seq).
  assert (Hlen : length sorted1 = length sorted2) by (rewrite Hp1, Hp2; reflexivity).
  assert (Hlt : forall (r : ref) s, s ≡ₚ events (newCalendar raws) ->
                                    r ∈ s <-> r < length raws).
  { intros r s Hs. rewrite Hs. cbn. rewrite elem_of_seq. lia. }
  destruct (calculateEventPositions_ends cal1) as [r1 Hr1].
  destruct (calculateEventPositions_ends cal2) as [r2 Hr2].
  exists r1, r2. split; [exact Hr1|]. split; [exact Hr2|]. split; [|intros ->; exact Hr1].
  unfold calculateEventPositions in Hr1, Hr2.
  change (events cal1) with sorted1 in Hr1. change (events cal2) with sorted2 in Hr2.
  rewrite <- Hlen in Hr2.
  pose proof (run_rename pi Hinj (steps_bound (length sorted1)) (initial cal1) (initial cal2)
                (conj Hren (conj eq_refl eq_refl))) as Hrun.
  rewrite Hr1, Hr2 in Hrun.
  destruct r1 as [c1|], r2 as [c2|]; simpl in *; try contradiction; [|exact I].
  assert (Hplaces : forall p (a b : ref),
             sorted1 !! p = Some a -> sorted2 !! p = Some b ->
             raws !! a = raws !! b /\ same_layout (deref c1 a) (deref c2 b)).
  { intros p a b Ha Hb.
    assert (Hab : pi a = b) by (apply (exchange_lookup _ _ Hnd1 Hlen p); assumption).
    split.
    - destruct (sort_outcomes_agree _ _ _ _ _ _ Ho1 Ho2 Ha Hb) as [Hs He].
      rewrite !newCalendar_deref in Hs, He.
      destruct (lookup_lt_is_Some_2 raws a) as [x Hx].
      { apply (Hlt a sorted1 Hp1). eapply list_elem_of_lookup_2, Ha. }
      destruct (lookup_lt_is_Some_2 raws b) as [y Hy].
      { apply (Hlt b sorted2 Hp2). eapply list_elem_of_lookup_2, Hb. }
      unfold ref in *. rewrite Hx, Hy in *. simpl in Hs, He.
      destruct x, y. simpl in *. congruence.
    - unfold same_layout. rewrite <- Hab, (rn_deref _ _ _ Hrun a).
      repeat split; reflexivity. }
  split; [exact Hplaces|].
  intros r Hr Hsame.
  apply (Hlt r sorted1 Hp1), list_elem_of_lookup_1 in Hr as [p Ha].
  destruct (lookup_lt_is_Some_2 sorted2 p) as [b Hb].
  { rewrite <- Hlen. eapply lookup_lt_Some, Ha. }
  destruct (Hplaces p r b Ha Hb) as [Hraws Hlayout].
  assert (b = r) as ->; [|exact Hlayout].
  destruct Hsame as [Heq|Hunique].
  - rewrite Heq, Hb in Ha. now injection Ha.
  - apply Hunique; [|symmetry; exact Hraws].
    apply (Hlt b sorted2 Hp2). eapply list_elem_of_lookup_2, Hb.
Qed.

Lemma layOutDay_deterministic_witness :
  let raws := [raw 0 100; raw 50 150; raw 0 100] in
  exists r1 r2,
    layOutDay_sorted raws [0; 2; 1] = Some r1
    /\ layOutDay_sorted raws [2; 0; 1] = Some r2
    /\ alike (fun cal1 cal2 =>
               (forall p a b,
                   [0; 2; 1] !! p = Some a -> [2; 0; 1] !! p = Some b ->
                   raws !! a = raws !! b
                   /\ same_layout (deref cal1 a) (deref cal2 b))
               /\ (forall r,
                     r < length raws ->
                     [0; 2; 1] = [2; 0; 1]
                     \/ (forall r', r' < length raws -> raws !! r' = raws !! r -> r' = r) ->
                     same_layout (deref cal1 r) (deref cal2 r)))
             r1 r2
    /\ ([0; 2; 1] = events (sortEvents (newCalendar raws)) -> layOutDay raws = Some r1).
Proof.
  intros raws.
  apply (layOutDay_deterministic raws [0; 2; 1] [2; 0; 1]).
  - split; [simpl; solve_Permutation|].
    repeat constructor; unfold in_order, earlier_or_same; simpl; lia.
  - split; [simpl; solve_Permutation|].
    repeat constructor; unfold in_order, earlier_or_same; simpl; lia.
Defined.
